(** * The six-room dungeon graph engine

    A shallow embedding of the dungeon generator (layout catalog, connection
    roller, stocking, generator), of the graph mutators (update, add edge,
    attach, replace) and of the two topology analyses (bridge links and
    depths from the entrances), of the connection list of a room and of the
    data that the graph component computes for its layout, followed by the
    properties proved of them.

    Conventions of the embedding:
    - a JavaScript [number] that the code computes with is a [Z]; array
      positions are [nat];
    - [Math.random()] reads the next sample of an explicit random source;
      a sample is the numerator [u] of the dyadic fraction [u / 2^53] in
      [0, 1); the product of a sample and an integer is rounded to the
      nearest double, as the code computes it ([floorMul]);
    - a string is the sequence of its UTF-16 code units, each below 256
      (the identifiers that the program makes are ASCII), so that the
      order of [String.ltb] is the order of [sort()] and of [<];
    - a [Set<string>] iterated in insertion order is a [list string]; a
      [Set<string>] only tested for membership is a [gset string]; a
      [Map<string, _>] is a [gmap string _];
    - a thrown exception is an [Err] result; a [while] loop runs on fuel and
      reports [OutOfFuel] when the fuel does not suffice. *)

From Stdlib Require Import ZArith Lia.
From stdpp Require Import gmap strings list fin_maps pretty.

Local Open Scope string_scope.
Local Open Scope list_scope.
Local Open Scope Z_scope.

(** ** types.ts *)

Inductive RoomType :=
  | monster_treasure | monster | treasure | special | empty.

Inductive ConnectionType :=
  | open | closed | trapped | hazardous | secret.

#[global] Instance RoomType_eq_dec : EqDecision RoomType.
Proof. solve_decision. Defined.

#[global] Instance ConnectionType_eq_dec : EqDecision ConnectionType.
Proof. solve_decision. Defined.

Record DungeonNode := mkNode {
  id : string;
  label : string;
  roomType : RoomType;
  content : string;
  entrance : option bool;
  parentNodeId : option string;
}.

Record DungeonLink := mkLink {
  source : string;
  target : string;
  connectionType : ConnectionType;
  description : option string;
  clueRoomId : option string;
}.

Record GraphData := mkGraph {
  nodes : list DungeonNode;
  links : list DungeonLink;
}.

#[global] Instance DungeonNode_eq_dec : EqDecision DungeonNode.
Proof. solve_decision. Defined.

#[global] Instance DungeonLink_eq_dec : EqDecision DungeonLink.
Proof. solve_decision. Defined.

#[global] Instance GraphData_eq_dec : EqDecision GraphData.
Proof. solve_decision. Defined.

(** ** Results, the random source and its monad *)

Inductive error := TypeError | DuplicateEdge | OutOfFuel.

Inductive result (A : Type) :=
  | Ok (a : A)
  | Err (e : error).
Arguments Ok {A} a.
Arguments Err {A} e.

(** The random source: the samples that successive calls of
    [Math.random()] return. *)
Definition rng := nat → Z.

Definition RAND_DEN : Z := 2 ^ 53.

Definition Rand (A : Type) : Type := rng → result (A * rng).

#[global] Instance Rand_ret : MRet Rand := fun A a r => Ok (a, r).

#[global] Instance Rand_bind : MBind Rand := fun A B k m r =>
  match m r with
  | Ok (a, r') => k a r'
  | Err e => Err e
  end.

Definition ret {A} (a : A) : Rand A := mret a.

Definition throw {A} (e : error) : Rand A := fun _ => Err e.

(** [Math.random()]: the next sample, as a numerator in [0, 2^53). *)
Definition Math_random : Rand Z :=
  fun r => Ok (r 0%nat `mod` RAND_DEN, fun n => r (S n)).

(** [m] rounded to a multiple of [2^e]: to the nearest one and, half way
    between two, to the even one. *)
Definition roundTo (e m : Z) : Z :=
  let q := m `div` 2 ^ e in
  let rem := m `mod` 2 ^ e in
  let half := 2 ^ (e - 1) in
  (if (half <? rem) || ((rem =? half) && Z.odd q) then q + 1 else q) * 2 ^ e.

(** The double nearest to the non-negative integer [m]: an integer of at
    most 53 bits is a double; a longer one is rounded to its leading 53
    bits (IEEE 754, round to nearest, ties to even). Scaling by a power of
    two moves no bit, so this also rounds [m / 2^53]. *)
Definition round53 (m : Z) : Z :=
  let e := Z.log2 m - 52 in
  if e <=? 0 then m else roundTo e m.

(** [Math.floor(u * n)] for a sample with numerator [u] and an integer [n]
    that a double holds: the product of the two doubles is the exact product
    rounded to the nearest double, and the floor of a double is exact. *)
Definition floorMul (u n : Z) : Z :=
  let m := u * n in
  (Z.sgn m * round53 (Z.abs m)) `div` RAND_DEN.

(** ** connectionRoll.ts *)

Definition connectionTypeOfRoll (roll : Z) : ConnectionType :=
  if roll <? 447 then open
  else if roll <? 670 then closed
  else if roll <? 780 then trapped
  else if roll <? 890 then hazardous
  else secret.

Definition randomConnectionType : Rand ConnectionType :=
  u ← Math_random;
  let roll := floorMul u 1000 in
  ret (connectionTypeOfRoll roll).

(** The number of rolls in [0, 1000) that give the category [c]. *)
Definition rollCount (c : ConnectionType) : nat :=
  length (filter (fun roll => connectionTypeOfRoll roll = c) (seqZ 0 1000)).

(** The rolls of a category: from the first bound up to, not including, the
    second. *)
Definition rollRange (c : ConnectionType) : Z * Z :=
  match c with
  | open => (0, 447)
  | closed => (447, 670)
  | trapped => (670, 780)
  | hazardous => (780, 890)
  | secret => (890, 1000)
  end.

(** The least sample (as a numerator) whose roll is at least [k]: the
    rounded product reaches [k] half a unit in the last place before the
    exact product does. *)
Definition rollCut (k : Z) : Z :=
  if k <=? 0 then 0
  else if 1000 <=? k then RAND_DEN
  else
    let t := k * RAND_DEN in
    let half := 2 ^ (Z.log2 (t - 1) - 53) in
    (t - half + 999) `div` 1000.

(** ** Graphs as lists of endpoint pairs *)

Section Graphs.
Context {V : Type} `{!EqDecision V}.

(** [u] and [w] are the two ends of some edge. *)
Definition adjacent (es : list (V * V)) (u w : V) : Prop :=
  (u, w) ∈ es ∨ (w, u) ∈ es.

(** [w] is reachable from [u] along edges of [es]. *)
Inductive reach (es : list (V * V)) (u : V) : V → Prop :=
  | reach_refl : reach es u u
  | reach_step w x : reach es u w → adjacent es w x → reach es u x.

(** A walk of exactly [n] edges from some root to [w]. *)
Inductive walk (es : list (V * V)) (roots : list V) : nat → V → Prop :=
  | walk_root r : r ∈ roots → walk es roots 0 r
  | walk_step n w x :
      walk es roots n w → adjacent es w x → walk es roots (S n) x.

(** One step of a trail: the edge at position [i], taken from its first
    end to its second ([false]) or the other way round ([true]). *)
Definition step_from (es : list (V * V)) (s : nat * bool) : option V :=
  e ← es !! s.1; Some (if s.2 then e.2 else e.1).

Definition step_to (es : list (V * V)) (s : nat * bool) : option V :=
  e ← es !! s.1; Some (if s.2 then e.1 else e.2).

(** The steps chain: each one starts where the previous one ends, the
    first starts at [a] and the last ends at [b]. *)
Fixpoint chained (es : list (V * V)) (a : V) (t : list (nat * bool)) (b : V)
  : Prop :=
  match t with
  | [] => a = b
  | s :: t' =>
      step_from es s = Some a ∧
      ∃ c, step_to es s = Some c ∧ chained es c t' b
  end.

(** A closed trail: a closed walk of at least one edge in which no edge
    (position in [es]) is used twice. A graph is a forest exactly when it
    has none. *)
Definition closed_trail (es : list (V * V)) (t : list (nat * bool)) : Prop :=
  t ≠ [] ∧ NoDup (t.*1) ∧ ∃ a, chained es a t a.

Definition has_cycle (es : list (V * V)) : Prop := ∃ t, closed_trail es t.

Definition connected_on (vs : list V) (es : list (V * V)) : Prop :=
  ∀ u w, u ∈ vs → w ∈ vs → reach es u w.

(** Executable counterparts, used to check concrete graphs. *)

(** The ends of edges that leave a vertex of [seen]. *)
Definition frontier_of (es : list (V * V)) (seen : list V) : list V :=
  flat_map (fun e : V * V =>
              (if bool_decide (e.1 ∈ seen) then [e.2] else [])
              ++ (if bool_decide (e.2 ∈ seen) then [e.1] else [])) es.

Fixpoint closure (n : nat) (es : list (V * V)) (seen : list V) : list V :=
  match n with
  | O => seen
  | S n' => closure n' es (seen ++ frontier_of es seen)
  end.

Fixpoint chainedb (es : list (V * V)) (a : V) (t : list (nat * bool)) (b : V)
  : bool :=
  match t with
  | [] => bool_decide (a = b)
  | s :: t' =>
      match step_from es s, step_to es s with
      | Some a', Some c => bool_decide (a' = a) && chainedb es c t' b
      | _, _ => false
      end
  end.

Definition closed_trailb (es : list (V * V)) (t : list (nat * bool)) : bool :=
  match t with
  | [] => false
  | s :: _ =>
      bool_decide (NoDup (t.*1))
      && match step_from es s with
         | Some a => chainedb es a t a
         | None => false
         end
  end.
End Graphs.

(** The ends of the links of a graph. *)
Definition endpoints (l : DungeonLink) : string * string :=
  (source l, target l).

Definition graph_edges (g : GraphData) : list (string * string) :=
  endpoints <$> links g.

Definition node_ids (g : GraphData) : list string := id <$> nodes g.

(** ** biteSizedGenerator.ts *)

Definition LAYOUTS : list (list (nat * nat)) := [
  [(0, 1); (1, 2); (2, 0); (0, 3); (1, 4); (2, 5)];
  [(0, 1); (1, 2); (2, 0); (0, 3); (0, 4); (4, 5)];
  [(0, 1); (1, 2); (2, 0); (0, 3); (1, 4); (1, 5)];
  [(0, 1); (1, 2); (2, 0); (0, 3); (0, 4); (0, 5)];
  [(0, 1); (1, 2); (2, 3); (3, 0); (0, 4); (2, 5)];
  [(0, 1); (1, 2); (2, 3); (3, 0); (0, 4); (4, 5)];
  [(0, 1); (1, 2); (2, 3); (3, 0); (0, 4); (0, 5)];
  [(0, 1); (1, 2); (2, 3); (3, 4); (4, 0); (0, 5)];
  [(0, 1); (1, 2); (2, 3); (0, 3); (3, 4); (4, 5)];
  [(0, 1); (1, 2); (2, 0); (2, 3); (0, 4); (1, 5)]
]%nat.

Definition ROOM_TYPES : list RoomType :=
  [monster_treasure; monster; treasure; empty; empty; empty].

(** [Math.floor(Math.random() * (max - min + 1)) + min]. For integers
    between -2^53 and 2^53 that are less than 2^53 apart, as in every call of
    the program, the difference and the sums are integers that a double
    holds, so that they are exact and only the product is rounded. *)
Definition randomInt (min max : Z) : Rand Z :=
  u ← Math_random;
  ret (floorMul u (max - min + 1) + min).

(** [[out[i], out[j]] = [out[j], out[i]]]. Both positions are always inside
    the array where [shuffle] calls it (lemma [shuffle_positions]). *)
Definition swap {T} (out : list T) (i j : nat) : list T :=
  match out !! i, out !! j with
  | Some x, Some y => <[j := x]> (<[i := y]> out)
  | _, _ => out
  end.

(** The loop of [shuffle], from position [i] down to 1. *)
Fixpoint shuffle_from {T} (i : nat) (out : list T) : Rand (list T) :=
  match i with
  | O => ret out
  | S i' =>
      u ← Math_random;
      let j := Z.to_nat (floorMul u (Z.of_nat i + 1)) in
      shuffle_from i' (swap out i j)
  end.

Definition shuffle {T} (arr : list T) : Rand (list T) :=
  shuffle_from (length arr - 1)%nat arr.

Definition digit36 (d : Z) : string :=
  String.substring (Z.to_nat d) 1 "0123456789abcdefghijklmnopqrstuvwxyz".

(** The base-36 digits of the fraction [u / 2^53], at most [n] of them,
    stopping when nothing is left. The language leaves the digits of
    [toString(36)] to the engine, which may stop earlier and round its last
    digit; what is proved of the identifiers uses their form ("room-", then
    at most eight characters out of 0-9 and a-z) and whether they are
    different, not which digits they are. *)
Fixpoint fraction36 (n : nat) (u : Z) : string :=
  match n with
  | O => EmptyString
  | S n' =>
      if u =? 0 then EmptyString
      else digit36 ((u * 36) `div` RAND_DEN)
             +:+ fraction36 n' ((u * 36) `mod` RAND_DEN)
  end.

(** [`room-${Math.random().toString(36).slice(2, 10)}`]: the text of the
    sample is ["0"] or ["0."] followed by its digits, of which the slice
    keeps the first eight. *)
Definition generateId : Rand string :=
  u ← Math_random;
  ret ("room-" +:+ fraction36 8 u).

(** [Array.from({ length: n }, () => generateId())]. *)
Fixpoint generateIds (n : nat) : Rand (list string) :=
  match n with
  | O => ret []
  | S n' => i ← generateId; rest ← generateIds n'; ret (i :: rest)
  end.

Definition getDefaultContent (t : RoomType) : string :=
  match t with
  | monster_treasure =>
"**Monster + Treasure**

Describe the encounter and the treasure here."
  | monster =>
"**Monster**

Describe the encounter."
  | treasure =>
"**Treasure** (hidden or trapped)

Describe how it’s hidden or the trap."
  | special =>
"**Special**

Puzzle, trick, or unusual feature."
  | empty =>
"**Empty**

Set dressing and any minor details."
  end.

(** [arr.indexOf(x)], -1 when [x] does not occur. *)
Fixpoint indexOf (arr : list RoomType) (x : RoomType) : Z :=
  match arr with
  | [] => -1
  | y :: arr' =>
      if decide (y = x) then 0
      else let k := indexOf arr' x in if k <? 0 then -1 else k + 1
  end.

(** [randomInt(0, 2) === 0]. *)
Definition oneSpecialOf (r : Z) : bool := r =? 0.

(** The [types] array: the first 'empty' becomes 'special' when
    [oneSpecial] holds. *)
Definition upgradeTypes (shuffledTypes : list RoomType) (oneSpecial : bool)
  : list RoomType :=
  imap (fun i t =>
          if bool_decide (t = empty) && oneSpecial
             && (Z.of_nat i =? indexOf shuffledTypes empty)
          then special else t) shuffledTypes.

(** [[a, b].sort().join('-')]: the two identifiers in increasing order. *)
Definition norm (a b : string) : string :=
  if String.ltb b a then b +:+ "-" +:+ a else a +:+ "-" +:+ b.

(** The [edges.map] of the generator: each edge is checked against the keys
    seen so far, then its connection type is rolled. Positions of a catalog
    layout are below six, the length of [nodeIds]. *)
Fixpoint makeLinks (nodeIds : list string) (edges : list (nat * nat))
    (linkSet : gset string) : Rand (list DungeonLink) :=
  match edges with
  | [] => ret []
  | (a, b) :: edges' =>
      let idA := nodeIds !!! a in
      let idB := nodeIds !!! b in
      let key := norm idA idB in
      if bool_decide (key ∈ linkSet) then throw DuplicateEdge
      else
        t ← randomConnectionType;
        ls ← makeLinks nodeIds edges' ({[key]} ∪ linkSet);
        ret (mkLink idA idB t None None :: ls)
  end.

Definition makeNodes (nodeIds : list string) (types : list RoomType)
    (entranceIndex secondEntrance : Z) : list DungeonNode :=
  imap (fun i i_id =>
          let t := default empty (types !! i) in
          mkNode i_id ("Room " +:+ pretty (i + 1)%nat) t (getDefaultContent t)
            (Some ((Z.of_nat i =? entranceIndex)
                   || (Z.of_nat i =? secondEntrance)))
            None) nodeIds.

Definition generateBiteSizedDungeon (seedLayout : option Z) : Rand GraphData :=
  layoutIndex ← match seedLayout with
                 | Some k => ret k
                 | None => randomInt 0 (Z.of_nat (length LAYOUTS) - 1)
                 end;
  let edges := if layoutIndex <? 0 then None
               else LAYOUTS !! Z.to_nat layoutIndex in
  nodeIds ← generateIds 6;
  shuffledTypes ← shuffle ROOM_TYPES;
  r ← randomInt 0 2;
  let oneSpecial := oneSpecialOf r in
  let types := upgradeTypes shuffledTypes oneSpecial in
  entranceIndex ← randomInt 0 5;
  secondEntrance ← randomInt 0 5;
  let nodes := makeNodes nodeIds types entranceIndex secondEntrance in
  match edges with
  | None => throw TypeError
  | Some edges =>
      links ← makeLinks nodeIds edges ∅;
      ret (mkGraph nodes links)
  end.

(** ** graphUtils.ts *)

(** [Partial<Pick<DungeonNode, 'label' | 'content' | 'entrance'>>]: a field
    that is [None] is not part of the update. *)
Record NodeUpdates := mkNodeUpdates {
  new_label : option string;
  new_content : option string;
  new_entrance : option bool;
}.

(** [Partial<Pick<DungeonLink, 'connectionType' | 'description' |
    'clueRoomId'>>]. *)
Record LinkUpdates := mkLinkUpdates {
  new_connectionType : option ConnectionType;
  new_description : option string;
  new_clueRoomId : option string;
}.

(** [{ ...n, ...updates }]. *)
Definition applyNodeUpdates (n : DungeonNode) (u : NodeUpdates) : DungeonNode :=
  mkNode (id n)
    (default (label n) (new_label u))
    (roomType n)
    (default (content n) (new_content u))
    (match new_entrance u with Some b => Some b | None => entrance n end)
    (parentNodeId n).

(** [{ ...l, ...updates }]. *)
Definition applyLinkUpdates (l : DungeonLink) (u : LinkUpdates) : DungeonLink :=
  mkLink (source l) (target l)
    (default (connectionType l) (new_connectionType u))
    (match new_description u with Some d => Some d | None => description l end)
    (match new_clueRoomId u with Some c => Some c | None => clueRoomId l end).

Definition updateNode (g : GraphData) (nodeId : string) (updates : NodeUpdates)
  : GraphData :=
  mkGraph
    ((fun n => if decide (id n = nodeId) then applyNodeUpdates n updates else n)
       <$> nodes g)
    (links g).

Definition updateEdge (g : GraphData) (source0 target0 : string)
    (updates : LinkUpdates) : GraphData :=
  let key := norm source0 target0 in
  mkGraph (nodes g)
    ((fun l =>
        let lkey := norm (source l) (target l) in
        if decide (lkey = key) then applyLinkUpdates l updates else l)
       <$> links g).

Definition addEdge (g : GraphData) (source0 target0 : string)
    (connectionType0 : ConnectionType) : GraphData :=
  if decide (source0 = target0) then g
  else
    let key := norm source0 target0 in
    let exists_ :=
      existsb (fun l => bool_decide (norm (source l) (target l) = key))
        (links g) in
    if exists_ then g
    else mkGraph (nodes g)
           (links g ++ [mkLink source0 target0 connectionType0 None None]).

(** [g.nodes.find((n) => n.id === nodeId)]. *)
Definition findNode (g : GraphData) (nodeId : string) : option DungeonNode :=
  List.find (fun n => bool_decide (id n = nodeId)) (nodes g).

Definition touches (nodeId : string) (l : DungeonLink) : Prop :=
  source l = nodeId ∨ target l = nodeId.

#[global] Instance touches_dec nodeId l : Decision (touches nodeId l).
Proof. unfold touches. apply _. Defined.

Definition attachDungeon (g : GraphData) (nodeId : string) : Rand GraphData :=
  match findNode g nodeId with
  | None => ret g
  | Some node =>
      sub ← generateBiteSizedDungeon None;
      match nodes sub with
      | [] => throw TypeError
      | first :: _ =>
          let bridgeNodeId := id first in
          corridorType ← randomConnectionType;
          let newNodes :=
            (fun n => mkNode (id n) (label n) (roomType n) (content n)
                        (Some false) (Some nodeId)) <$> nodes sub in
          let newLinks := links sub in
          let connectingLink :=
            mkLink nodeId bridgeNodeId corridorType None None in
          ret (mkGraph (nodes g ++ newNodes)
                 (links g ++ newLinks ++ [connectingLink]))
      end
  end.

(** The link that [replaceNodeWithDungeon] re-creates for an old link of the
    replaced room. *)
Definition reattach (nodeId bridgeNodeId : string) (oldLink : DungeonLink)
  : DungeonLink :=
  let external :=
    if decide (source oldLink = nodeId) then target oldLink
    else source oldLink in
  mkLink bridgeNodeId external (connectionType oldLink)
    (description oldLink) (clueRoomId oldLink).

(** The room that [replaceNodeWithDungeon] makes of a room of the new unit:
    the bridge room takes the label, content and entrance flag of the
    replaced room. *)
Definition splice (node : DungeonNode) (nodeId bridgeNodeId : string)
    (n : DungeonNode) : DungeonNode :=
  let isBridge := bool_decide (id n = bridgeNodeId) in
  mkNode (id n)
    (if isBridge then label node else label n)
    (roomType n)
    (if isBridge then content node else content n)
    (if isBridge then entrance node else Some false)
    (Some nodeId).

Definition replaceNodeWithDungeon (g : GraphData) (nodeId : string)
  : Rand (GraphData * string) :=
  match findNode g nodeId with
  | None => ret (g, nodeId)
  | Some node =>
      let outgoingEdges := filter (touches nodeId) (links g) in
      sub ← generateBiteSizedDungeon None;
      match nodes sub with
      | [] => throw TypeError
      | first :: _ =>
          let bridgeNodeId := id first in
          let newNodes := splice node nodeId bridgeNodeId <$> nodes sub in
          let newLinks := links sub in
          let nodesWithoutOld := filter (fun n => id n ≠ nodeId) (nodes g) in
          let linksWithoutOld :=
            filter (fun l => ¬ touches nodeId l) (links g) in
          let reattachLinks := reattach nodeId bridgeNodeId <$> outgoingEdges in
          ret (mkGraph (nodesWithoutOld ++ newNodes)
                 (linksWithoutOld ++ newLinks ++ reattachLinks),
               bridgeNodeId)
      end
  end.

(** ** DungeonGraph.tsx: the topology analyses *)

#[global] Instance result_ret : MRet result := fun A a => Ok a.

#[global] Instance result_bind : MBind result := fun A B k m =>
  match m with
  | Ok a => k a
  | Err e => Err e
  end.

(** [nodeIds.forEach((id) => adj.set(id, []))]. *)
Definition emptyAdj (nodeIds : list string) : gmap string (list string) :=
  foldl (fun adj i => <[i := []]> adj) ∅ nodeIds.

(** [adj.get(a)!.push(b)]: a [TypeError] when [a] has no entry. *)
Definition pushAdj (adj : gmap string (list string)) (a b : string)
  : result (gmap string (list string)) :=
  match adj !! a with
  | Some l => Ok (<[a := l ++ [b]]> adj)
  | None => Err TypeError
  end.

(** The loop that fills the adjacency lists, leaving out the links that
    [skip] selects. *)
Fixpoint buildAdj (skip : string * string → bool)
    (es : list (string * string)) (adj : gmap string (list string))
  : result (gmap string (list string)) :=
  match es with
  | [] => Ok adj
  | e :: es' =>
      if skip e then buildAdj skip es' adj
      else
        adj1 ← pushAdj adj e.1 e.2;
        adj2 ← pushAdj adj1 e.2 e.1;
        buildAdj skip es' adj2
  end.

(** [(e.s === s && e.t === t) || (e.s === t && e.t === s)]. *)
Definition samePair (s t : string) (e : string * string) : bool :=
  bool_decide (e.1 = s) && bool_decide (e.2 = t)
  || bool_decide (e.1 = t) && bool_decide (e.2 = s).

(** The [for] loop over the neighbours of the node taken off the queue. *)
Fixpoint visitAll (nbrs : list string) (visited : gset string)
    (queue : list string) : gset string * list string :=
  match nbrs with
  | [] => (visited, queue)
  | nid :: rest =>
      if bool_decide (nid ∈ visited) then visitAll rest visited queue
      else visitAll rest ({[nid]} ∪ visited) (queue ++ [nid])
  end.

(** [while (queue.length) { ... }], one unit of fuel for each turn. *)
Fixpoint bfs (fuel : nat) (adj : gmap string (list string))
    (visited : gset string) (queue : list string) : result (gset string) :=
  match queue with
  | [] => Ok visited
  | i :: queue' =>
      match fuel with
      | O => Err OutOfFuel
      | S fuel' =>
          let '(visited', queue'') :=
            visitAll (default [] (adj !! i)) visited queue' in
          bfs fuel' adj visited' queue''
      end
  end.

(** The body of the outer [normLinks.forEach]: is [t] cut off from [s] once
    the links between [s] and [t] are left out? *)
Definition isBridge (fuel : nat) (nodeIds : list string)
    (normLinks : list (string * string)) (s t : string) : result bool :=
  adj ← buildAdj (samePair s t) normLinks (emptyAdj nodeIds);
  visited ← bfs fuel adj {[s]} [s];
  mret (negb (bool_decide (t ∈ visited))).

Fixpoint bridgeLoop (fuel : nat) (nodeIds : list string)
    (normLinks todo : list (string * string)) (bridgeKeys : gset string)
  : result (gset string) :=
  match todo with
  | [] => Ok bridgeKeys
  | (s, t) :: todo' =>
      b ← isBridge fuel nodeIds normLinks s t;
      bridgeLoop fuel nodeIds normLinks todo'
        (if b : bool then {[norm s t]} ∪ bridgeKeys else bridgeKeys)
  end.

(** [links] holds the two identifiers of each link ([normLinks] in the
    source); [fuel] bounds the turns of each breadth-first search. *)
Definition getBridgeLinkKeys (fuel : nat) (nodeIds : list string)
    (links : list (string * string)) : result (gset string) :=
  bridgeLoop fuel nodeIds links links ∅.

(** The inner [for] loop of the depth labelling. *)
Fixpoint labelNeighbours (d : nat) (nbrs : list string)
    (depths : gmap string nat) (next : list string)
  : gmap string nat * list string :=
  match nbrs with
  | [] => (depths, next)
  | nid :: rest =>
      match depths !! nid with
      | Some _ => labelNeighbours d rest depths next
      | None => labelNeighbours d rest (<[nid := d]> depths) (next ++ [nid])
      end
  end.

(** [for (const id of frontier) { ... }]. Every identifier of a frontier was
    given its depth before it was put there, so [depths.get(id)!] is always
    a number. *)
Fixpoint expandFrontier (adj : gmap string (list string))
    (frontier : list string) (depths : gmap string nat) (next : list string)
  : result (gmap string nat * list string) :=
  match frontier with
  | [] => Ok (depths, next)
  | i :: rest =>
      let d := (default 0 (depths !! i) + 1)%nat in
      match adj !! i with
      | None => Err TypeError
      | Some nbrs =>
          let '(depths', next') := labelNeighbours d nbrs depths next in
          expandFrontier adj rest depths' next'
      end
  end.

(** [while (frontier.length) { ... }], one unit of fuel for each layer. *)
Fixpoint depthLoop (fuel : nat) (adj : gmap string (list string))
    (depths : gmap string nat) (frontier : list string)
  : result (gmap string nat) :=
  match frontier with
  | [] => Ok depths
  | _ :: _ =>
      match fuel with
      | O => Err OutOfFuel
      | S fuel' =>
          r ← expandFrontier adj frontier depths [];
          depthLoop fuel' adj r.1 r.2
      end
  end.

(** [entranceIds.length > 0 ? entranceIds : Array.from(nodeIds).slice(0, 1)]. *)
Definition rootsOf (nodeIds entranceIds : list string) : list string :=
  match entranceIds with
  | [] => take 1 nodeIds
  | _ :: _ => entranceIds
  end.

Definition getDepthsFromEntrances (fuel : nat) (nodeIds : list string)
    (links : list (string * string)) (entranceIds : list string)
  : result (gmap string nat) :=
  adj ← buildAdj (fun _ => false) links (emptyAdj nodeIds);
  let roots := rootsOf nodeIds entranceIds in
  let depths := foldl (fun depths i => <[i := 0%nat]> depths) ∅ roots in
  depthLoop fuel adj depths roots.

(** ** Notions used to state the properties *)

(** A closed trail in each layout of the catalog, in catalog order. *)
Definition LAYOUT_TRAILS : list (list (nat * bool)) :=
  let triangle := [(0, false); (1, false); (2, false)]%nat in
  let square := [(0, false); (1, false); (2, false); (3, false)]%nat in
  [ triangle; triangle; triangle; triangle; square; square; square;
    [(0, false); (1, false); (2, false); (3, false); (4, false)];
    [(0, false); (1, false); (2, false); (3, true)];
    triangle ]%nat.

(** An index pair without its direction. *)
Definition normPair (e : nat * nat) : nat * nat :=
  (Nat.min e.1 e.2, Nat.max e.1 e.2).

(** The positions 0..5 of a layout. *)
Definition POSITIONS : list nat := seq 0 6.

(** The number of rooms of a graph that have the type [t]. *)
Definition countType (t : RoomType) (g : GraphData) : nat :=
  length (filter (fun n => roomType n = t) (nodes g)).

(** The link [l] joins the rooms [a] and [b], in either direction. *)
Definition joins (a b : string) (l : DungeonLink) : Prop :=
  (source l = a ∧ target l = b) ∨ (source l = b ∧ target l = a).

(** What a link carries besides its ends. *)
Definition metadata (l : DungeonLink)
  : ConnectionType * option string * option string :=
  (connectionType l, description l, clueRoomId l).

(** [g] has a link between [a] and [b] that carries [m]. *)
Definition linked (g : GraphData) (a b : string)
    (m : ConnectionType * option string * option string) : Prop :=
  ∃ l, l ∈ links g ∧ joins a b l ∧ metadata l = m.

(** The identifier [x] is in use in [g]: as a room or as an end of a link. *)
Definition occurs (x : string) (g : GraphData) : Prop :=
  x ∈ node_ids g ++ (source <$> links g) ++ (target <$> links g).

(** Every end of a link is one of the nodes. *)
Definition closed_links (nodeIds : list string)
    (links : list (string * string)) : Prop :=
  ∀ e, e ∈ links → e.1 ∈ nodeIds ∧ e.2 ∈ nodeIds.

(** The adjacency list of [u]: for each link in turn, its other end. *)
Definition neighbours (es : list (string * string)) (u : string)
  : list string :=
  flat_map (λ e : string * string,
              (if decide (e.1 = u) then [e.2] else [])
              ++ (if decide (e.2 = u) then [e.1] else [])) es.

(** What holds each time the search of the bridge test looks at its queue:
    the queue has no identifier twice and only visited ones; the visited
    identifiers are inside [U], contain the start [s] and are reachable
    from it; and the neighbours of a visited identifier that has left the
    queue are visited. *)
Definition search_inv (es : list (string * string)) (U : gset string)
    (s : string) (visited : gset string) (queue : list string) : Prop :=
  NoDup queue ∧ (∀ q, q ∈ queue → q ∈ visited) ∧ visited ⊆ U ∧
  s ∈ visited ∧ (∀ v, v ∈ visited → reach es s v) ∧
  (∀ u w, u ∈ visited → u ∉ queue → adjacent es u w → w ∈ visited).

(** [d] is the least number of links of a walk from a root to [v]. *)
Definition distance (es : list (string * string)) (roots : list string)
    (d : nat) (v : string) : Prop :=
  walk es roots d v ∧ ∀ m, walk es roots m v → (d ≤ m)%nat.

(** What holds each time the depth labelling looks at its frontier, [k]
    layers in: the labels are distances and at most [k]; the frontier is
    the set of identifiers labelled [k]; the neighbours of an identifier
    labelled less than [k] are labelled; the roots are labelled; and only
    nodes are labelled. *)
Definition depth_inv (es : list (string * string)) (nodeIds roots : list string)
    (k : nat) (depths : gmap string nat) (frontier : list string) : Prop :=
  (∀ v d, depths !! v = Some d → (d ≤ k)%nat ∧ distance es roots d v) ∧
  (∀ v, v ∈ frontier ↔ depths !! v = Some k) ∧
  (∀ u d w, depths !! u = Some d → (d < k)%nat → adjacent es u w →
            is_Some (depths !! w)) ∧
  (∀ r, r ∈ roots → is_Some (depths !! r)) ∧
  (∀ v, is_Some (depths !! v) → v ∈ nodeIds).

(** The links that remain when every link between [s] and [t] is left out. *)
Definition withoutPair (s t : string) (links : list (string * string))
  : list (string * string) :=
  filter (fun e => samePair s t e = false) links.

(** The six types of a stocked unit: one 'monster_treasure', one 'monster',
    one 'treasure', and three 'empty', one of which is 'special' instead
    when [oneSpecial] holds. *)
Definition stocked_ok (types : list RoomType) (oneSpecial : bool) : bool :=
  let n t := length (filter (fun t' => t' = t) types) in
  bool_decide (n monster_treasure = 1%nat ∧ n monster = 1%nat ∧
               n treasure = 1%nat ∧
               n empty = (if oneSpecial then 2 else 3)%nat ∧
               n special = (if oneSpecial then 1 else 0)%nat).

(** The character of ["-"]. *)
Definition hyphen : Ascii.ascii := Ascii.ascii_of_nat 45.

(** The text [x] has no hyphen. *)
Fixpoint nodash (x : string) : bool :=
  match x with
  | EmptyString => true
  | String c x' => negb (Ascii.eqb c hyphen) && nodash x'
  end.

(** An identifier of the form that [generateId] gives. *)
Definition roomId (i : string) : Prop :=
  ∃ x, i = "room-" +:+ x ∧ nodash x = true.

(** The identifiers that a call of the generator draws from [r]: the six
    [generateId()] calls come right after the layout draw. *)
Definition drawIds (seedLayout : option Z) : Rand (list string) :=
  _ ← match seedLayout with
      | Some k => ret k
      | None => randomInt 0 (Z.of_nat (length LAYOUTS) - 1)
      end;
  generateIds 6.

Definition drawnIds (seedLayout : option Z) (r : rng) : list string :=
  match drawIds seedLayout r with
  | Ok (nodeIds, _) => nodeIds
  | Err _ => []
  end.

(** The layout argument names a layout of the catalog, if it is given. *)
Definition validLayout (seedLayout : option Z) : Prop :=
  match seedLayout with
  | Some k => 0 ≤ k < Z.of_nat (length LAYOUTS)
  | None => True
  end.

(** A random source that replays the samples of [l], then zeros. *)
Definition rng_of (l : list Z) : rng := fun n => nth n l 0.

(** Samples with short base-36 texts: 1/2, 1/4, 3/4, 1/8, 3/8 and 5/8 read
    "0.i", "0.9", "0.r", "0.4i", "0.di" and "0.mi". *)
Definition SAMPLE_IDS : list Z :=
  [2 ^ 52; 2 ^ 51; 3 * 2 ^ 51; 2 ^ 50; 3 * 2 ^ 50; 5 * 2 ^ 50].

(** A random source for a call of the generator without a layout: the
    layout draw, the six identifiers, five shuffle draws, the coin, the two
    entrance draws, then the connection rolls. *)
Definition SAMPLE_RNG : rng :=
  rng_of ([0] ++ SAMPLE_IDS ++ [0; 0; 0; 0; 0] ++ [2 ^ 52] ++ [0; 0]).

(** The sample that the generator turns into [oneSpecial]: it comes after
    the layout draw (when no layout is given), the six identifiers and the
    five draws of the shuffle. *)
Definition coinSample (seedLayout : option Z) (r : rng) : Z :=
  r (match seedLayout with Some _ => 11 | None => 12 end)%nat `mod` RAND_DEN.

(** A random source for a call of the generator with a layout: the six
    identifiers, a shuffle that leaves every type in its place, a coin that
    asks for a 'special' room. *)
Definition COIN_RNG : rng :=
  let last := RAND_DEN - 1 in
  rng_of (SAMPLE_IDS ++ [last; last; last; last; last] ++ [0] ++ [0; 0]).

(** Position [i] is the first one that holds 'empty'. *)
Definition firstEmpty (types : list RoomType) (i : nat) : Prop :=
  types !! i = Some empty ∧ ∀ j, (j < i)%nat → types !! j ≠ Some empty.

(** A graph of two rooms in which the secret passage between "r" and "a"
    has its clue in "r". *)
Definition CLUE_GRAPH : GraphData :=
  mkGraph
    [mkNode "r" "Crypt" empty "A crypt." (Some true) None;
     mkNode "a" "Vault" treasure "A vault." None None]
    [mkLink "r" "a" secret (Some "behind the altar") (Some "r")].

(** A graph with a room whose identifier is the one that [SAMPLE_RNG] lets
    the generator draw first. *)
Definition TAKEN_GRAPH : GraphData :=
  mkGraph
    [mkNode "room-i" "Crypt" empty "A crypt." (Some true) None;
     mkNode "a" "Vault" treasure "A vault." None None]
    [mkLink "room-i" "a" open None None].

(** A square with one pendant link. *)
Definition SQUARE_NODES : list string := ["a"; "b"; "c"; "d"; "e"].

Definition SQUARE_LINKS : list (string * string) :=
  [("a", "b"); ("b", "c"); ("c", "d"); ("d", "a"); ("a", "e")].

(** Two rooms joined by two links. *)
Definition PARALLEL_LINKS : list (string * string) :=
  [("a", "b"); ("a", "b")].

(** ** Further notions *)

(** The text [x] is made of the characters 0-9 and a-z. *)
Fixpoint base36 (x : string) : bool :=
  match x with
  | EmptyString => true
  | String c x' =>
      bool_decide (String c EmptyString
                   ∈ (λ d, digit36 (Z.of_nat d)) <$> seq 0 36)
      && base36 x'
  end.

(** The number of rooms that are flagged as entrances. *)
Definition countEntrances (g : GraphData) : nat :=
  length (filter (λ n, entrance n = Some true) (nodes g)).

(** The key of a link. *)
Definition linkKey (l : DungeonLink) : string := norm (source l) (target l).

(** No link joins a room to itself, and no two links have the same key
    (hence there is at most one link between two rooms). *)
Definition simple_links (ls : list DungeonLink) : Prop :=
  Forall (λ l, source l ≠ target l) ls ∧ NoDup (linkKey <$> ls).

(** The ends of the links of a graph are rooms of the graph. *)
Definition closed_graph (g : GraphData) : Prop :=
  closed_links (node_ids g) (graph_edges g).

(** [{ ...u1, ...u2 }]: the updates of [u2] over those of [u1]. *)
Definition mergeNodeUpdates (u1 u2 : NodeUpdates) : NodeUpdates :=
  mkNodeUpdates
    (match new_label u2 with Some x => Some x | None => new_label u1 end)
    (match new_content u2 with Some x => Some x | None => new_content u1 end)
    (match new_entrance u2 with Some x => Some x | None => new_entrance u1 end).

Definition mergeLinkUpdates (u1 u2 : LinkUpdates) : LinkUpdates :=
  mkLinkUpdates
    (match new_connectionType u2 with
     | Some x => Some x | None => new_connectionType u1 end)
    (match new_description u2 with
     | Some x => Some x | None => new_description u1 end)
    (match new_clueRoomId u2 with
     | Some x => Some x | None => new_clueRoomId u1 end).

(** A room and a link used in examples. *)
Definition SAMPLE_ROOM : DungeonNode :=
  mkNode "room-hall" "Hall" empty "A hall." (Some true) None.

Definition SAMPLE_GRAPH : GraphData :=
  mkGraph
    [SAMPLE_ROOM; mkNode "room-cellar" "Cellar" monster "A cellar." None None]
    [mkLink "room-cellar" "room-hall" closed None None].

(** ** graphUtils.ts: the connections of a room *)

Module ConnectionInfo.
Record t := mk {
  otherNode : DungeonNode;
  connectionType : ConnectionType;
  description : option string;
  clueRoomId : option string;
}.
End ConnectionInfo.

(** [n.label || n.id]: the identifier stands in for an empty label. *)
Definition labelOrId (n : DungeonNode) : string :=
  match label n with
  | EmptyString => id n
  | _ => label n
  end.

(** The body of the loop over the links: the entry that a link adds to the
    list, if it adds one. *)
Definition connectionOf (graphData : GraphData) (nodeId : string)
    (link : DungeonLink) : option ConnectionInfo.t :=
  if decide (source link ≠ nodeId ∧ target link ≠ nodeId) then None
  else
    let otherId :=
      if decide (source link = nodeId) then target link else source link in
    match findNode graphData otherId with
    | None => None
    | Some otherNode =>
        Some (ConnectionInfo.mk otherNode (connectionType link)
                (description link) (clueRoomId link))
    end.

Section Sorting.
(** [Array.prototype.sort] with a comparator and
    [String.prototype.localeCompare] are the engine's. *)
Variable sort : ∀ A : Type, (A → A → Z) → list A → list A.
Variable localeCompare : string → string → Z.

Definition getConnectionsForNode (graphData : GraphData) (nodeId : string)
  : list ConnectionInfo.t :=
  let result :=
    foldl (λ result link,
             match connectionOf graphData nodeId link with
             | None => result
             | Some info => result ++ [info]
             end) [] (links graphData) in
  sort _ (λ a b, localeCompare (labelOrId (ConnectionInfo.otherNode a))
                   (labelOrId (ConnectionInfo.otherNode b))) result.
End Sorting.

(** ** DungeonGraph.tsx: what the component hands to the layout *)

Module Force.
Record Node := mkNode {
  id : string;
  label : string;
  roomType : RoomType;
  entrance : option bool;
}.
Record Link := mkLink {
  source : string;
  target : string;
  connectionType : ConnectionType;
  clueRoomId : option string;
}.
End Force.

(** [new Set(ids)], iterated: each identifier once, in the order of the
    first occurrences. *)
Definition newSet (ids : list string) : list string :=
  foldl (λ set i, if decide (i ∈ set) then set else set ++ [i]) [] ids.

(** [graphData.nodes.filter((n) => n.entrance).map((n) => n.id)]. *)
Definition entranceIdsOf (graphData : GraphData) : list string :=
  id <$> filter (λ n, entrance n = Some true) (nodes graphData).

(** The link of the tree layout for the link [l]: it starts at the end
    with the smaller depth, at the smaller identifier when the depths are
    equal, and takes its type and clue from the first link between the two
    rooms. *)
Definition orient (graphData : GraphData) (depths : gmap string nat)
    (l : DungeonLink) : result Force.Link :=
  let s := source l in
  let t := target l in
  let dS := default 0%nat (depths !! s) in
  let dT := default 0%nat (depths !! t) in
  let source0 :=
    if (dS <? dT)%nat then s
    else if (dT <? dS)%nat then t
    else if String.ltb s t then s else t in
  let target0 := if decide (source0 = s) then t else s in
  match list_find (λ e, (source e = source l ∧ target e = target l)
                        ∨ (source e = target l ∧ target e = source l))
          (links graphData) with
  | None => Err TypeError
  | Some (_, link) =>
      Ok (Force.mkLink source0 target0 (connectionType link)
            (clueRoomId link))
  end.

(** The links in order, up to the first one that throws. *)
Fixpoint orientAll (graphData : GraphData) (depths : gmap string nat)
    (ls : list DungeonLink) : result (list Force.Link) :=
  match ls with
  | [] => Ok []
  | l :: ls' =>
      link ← orient graphData depths l;
      rest ← orientAll graphData depths ls';
      mret (link :: rest)
  end.

Definition graphDataForForce (fuel : nat) (isTree : bool)
    (graphData : GraphData) : result (list Force.Node * list Force.Link) :=
  let entranceIds := entranceIdsOf graphData in
  let nodeIds := newSet (node_ids graphData) in
  let nodes0 :=
    (λ n, Force.mkNode (id n) (label n) (roomType n) (entrance n))
      <$> nodes graphData in
  let links0 :=
    (λ l, Force.mkLink (source l) (target l) (connectionType l)
            (clueRoomId l)) <$> links graphData in
  if isTree && negb (length nodeIds =? 0)%nat then
    depths ← getDepthsFromEntrances fuel nodeIds (graph_edges graphData)
               entranceIds;
    links1 ← orientAll graphData depths (links graphData);
    mret (nodes0, links1)
  else Ok (nodes0, links0).

(** A stable sort and the order of the code units, used in examples. *)
Fixpoint insertBy {A} (cmp : A → A → Z) (x : A) (l : list A) : list A :=
  match l with
  | [] => [x]
  | y :: l' => if cmp x y <=? 0 then x :: y :: l' else y :: insertBy cmp x l'
  end.

Definition stableSort (A : Type) (cmp : A → A → Z) (l : list A) : list A :=
  foldr (insertBy cmp) [] l.

Definition codeUnitCompare (a b : string) : Z :=
  match String.compare a b with
  | Lt => -1
  | Eq => 0
  | Gt => 1
  end.

(** The end at which the tree layout lets a link between [s] and [t]
    start. *)
Definition nearerEnd (depths : gmap string nat) (s t : string) : string :=
  let dS := default 0%nat (depths !! s) in
  let dT := default 0%nat (depths !! t) in
  if (dS <? dT)%nat then s
  else if (dT <? dS)%nat then t
  else if String.ltb s t then s else t.

(** The depth that the tree layout reads for a room: 0 when the room has
    no label. *)
Definition depthOf (depths : gmap string nat) (v : string) : nat :=
  default 0%nat (depths !! v).

(** The memo [bridgeLinkKeys] of the component: no keys in tree mode. *)
Definition bridgeLinkKeys (fuel : nat) (isTree : bool) (graphData : GraphData)
  : result (gset string) :=
  if isTree then Ok ∅
  else
    let nodeIds := newSet (node_ids graphData) in
    getBridgeLinkKeys fuel nodeIds (graph_edges graphData).

(** The edges that remain when every edge between [s] and [t] is left out,
    for any kind of vertex. *)
Definition offPair {V} `{!EqDecision V} (s t : V) (es : list (V * V))
  : list (V * V) :=
  filter (λ e, ¬ ((e.1 = s ∧ e.2 = t) ∨ (e.1 = t ∧ e.2 = s))) es.

(** No edge has exactly one end in [seen]. *)
Definition sealed {V} `{!EqDecision V} (es : list (V * V)) (seen : list V)
  : bool :=
  forallb (λ e, bool_decide (e.1 ∈ seen ↔ e.2 ∈ seen)) es.

(** A check on a layout and a trail: once an edge of the trail is left
    out, its ends are still joined; once another edge is left out, its
    ends are in different parts. *)
Definition offTrailBridges (layout : list (nat * nat))
    (trail : list (nat * bool)) : bool :=
  forallb (λ ie : nat * (nat * nat),
             let rest := offPair ie.2.1 ie.2.2 layout in
             let seen := closure 6 rest [ie.2.1] in
             if bool_decide (ie.1 ∈ trail.*1)
             then bool_decide (ie.2.2 ∈ seen)
             else sealed rest seen && negb (bool_decide (ie.2.2 ∈ seen)))
    (imap pair layout).

(** * Properties *)
(** ** The random source *)

Lemma bind_Ok {A B} (m : Rand A) (k : A → Rand B) r b r' :
  (m ≫= k) r = Ok (b, r') →
  ∃ a r1, m r = Ok (a, r1) ∧ k a r1 = Ok (b, r').
Proof.
  unfold mbind, Rand_bind. destruct (m r) as [[a r1]|e]; [|done].
  intros H. by exists a, r1.
Qed.

Lemma ret_Ok {A} (a b : A) r r' : ret a r = Ok (b, r') → a = b ∧ r = r'.
Proof. unfold ret, mret, Rand_ret. by intros [= -> ->]. Qed.

Lemma Math_random_Ok r u r' :
  Math_random r = Ok (u, r') →
  0 ≤ u < RAND_DEN ∧ r' = (fun n => r (S n)).
Proof.
  unfold Math_random. intros [= <- <-]. split; [|done].
  apply Z.mod_pos_bound. by compute.
Qed.

Lemma roundTo_cases e m :
  0 < e → 0 ≤ m →
  ∃ P q rem, P = 2 ^ e ∧ 0 < P ∧ 2 * 2 ^ (e - 1) = P ∧
    m = q * P + rem ∧ 0 ≤ rem < P ∧ 0 ≤ q ∧
    q = m `div` 2 ^ e ∧ rem = m `mod` 2 ^ e ∧
    ((roundTo e m = q * P ∧ 2 * rem ≤ P
      ∧ (2 * rem = P → Z.odd q = false))
     ∨ (roundTo e m = (q + 1) * P ∧ P ≤ 2 * rem
        ∧ (2 * rem = P → Z.odd q = true))).
Proof.
  intros He Hm.
  assert (0 < 2 ^ e) as HP by (apply Z.pow_pos_nonneg; lia).
  assert (2 * 2 ^ (e - 1) = 2 ^ e) as Hhalf.
  { rewrite <- Z.pow_succ_r by lia. f_equal. lia. }
  exists (2 ^ e), (m `div` 2 ^ e), (m `mod` 2 ^ e).
  pose proof (Z.div_mod m (2 ^ e)) as Hdm.
  pose proof (Z.mod_pos_bound m (2 ^ e) HP) as Hrem.
  assert (0 ≤ m `div` 2 ^ e) as Hq by (apply Z.div_pos; lia).
  split_and!; try done; try lia.
  unfold roundTo. cbn zeta.
  destruct (Z.ltb_spec (2 ^ (e - 1)) (m `mod` 2 ^ e)) as [Hlt|Hge]; cbn [orb].
  - right. split_and!; [done|lia|lia].
  - destruct (Z.eqb_spec (m `mod` 2 ^ e) (2 ^ (e - 1))) as [Heq|Hne];
      cbn [andb].
    + destruct (Z.odd (m `div` 2 ^ e)) eqn:Hodd.
      * right. split_and!; [done|lia|done].
      * left. split_and!; [done|lia|done].
    + left. split_and!; [done|lia|lia].
Qed.

Lemma roundTo_near e m :
  0 < e → 0 ≤ m →
  m - 2 ^ (e - 1) ≤ roundTo e m ≤ m + 2 ^ (e - 1).
Proof.
  intros He Hm.
  destruct (roundTo_cases e m He Hm)
    as (P & q & rem & -> & HP & Hhalf & Hmq & Hrem & Hq & _ & _ & Hcase).
  destruct Hcase as [(-> & H1 & _)|(-> & H1 & _)]; nia.
Qed.

(** A multiple of [2^e] below [m] is below the rounded [m], and one above
    is above. *)
Lemma roundTo_grid e m c :
  0 < e → 0 ≤ m →
  (c * 2 ^ e ≤ m → c * 2 ^ e ≤ roundTo e m) ∧
  (m ≤ c * 2 ^ e → roundTo e m ≤ c * 2 ^ e).
Proof.
  intros He Hm.
  destruct (roundTo_cases e m He Hm)
    as (P & q & rem & -> & HP & Hhalf & Hmq & Hrem & Hq & _ & _ & Hcase).
  split; intros Hc.
  - assert (c ≤ q) by nia.
    destruct Hcase as [(-> & _)|(-> & _)]; nia.
  - destruct Hcase as [(-> & _)|(-> & H1 & _)]; [nia|].
    assert (q < c) by nia. nia.
Qed.

Lemma roundTo_mono e m1 m2 :
  0 < e → 0 ≤ m1 ≤ m2 → roundTo e m1 ≤ roundTo e m2.
Proof.
  intros He [Hm1 Hle].
  destruct (roundTo_cases e m1 He Hm1)
    as (P & q1 & rem1 & HPe & HP & Hhalf & Hmq1 & Hrem1 & Hq1 & _ & _ & Hc1).
  destruct (roundTo_cases e m2 He ltac:(lia))
    as (P' & q2 & rem2 & HPe' & _ & _ & Hmq2 & Hrem2 & Hq2 & _ & _ & Hc2).
  subst P'. rewrite <- HPe in *.
  assert (q1 ≤ q2) as Hq by nia.
  destruct (Z.eq_dec q1 q2) as [->|Hne].
  - assert (rem1 ≤ rem2) by nia.
    destruct Hc1 as [(-> & H1 & T1)|(-> & H1 & T1)],
             Hc2 as [(-> & H2 & T2)|(-> & H2 & T2)]; try nia.
    assert (2 * rem1 = P) as E1 by lia.
    assert (2 * rem2 = P) as E2 by lia.
    specialize (T1 E1). specialize (T2 E2). congruence.
  - assert (q1 + 1 ≤ q2) by lia.
    destruct Hc1 as [(-> & _)|(-> & _)], Hc2 as [(-> & _)|(-> & _)]; nia.
Qed.

Lemma round53_small m : 0 ≤ m < 2 ^ 53 → round53 m = m.
Proof.
  intros [Hm Hlt]. unfold round53. cbn zeta.
  destruct (Z.leb_spec (Z.log2 m - 52) 0) as [|Hgt]; [done|].
  exfalso. destruct (Z.eq_dec m 0) as [->|Hne]; [by compute in Hgt|].
  assert (Z.log2 m < 53); [|lia]. apply Z.log2_lt_pow2; lia.
Qed.

(** What [round53] does to an integer of more than 53 bits. *)
Lemma round53_large m :
  2 ^ 53 ≤ m →
  ∃ e, 0 < e ∧ 2 ^ 53 * 2 ^ (e - 1) ≤ m ∧ m < 2 ^ 53 * 2 ^ e ∧
       round53 m = roundTo e m.
Proof.
  intros Hm. exists (Z.log2 m - 52).
  assert (53 ≤ Z.log2 m) as Hlog by (apply Z.log2_le_pow2; lia).
  destruct (Z.log2_spec m) as [Hlo Hhi]; [lia|].
  split_and!.
  - lia.
  - rewrite <- Z.pow_add_r by lia.
    replace (53 + (Z.log2 m - 52 - 1)) with (Z.log2 m) by lia. done.
  - rewrite <- Z.pow_add_r by lia.
    replace (53 + (Z.log2 m - 52)) with (Z.succ (Z.log2 m)) by lia. done.
  - unfold round53. cbn zeta.
    destruct (Z.leb_spec (Z.log2 m - 52) 0); [lia|done].
Qed.

Lemma round53_near m :
  0 ≤ m → ∃ h, 0 ≤ h ∧ 2 ^ 53 * h ≤ m ∧ m - h ≤ round53 m ≤ m + h.
Proof.
  intros Hm. destruct (Z.lt_ge_cases m (2 ^ 53)) as [Hlt|Hge].
  - exists 0. rewrite round53_small by lia. lia.
  - destruct (round53_large m Hge) as (e & He & Hlo & Hhi & ->).
    exists (2 ^ (e - 1)). pose proof (roundTo_near e m He Hm).
    assert (0 < 2 ^ (e - 1)) by (apply Z.pow_pos_nonneg; lia). lia.
Qed.

Lemma round53_mono m1 m2 : 0 ≤ m1 ≤ m2 → round53 m1 ≤ round53 m2.
Proof.
  intros [Hm1 Hle].
  destruct (Z.lt_ge_cases m2 (2 ^ 53)) as [Hlt2|Hge2].
  { rewrite !round53_small by lia. done. }
  destruct (round53_large m2 Hge2) as (e2 & He2 & Hlo2 & Hhi2 & Hr2).
  assert (0 < 2 ^ (e2 - 1)) as Hp2 by (apply Z.pow_pos_nonneg; lia).
  assert (2 * 2 ^ (e2 - 1) = 2 ^ e2) as Hhalf2.
  { rewrite <- Z.pow_succ_r by lia. f_equal. lia. }
  (* the rounded [m2] is at least the power of two below it *)
  assert (2 ^ 53 * 2 ^ (e2 - 1) ≤ round53 m2) as Hfloor2.
  { rewrite Hr2.
    replace (2 ^ 53 * 2 ^ (e2 - 1)) with (2 ^ 52 * 2 ^ e2)
      by (rewrite <- Hhalf2; change (2 ^ 53) with (2 * 2 ^ 52); ring).
    apply roundTo_grid; [lia..|].
    rewrite <- Hhalf2. change (2 ^ 53) with (2 * 2 ^ 52) in Hlo2. lia. }
  destruct (Z.lt_ge_cases m1 (2 ^ 53)) as [Hlt1|Hge1].
  { rewrite (round53_small m1) by lia. lia. }
  destruct (round53_large m1 Hge1) as (e1 & He1 & Hlo1 & Hhi1 & Hr1).
  destruct (Z.lt_trichotomy e1 e2) as [Hlt|[->|Hgt]].
  - (* the rounded [m1] is at most the power of two above it *)
    assert (round53 m1 ≤ 2 ^ 53 * 2 ^ e1) as Hceil1.
    { rewrite Hr1. apply roundTo_grid; lia. }
    assert (2 ^ e1 ≤ 2 ^ (e2 - 1)) by (apply Z.pow_le_mono_r; lia).
    nia.
  - rewrite Hr1, Hr2. apply roundTo_mono; lia.
  - exfalso. assert (2 ^ e2 ≤ 2 ^ (e1 - 1)) by (apply Z.pow_le_mono_r; lia).
    nia.
Qed.

(** A multiple of [2^53] with a factor of at most 53 bits is a double. *)
Lemma round53_scaled k : 0 ≤ k < 2 ^ 53 → round53 (k * 2 ^ 53) = k * 2 ^ 53.
Proof.
  intros [Hk Hlt]. destruct (Z.eq_dec k 0) as [->|Hne]; [done|].
  destruct (round53_large (k * 2 ^ 53)) as (e & He & Hlo & Hhi & ->); [lia|].
  assert (e ≤ 53) as He53.
  { destruct (Z.le_gt_cases e 53) as [|Hgt]; [done|exfalso].
    assert (2 ^ 53 ≤ 2 ^ (e - 1)) by (apply Z.pow_le_mono_r; lia). nia. }
  assert (2 ^ 53 = 2 ^ (53 - e) * 2 ^ e) as Hsplit.
  { rewrite <- Z.pow_add_r by lia. f_equal. lia. }
  assert (k * 2 ^ 53 = k * 2 ^ (53 - e) * 2 ^ e) as Heq.
  { rewrite Hsplit at 1. ring. }
  pose proof (roundTo_grid e (k * 2 ^ 53) (k * 2 ^ (53 - e)) He ltac:(lia))
    as [G1 G2].
  lia.
Qed.

Lemma floorMul_nonneg u n :
  0 ≤ u → 0 ≤ n → floorMul u n = round53 (u * n) `div` RAND_DEN.
Proof.
  intros Hu Hn. unfold floorMul. cbn zeta.
  assert (0 ≤ u * n) as Hm by nia.
  rewrite (Z.abs_eq _ Hm).
  destruct (Z.eq_dec (u * n) 0) as [->|Hne]; [done|].
  rewrite Z.sgn_pos by lia. by rewrite Z.mul_1_l.
Qed.

Lemma floorMul_bounds u n :
  0 ≤ u < RAND_DEN → 0 < n → 0 ≤ floorMul u n < n.
Proof.
  intros Hu Hn. rewrite floorMul_nonneg by lia.
  assert (RAND_DEN = 2 ^ 53) as HD by reflexivity.
  assert (0 < RAND_DEN) by (by compute).
  destruct (round53_near (u * n)) as (h & Hh & Hlo & Hnear); [nia|].
  rewrite <- HD in Hlo.
  assert (h < n) by nia.
  split.
  - apply Z.div_pos; nia.
  - apply Z.div_lt_upper_bound; nia.
Qed.

Lemma floorMul_mono u1 u2 n :
  0 ≤ u1 ≤ u2 → 0 ≤ n → floorMul u1 n ≤ floorMul u2 n.
Proof.
  intros Hu Hn. rewrite !floorMul_nonneg by lia.
  apply Z.div_le_mono; [by compute|]. apply round53_mono. nia.
Qed.

(** The floor is below [k] for a product below [k], and at least [k] from
    [k] on, for [k] of at most 53 bits. *)
Lemma floorMul_ge u n k :
  0 ≤ u → 0 ≤ n → 0 ≤ k < RAND_DEN → k * RAND_DEN ≤ u * n →
  k ≤ floorMul u n.
Proof.
  intros Hu Hn Hk Hle. rewrite floorMul_nonneg by lia.
  apply Z.div_le_lower_bound; [by compute|].
  rewrite Z.mul_comm. change RAND_DEN with (2 ^ 53) in *.
  rewrite <- (round53_scaled k) by lia. apply round53_mono. nia.
Qed.

Lemma floorMul_exact u n :
  0 ≤ u → 0 ≤ n → u * n < RAND_DEN → floorMul u n = 0.
Proof.
  intros Hu Hn Hlt. rewrite floorMul_nonneg by lia.
  rewrite round53_small by (change RAND_DEN with (2 ^ 53) in Hlt; nia).
  apply Z.div_small. nia.
Qed.

Lemma floorMul_top n :
  0 < n ≤ RAND_DEN → floorMul (RAND_DEN - 1) n = n - 1.
Proof.
  intros Hn. assert (0 < RAND_DEN) by (by compute).
  apply Z.le_antisymm.
  - pose proof (floorMul_bounds (RAND_DEN - 1) n). lia.
  - apply floorMul_ge; nia.
Qed.

Lemma randomInt_Ok lo hi r k r' :
  lo ≤ hi → randomInt lo hi r = Ok (k, r') → lo ≤ k ≤ hi.
Proof.
  intros Hle H. unfold randomInt in H.
  apply bind_Ok in H as (u & r1 & Hu & H).
  apply Math_random_Ok in Hu as [Hu _].
  apply ret_Ok in H as [<- _].
  pose proof (floorMul_bounds u (hi - lo + 1) Hu). lia.
Qed.

(** ** The connection roller *)

Lemma randomConnectionType_Ok r :
  ∃ roll, 0 ≤ roll < 1000 ∧
    randomConnectionType r
    = Ok (connectionTypeOfRoll roll, fun n => r (S n)).
Proof.
  exists (floorMul (r 0%nat `mod` RAND_DEN) 1000). split; [|done].
  apply floorMul_bounds; [|lia]. apply Z.mod_pos_bound. by compute.
Qed.

Lemma rollCut_checked :
  forallb (λ k, (floorMul (rollCut k - 1) 1000 =? k - 1)
                && (floorMul (rollCut k) 1000 =? k)
                && (0 <? rollCut k) && (rollCut k <? RAND_DEN))
    (seqZ 1 999) = true.
Proof. vm_compute. reflexivity. Qed.

(** The roll is below [j] exactly for the samples below [rollCut j]. *)
Lemma roll_lt_cut u j :
  0 ≤ u < RAND_DEN → 0 ≤ j ≤ 1000 →
  floorMul u 1000 < j ↔ u < rollCut j.
Proof.
  intros Hu Hj.
  pose proof (floorMul_bounds u 1000 Hu ltac:(lia)) as Hroll.
  destruct (Z.eq_dec j 0) as [->|H0]; [change (rollCut 0) with 0; lia|].
  destruct (Z.eq_dec j 1000) as [->|H1000];
    [change (rollCut 1000) with RAND_DEN; lia|].
  pose proof rollCut_checked as Hall. rewrite forallb_forall in Hall.
  assert (In j (seqZ 1 999)) as Hin.
  { apply list_elem_of_In, elem_of_seqZ. lia. }
  apply Hall in Hin.
  rewrite !andb_true_iff, !Z.eqb_eq, !Z.ltb_lt in Hin.
  destruct Hin as [[[Hbelow Hat] Hpos] Hlt]. split.
  - intros Hr. destruct (Z.lt_ge_cases u (rollCut j)) as [|Hge]; [done|].
    pose proof (floorMul_mono (rollCut j) u 1000). lia.
  - intros Hlow. pose proof (floorMul_mono u (rollCut j - 1) 1000). lia.
Qed.

Lemma connectionTypeOfRoll_range roll c :
  0 ≤ roll < 1000 →
  connectionTypeOfRoll roll = c
  ↔ (rollRange c).1 ≤ roll < (rollRange c).2.
Proof.
  intros Hroll. unfold connectionTypeOfRoll.
  destruct (Z.ltb_spec roll 447); [destruct c; cbn; split; (done || lia)|].
  destruct (Z.ltb_spec roll 670); [destruct c; cbn; split; (done || lia)|].
  destruct (Z.ltb_spec roll 780); [destruct c; cbn; split; (done || lia)|].
  destruct (Z.ltb_spec roll 890); destruct c; cbn; split; (done || lia).
Qed.

(** C9. Every call of [randomConnectionType] reads one sample [u / 2^53],
    leaves the other samples to the later calls, and returns the category
    of the roll [Math.floor(u / 2^53 * 1000)], the product being rounded as
    a double. The roll is a number in 0..999, a larger sample never gives a
    smaller roll, and each roll [k] comes from the samples from [rollCut k]
    up to [rollCut (k + 1)], which are a thousandth of all 2^53 samples,
    rounded down or up: over a uniform sample the roll is uniform. Over a
    uniform roll the five categories have the probabilities 447/1000,
    223/1000, 110/1000, 110/1000 and 110/1000, which sum to 1 and lie
    within half a percentage point of 45%, 22%, 11%, 11% and 11%; over a
    uniform sample each category has the samples of an interval whose
    share of the 2^53 samples differs from that probability by less than
    2 / 2^53. *)
Theorem randomConnectionType_distribution :
  rollCount open = 447%nat ∧ rollCount closed = 223%nat ∧
  rollCount trapped = 110%nat ∧ rollCount hazardous = 110%nat ∧
  rollCount secret = 110%nat ∧
  (rollCount open + rollCount closed + rollCount trapped
   + rollCount hazardous + rollCount secret = 1000)%nat ∧
  (∀ c pct, (c, pct) ∈ [(open, 45); (closed, 22); (trapped, 11);
                         (hazardous, 11); (secret, 11)] →
     Z.abs (Z.of_nat (rollCount c) * 100 - pct * 1000) ≤ 500) ∧
  (∀ r, randomConnectionType r
        = Ok (connectionTypeOfRoll (floorMul (r 0%nat `mod` RAND_DEN) 1000),
              fun n => r (S n))) ∧
  (∀ u, 0 ≤ u < RAND_DEN → 0 ≤ floorMul u 1000 < 1000) ∧
  (∀ u1 u2, 0 ≤ u1 ≤ u2 → floorMul u1 1000 ≤ floorMul u2 1000) ∧
  (∀ u k, 0 ≤ u < RAND_DEN → 0 ≤ k < 1000 →
     floorMul u 1000 = k ↔ rollCut k ≤ u < rollCut (k + 1)) ∧
  (∀ k, 0 ≤ k < 1000 →
     rollCut (k + 1) - rollCut k = RAND_DEN `div` 1000
     ∨ rollCut (k + 1) - rollCut k = RAND_DEN `div` 1000 + 1) ∧
  (∀ u c, 0 ≤ u < RAND_DEN →
     connectionTypeOfRoll (floorMul u 1000) = c
     ↔ rollCut (rollRange c).1 ≤ u < rollCut (rollRange c).2) ∧
  (∀ c, (rollRange c).2 - (rollRange c).1 = Z.of_nat (rollCount c) ∧
        Z.abs ((rollCut (rollRange c).2 - rollCut (rollRange c).1) * 1000
               - Z.of_nat (rollCount c) * RAND_DEN) < 2000).
Proof.
  assert (Ho : rollCount open = 447%nat) by (vm_compute; reflexivity).
  assert (Hc : rollCount closed = 223%nat) by (vm_compute; reflexivity).
  assert (Ht : rollCount trapped = 110%nat) by (vm_compute; reflexivity).
  assert (Hh : rollCount hazardous = 110%nat) by (vm_compute; reflexivity).
  assert (Hs : rollCount secret = 110%nat) by (vm_compute; reflexivity).
  do 5 (split; [assumption|]).
  split; [rewrite Ho, Hc, Ht, Hh, Hs; reflexivity|].
  split.
  { intros c pct Hin. rewrite !elem_of_cons in Hin.
    destruct Hin as [Hin|[Hin|[Hin|[Hin|[Hin|Hin]]]]];
      [injection Hin as -> ->; rewrite ?Ho, ?Hc, ?Ht, ?Hh, ?Hs; lia..|].
    exfalso. revert Hin. apply not_elem_of_nil. }
  split; [reflexivity|].
  split; [intros u Hu; apply floorMul_bounds; lia|].
  split; [intros u1 u2 Hu; apply floorMul_mono; lia|].
  assert (Hcut : ∀ u j, 0 ≤ u < RAND_DEN → 0 ≤ j ≤ 1000 →
            rollCut j ≤ u ↔ j ≤ floorMul u 1000).
  { intros u j Hu Hj. pose proof (roll_lt_cut u j Hu Hj). lia. }
  split_and!.
  - intros u k Hu Hk.
    pose proof (Hcut u k Hu ltac:(lia)).
    pose proof (roll_lt_cut u (k + 1) Hu ltac:(lia)). lia.
  - intros k Hk.
    assert (forallb (λ k, (rollCut (k + 1) - rollCut k =? RAND_DEN `div` 1000)
                          || (rollCut (k + 1) - rollCut k
                              =? RAND_DEN `div` 1000 + 1))
              (seqZ 0 1000) = true) as Hall by (vm_compute; reflexivity).
    rewrite forallb_forall in Hall. specialize (Hall k).
    assert (In k (seqZ 0 1000)) as Hin.
    { apply list_elem_of_In, elem_of_seqZ. lia. }
    apply Hall in Hin. rewrite orb_true_iff, !Z.eqb_eq in Hin. exact Hin.
  - intros u c Hu.
    pose proof (floorMul_bounds u 1000 Hu ltac:(lia)) as Hroll.
    rewrite (connectionTypeOfRoll_range _ c Hroll).
    assert (0 ≤ (rollRange c).1 ≤ 1000 ∧ 0 ≤ (rollRange c).2 ≤ 1000)
      as [H1 H2] by (destruct c; cbn; lia).
    pose proof (Hcut u _ Hu H1).
    pose proof (roll_lt_cut u _ Hu H2). lia.
  - intros c. destruct c; rewrite ?Ho, ?Hc, ?Ht, ?Hh, ?Hs;
      (split; [reflexivity|]); apply Z.ltb_lt; vm_compute; reflexivity.
Qed.

(** ** The normalised key of a pair *)

Lemma ltb_irrefl a : String.ltb a a = false.
Proof.
  unfold String.ltb. destruct (String.compare a a) eqn:E; try done.
  pose proof (String.compare_antisym a a) as H. rewrite E in H. discriminate H.
Qed.

Lemma norm_comm a b : norm a b = norm b a.
Proof.
  unfold norm, String.ltb.
  rewrite (String.compare_antisym a b).
  destruct (String.compare b a) eqn:E; simpl; try done.
  apply String.compare_eq_iff in E. by subst.
Qed.

(** ** addEdge *)

Lemma existsb_norm_self ls a b t :
  existsb (fun l => bool_decide (norm (source l) (target l) = norm a b))
    (ls ++ [mkLink a b t None None]) = true.
Proof.
  rewrite existsb_app. apply orb_true_iff. right. simpl.
  by rewrite bool_decide_eq_true_2.
Qed.

Lemma addEdge_self g a t : addEdge g a a t = g.
Proof. unfold addEdge. by rewrite decide_True. Qed.

Lemma addEdge_present g a b t :
  existsb (fun l => bool_decide (norm (source l) (target l) = norm a b))
    (links g) = true →
  addEdge g a b t = g.
Proof. intros H. unfold addEdge. rewrite H. by case_decide. Qed.

Lemma addEdge_new g a b t :
  a ≠ b →
  existsb (fun l => bool_decide (norm (source l) (target l) = norm a b))
    (links g) = false →
  addEdge g a b t
  = mkGraph (nodes g) (links g ++ [mkLink a b t None None]).
Proof. intros Hne H. unfold addEdge. rewrite H. by rewrite decide_False. Qed.

Lemma addEdge_again g a b t c d t' :
  (c = a ∧ d = b) ∨ (c = b ∧ d = a) →
  addEdge (addEdge g a b t) c d t' = addEdge g a b t.
Proof.
  intros Hcd.
  assert (Hk : norm c d = norm a b).
  { destruct Hcd as [[-> ->]|[-> ->]]; [done|apply norm_comm]. }
  destruct (decide (a = b)) as [->|Hab].
  - rewrite addEdge_self.
    destruct Hcd as [[-> ->]|[-> ->]]; apply addEdge_self.
  - destruct (existsb (fun l => bool_decide
                (norm (source l) (target l) = norm a b)) (links g)) eqn:Hex.
    + rewrite (addEdge_present g a b t Hex).
      apply addEdge_present. rewrite Hk. exact Hex.
    + rewrite (addEdge_new g a b t Hab Hex).
      apply addEdge_present. rewrite Hk. simpl. apply existsb_norm_self.
Qed.

(** C8. Adding the same unordered pair a second time, in either direction
    and with any connection type, changes nothing, and adding a
    self-connection changes nothing. *)
Theorem addEdge_idempotent g a b t t' :
  addEdge (addEdge g a b t) a b t' = addEdge g a b t ∧
  addEdge (addEdge g a b t) b a t' = addEdge g a b t ∧
  addEdge g a a t = g.
Proof.
  split_and!.
  - apply addEdge_again. by left.
  - apply addEdge_again. by right.
  - apply addEdge_self.
Qed.

(** Settles a decidable statement about concrete data by evaluating its
    decision procedure. *)
Ltac by_computation :=
  apply (bool_decide_eq_true_1 _); vm_compute; reflexivity.

(** ** Identifiers that are not in the graph *)

Lemma findNode_None g nodeId :
  nodeId ∉ node_ids g → findNode g nodeId = None.
Proof.
  unfold findNode, node_ids. induction (nodes g) as [|n ns IH]; [done|].
  rewrite fmap_cons, not_elem_of_cons. intros [Hne Hns]. simpl.
  rewrite bool_decide_eq_false_2 by done. by apply IH.
Qed.

Lemma findNode_Some g nodeId node :
  findNode g nodeId = Some node → node ∈ nodes g ∧ id node = nodeId.
Proof.
  unfold findNode. intros H. apply find_some in H as [Hin Hid].
  split; [by apply list_elem_of_In|]. by apply bool_decide_eq_true in Hid.
Qed.

Lemma updateNode_absent g nodeId updates :
  nodeId ∉ node_ids g → updateNode g nodeId updates = g.
Proof.
  unfold updateNode, node_ids. destruct g as [ns ls]. simpl. intros H. f_equal.
  induction ns as [|n ns IH]; [done|].
  rewrite fmap_cons, not_elem_of_cons in H. destruct H as [Hne Hns].
  rewrite fmap_cons, IH by done. by rewrite decide_False.
Qed.

Lemma updateEdge_absent g s t updates :
  (∀ l, l ∈ links g → norm (source l) (target l) ≠ norm s t) →
  updateEdge g s t updates = g.
Proof.
  unfold updateEdge. destruct g as [ns ls]. simpl. intros H. f_equal.
  induction ls as [|l ls IH]; [done|].
  rewrite fmap_cons, IH.
  - rewrite decide_False; [done|]. apply H. by left.
  - intros l' Hl'. apply H. by right.
Qed.

Lemma attachDungeon_absent g nodeId r :
  nodeId ∉ node_ids g → attachDungeon g nodeId r = Ok (g, r).
Proof. intros H. unfold attachDungeon. by rewrite findNode_None. Qed.

Lemma replaceNodeWithDungeon_absent g nodeId r :
  nodeId ∉ node_ids g →
  replaceNodeWithDungeon g nodeId r = Ok ((g, nodeId), r).
Proof. intros H. unfold replaceNodeWithDungeon. by rewrite findNode_None. Qed.

(** C4. [addEdge] does not look at the rooms of the graph: asked to connect
    the room "a" to the identifier "ghost", which no room has, it returns a
    graph with a new link one end of which is not a room, where an
    identifier that is not in the graph should leave the graph unchanged. *)
Theorem addEdge_absent_room :
  let g := mkGraph [mkNode "a" "Room 1" empty "A room." None None] [] in
  ("ghost" ∉ node_ids g) ∧
  addEdge g "a" "ghost" open
  = mkGraph (nodes g) [mkLink "a" "ghost" open None None] ∧
  addEdge g "a" "ghost" open ≠ g ∧
  ¬ (∀ l, l ∈ links (addEdge g "a" "ghost" open) →
       source l ∈ node_ids g ∧ target l ∈ node_ids g).
Proof.
  assert (Hghost : "ghost" ∉ ["a"]).
  { apply not_elem_of_cons. split; [done|apply not_elem_of_nil]. }
  simpl. split_and!; [done|by vm_compute|by vm_compute|].
  intros H. destruct (H (mkLink "a" "ghost" open None None)) as [_ Ht].
  - by apply list_elem_of_singleton.
  - by apply Hghost.
Qed.

(** ** Reachability and trails *)

Section GraphFacts.
Context {V : Type} `{!EqDecision V}.
Implicit Types (es : list (V * V)) (u w x : V).

Lemma adjacent_sym es u w : adjacent es u w → adjacent es w u.
Proof. unfold adjacent. tauto. Qed.

Lemma reach_trans es u w x : reach es u w → reach es w x → reach es u x.
Proof.
  intros Huw Hwx. induction Hwx as [|y z _ IH Hadj]; [done|].
  by eapply reach_step.
Qed.

Lemma reach_sym es u w : reach es u w → reach es w u.
Proof.
  induction 1 as [|y z _ IH Hadj]; [constructor|].
  eapply reach_trans; [|exact IH].
  eapply reach_step; [constructor|]. by apply adjacent_sym.
Qed.

Lemma reach_mono es es' u w :
  (∀ e, e ∈ es → e ∈ es') → reach es u w → reach es' u w.
Proof.
  intros Hsub. induction 1 as [|y z _ IH [Hadj|Hadj]]; [constructor|..];
    (eapply reach_step; [exact IH|]); [left|right]; by apply Hsub.
Qed.

Lemma frontier_of_sound es u seen x :
  (∀ y, y ∈ seen → reach es u y) → x ∈ frontier_of es seen → reach es u x.
Proof.
  intros Hseen. unfold frontier_of. rewrite list_elem_of_In, in_flat_map.
  intros ([a b] & Hin & Hx). apply list_elem_of_In in Hin.
  apply in_app_or in Hx as [Hx|Hx]; simpl in Hx; case_bool_decide;
    try done; destruct Hx as [<-|[]].
  - eapply reach_step; [by apply Hseen|]. by left.
  - eapply reach_step; [by apply Hseen|]. by right.
Qed.

Lemma closure_sound n es u seen x :
  (∀ y, y ∈ seen → reach es u y) → x ∈ closure n es seen → reach es u x.
Proof.
  revert seen. induction n as [|n IH]; intros seen Hseen; simpl; [by auto|].
  apply IH. intros y [Hy|Hy]%elem_of_app; [by auto|].
  by eapply frontier_of_sound.
Qed.

Lemma chainedb_sound es a t b : chainedb es a t b = true → chained es a t b.
Proof.
  revert a. induction t as [|s t IH]; intros a; simpl.
  - by intros ?%bool_decide_eq_true.
  - destruct (step_from es s) as [a'|]; [|done].
    destruct (step_to es s) as [c|]; [|done].
    intros [Ha Hc]%andb_true_iff. apply bool_decide_eq_true in Ha as ->.
    split; [done|]. exists c. auto.
Qed.

Lemma closed_trailb_sound es t : closed_trailb es t = true → closed_trail es t.
Proof.
  unfold closed_trailb, closed_trail. destruct t as [|s t]; [done|].
  intros [Hnd Hch]%andb_true_iff. apply bool_decide_eq_true in Hnd.
  destruct (step_from es s) as [a|]; [|done].
  split_and!; [done|done|]. exists a. by apply chainedb_sound.
Qed.
End GraphFacts.

(** Renaming the vertices of a graph keeps its walks. *)
Section Renaming.
Context {V W : Type} (f : V → W).
Implicit Types (es : list (V * V)).

Lemma adjacent_rename es u w :
  adjacent es u w → adjacent (prod_map f f <$> es) (f u) (f w).
Proof.
  intros [H|H]; [left|right];
    apply (list_elem_of_fmap_2 (prod_map f f)) in H; exact H.
Qed.

Lemma reach_rename es u w :
  reach es u w → reach (prod_map f f <$> es) (f u) (f w).
Proof.
  induction 1 as [|y z _ IH Hadj]; [constructor|].
  eapply reach_step; [exact IH|]. by apply adjacent_rename.
Qed.

Lemma step_from_rename es s :
  step_from (prod_map f f <$> es) s = f <$> step_from es s.
Proof.
  unfold step_from. rewrite list_lookup_fmap.
  destruct (es !! s.1) as [[a b]|]; simpl; [|done]. by destruct (s.2).
Qed.

Lemma step_to_rename es s :
  step_to (prod_map f f <$> es) s = f <$> step_to es s.
Proof.
  unfold step_to. rewrite list_lookup_fmap.
  destruct (es !! s.1) as [[a b]|]; simpl; [|done]. by destruct (s.2).
Qed.

Lemma chained_rename es a t b :
  chained es a t b → chained (prod_map f f <$> es) (f a) t (f b).
Proof.
  revert a. induction t as [|s t IH]; intros a; simpl; [by intros ->|].
  intros (Ha & c & Hc & Hrest). rewrite step_from_rename, step_to_rename.
  rewrite Ha, Hc. split; [done|]. exists (f c). split; [done|]. by apply IH.
Qed.

Lemma has_cycle_rename es :
  has_cycle es → has_cycle (prod_map f f <$> es).
Proof.
  intros (t & Hne & Hnd & a & Hch). exists t. split_and!; [done|done|].
  exists (f a). by apply chained_rename.
Qed.
End Renaming.

(** ** The layout catalog *)

Lemma LAYOUTS_connected layout :
  layout ∈ LAYOUTS → connected_on POSITIONS layout.
Proof.
  intros Hin.
  assert (Hall : ∀ x, x ∈ POSITIONS → reach layout 0%nat x).
  { intros x Hx. apply (closure_sound 5 layout 0%nat [0%nat]).
    - intros y ->%list_elem_of_singleton. constructor.
    - revert x Hx. apply Forall_forall.
      revert layout Hin. apply Forall_forall.
      by_computation. }
  intros u w Hu Hw. eapply reach_trans; [apply reach_sym|]; by apply Hall.
Qed.

Lemma LAYOUTS_cycle layout : layout ∈ LAYOUTS → has_cycle layout.
Proof.
  intros Hin.
  assert (H : Forall2 (fun l t => closed_trailb l t = true)
                LAYOUTS LAYOUT_TRAILS).
  { by_computation. }
  apply list_elem_of_lookup in Hin as [i Hi].
  eapply Forall2_lookup_l in H as (t & _ & Ht); [|exact Hi].
  exists t. by apply closed_trailb_sound.
Qed.

Lemma LAYOUTS_length layout : layout ∈ LAYOUTS → length layout = 6%nat.
Proof.
  revert layout. apply Forall_forall.
  by_computation.
Qed.

Lemma LAYOUTS_positions layout e :
  layout ∈ LAYOUTS → e ∈ layout → (e.1 < 6 ∧ e.2 < 6)%nat.
Proof.
  intros Hin. revert e. apply Forall_forall.
  revert layout Hin. apply Forall_forall.
  by_computation.
Qed.

(** C7. Every layout of the catalog has six edges over the positions 0..5,
    uses each of the six positions, is connected, contains a cycle and has
    no index pair twice, whatever the direction. *)
Theorem LAYOUTS_wellformed :
  Forall (fun layout =>
            length layout = 6%nat ∧
            (∀ e, e ∈ layout → (e.1 < 6 ∧ e.2 < 6)%nat) ∧
            (∀ p, p ∈ POSITIONS → p ∈ layout.*1 ++ layout.*2) ∧
            connected_on POSITIONS layout ∧
            has_cycle layout ∧
            NoDup (normPair <$> layout)) LAYOUTS.
Proof.
  apply Forall_forall. intros layout Hin. split_and!.
  - by apply LAYOUTS_length.
  - intros e. by apply LAYOUTS_positions.
  - apply Forall_forall. revert layout Hin. apply Forall_forall.
    by_computation.
  - by apply LAYOUTS_connected.
  - by apply LAYOUTS_cycle.
  - revert layout Hin. apply Forall_forall.
    by_computation.
Qed.

(** ** The stocking: shuffle and upgrade *)

Lemma swap_Permutation {T} (out : list T) i j : swap out i j ≡ₚ out.
Proof.
  unfold swap. destruct (out !! i) as [x|] eqn:Hi; [|done].
  destruct (out !! j) as [y|] eqn:Hj; [|done].
  by apply Permutation_insert_swap.
Qed.

Lemma shuffle_from_Ok {T} i (out res : list T) r r' :
  shuffle_from i out r = Ok (res, r') → res ≡ₚ out.
Proof.
  revert out r. induction i as [|i IH]; intros out r; simpl.
  - by intros [-> _]%ret_Ok.
  - intros (u & r1 & _ & H)%bind_Ok. apply IH in H.
    rewrite H. apply swap_Permutation.
Qed.

Lemma shuffle_Ok {T} (arr res : list T) r r' :
  shuffle arr r = Ok (res, r') → res ≡ₚ arr.
Proof. apply shuffle_from_Ok. Qed.

(** The positions that [shuffle] swaps are inside the array. *)
Lemma shuffle_positions i u :
  0 ≤ u < RAND_DEN →
  (Z.to_nat (floorMul u (Z.of_nat (S i) + 1)) ≤ S i)%nat.
Proof.
  intros Hu. pose proof (floorMul_bounds u (Z.of_nat (S i) + 1) Hu). lia.
Qed.

Lemma upgradeTypes_false shuffledTypes :
  upgradeTypes shuffledTypes false = shuffledTypes.
Proof.
  unfold upgradeTypes. apply list_eq. intros i. rewrite list_lookup_imap.
  destruct (shuffledTypes !! i) as [t|]; simpl; [|done].
  by rewrite andb_false_r.
Qed.

Lemma indexOf_first arr x k :
  indexOf arr x = Z.of_nat k →
  arr !! k = Some x ∧ ∀ j, (j < k)%nat → arr !! j ≠ Some x.
Proof.
  revert k. induction arr as [|y arr IH]; intros k; simpl; [lia|].
  destruct (decide (y = x)) as [->|Hne].
  - intros Hk. assert (k = 0%nat) as -> by lia. split; [done|lia].
  - destruct (indexOf arr x <? 0) eqn:Hneg; [lia|].
    apply Z.ltb_ge in Hneg. intros Hk. destruct k as [|k]; [lia|].
    destruct (IH k) as [Hx Hfirst]; [lia|]. split; [done|].
    intros [|j] Hj; simpl; [congruence|]. apply Hfirst. lia.
Qed.

Lemma indexOf_ge arr x : -1 ≤ indexOf arr x.
Proof.
  induction arr as [|y arr IH]; simpl; [lia|].
  destruct (decide (y = x)); [lia|]. destruct (indexOf arr x <? 0); lia.
Qed.

Lemma indexOf_absent arr x : indexOf arr x = -1 ↔ x ∉ arr.
Proof.
  induction arr as [|y arr IH]; simpl.
  - split; [intros _; apply not_elem_of_nil|done].
  - rewrite not_elem_of_cons. destruct (decide (y = x)) as [->|Hne].
    + split; [lia|]. by intros [? _].
    + pose proof (indexOf_ge arr x).
      destruct (indexOf arr x <? 0) eqn:Hneg.
      * apply Z.ltb_lt in Hneg. split; [|done]. intros _. split; [done|].
        apply IH. lia.
      * apply Z.ltb_ge in Hneg. split; [lia|]. intros [_ Hx]. apply IH in Hx. lia.
Qed.

(** With [oneSpecial], the position that becomes 'special' is the first
    one that holds 'empty', and no other position changes. *)
Lemma upgradeTypes_true shuffledTypes i :
  special ∉ shuffledTypes →
  (upgradeTypes shuffledTypes true !! i = Some special
   ↔ shuffledTypes !! i = Some empty
     ∧ ∀ j, (j < i)%nat → shuffledTypes !! j ≠ Some empty) ∧
  (Z.of_nat i ≠ indexOf shuffledTypes empty →
   upgradeTypes shuffledTypes true !! i = shuffledTypes !! i).
Proof.
  intros Hsp. unfold upgradeTypes. rewrite list_lookup_imap.
  destruct (shuffledTypes !! i) as [t|] eqn:Hi; simpl.
  - rewrite andb_true_r.
    destruct (Z.of_nat i =? indexOf shuffledTypes empty) eqn:Hidx.
    + apply Z.eqb_eq in Hidx. symmetry in Hidx.
      destruct (indexOf_first _ _ _ Hidx) as [Hx Hfirst].
      assert (t = empty) as -> by congruence.
      rewrite bool_decide_eq_true_2 by done. simpl. split; [|lia].
      split; [|done]. intros _. by split.
    + apply Z.eqb_neq in Hidx. rewrite andb_false_r. split; [|done].
      split.
      * intros [= ->]. destruct Hsp. by eapply list_elem_of_lookup_2.
      * intros [[= ->] Hfirst]. destruct Hidx.
        destruct (indexOf shuffledTypes empty) as [|p|p] eqn:Hk.
        -- destruct (indexOf_first shuffledTypes empty 0) as [H0 _]; [done|].
           destruct i as [|i]; [done|]. destruct (Hfirst 0%nat); [lia|done].
        -- destruct (indexOf_first shuffledTypes empty (Pos.to_nat p))
             as [Hp Hpfirst]; [lia|].
           destruct (decide (i < Pos.to_nat p)%nat) as [Hlt|Hge].
           { destruct (Hpfirst i Hlt). done. }
           destruct (decide (Pos.to_nat p < i)%nat) as [Hlt|Hgt].
           { destruct (Hfirst _ Hlt). done. }
           lia.
        -- pose proof (indexOf_ge shuffledTypes empty).
           assert (Habs : indexOf shuffledTypes empty = -1) by lia.
           apply indexOf_absent in Habs. destruct Habs.
           by eapply list_elem_of_lookup_2.
  - split; [|done]. split; [done|]. by intros [? _].
Qed.

Lemma upgradeTypes_counts shuffledTypes oneSpecial :
  shuffledTypes ≡ₚ ROOM_TYPES →
  stocked_ok (upgradeTypes shuffledTypes oneSpecial) oneSpecial = true.
Proof.
  intros Hp. symmetry in Hp. apply permutations_Permutation in Hp.
  revert shuffledTypes Hp. apply Forall_forall.
  destruct oneSpecial; by_computation.
Qed.

(** ** The generator *)

Lemma generateIds_Ok n r ids r' :
  generateIds n r = Ok (ids, r') → length ids = n.
Proof.
  revert r ids r'. induction n as [|n IH]; intros r ids r'; simpl.
  - by intros [<- _]%ret_Ok.
  - intros (i & r1 & _ & H1)%bind_Ok.
    apply bind_Ok in H1 as (rest & r2 & Hrest & H2).
    apply ret_Ok in H2 as [<- _]. simpl. f_equal. by eapply IH.
Qed.

Lemma makeLinks_Ok nodeIds edges linkSet r ls r' :
  makeLinks nodeIds edges linkSet r = Ok (ls, r') →
  endpoints <$> ls
  = prod_map (λ a, nodeIds !!! a) (λ a, nodeIds !!! a) <$> edges.
Proof.
  revert linkSet r ls r'.
  induction edges as [|[a b] edges IH]; intros linkSet r ls r'; simpl.
  - by intros [<- _]%ret_Ok.
  - case_bool_decide; [done|].
    intros (t & r1 & _ & H1)%bind_Ok.
    apply bind_Ok in H1 as (rest & r2 & Hrest & H2).
    apply ret_Ok in H2 as [<- _]. rewrite fmap_cons. f_equal.
    by eapply IH.
Qed.

Lemma makeNodes_ids nodeIds types e1 e2 :
  id <$> makeNodes nodeIds types e1 e2 = nodeIds.
Proof.
  unfold makeNodes. apply list_eq. intros i.
  rewrite list_lookup_fmap, list_lookup_imap.
  by destruct (nodeIds !! i).
Qed.

Lemma makeNodes_types nodeIds types e1 e2 :
  length nodeIds = length types →
  roomType <$> makeNodes nodeIds types e1 e2 = types.
Proof.
  intros Hlen. unfold makeNodes. apply list_eq. intros i.
  rewrite list_lookup_fmap, list_lookup_imap.
  destruct (nodeIds !! i) as [x|] eqn:Hi; simpl.
  - apply lookup_lt_Some in Hi. rewrite Hlen in Hi.
    apply lookup_lt_is_Some in Hi as [t Ht]. by rewrite Ht.
  - apply lookup_ge_None in Hi. rewrite Hlen in Hi.
    symmetry. by apply lookup_ge_None.
Qed.

Lemma makeNodes_entrance nodeIds types e1 e2 :
  (0 ≤ e1 < Z.of_nat (length nodeIds)) →
  ∃ n, n ∈ makeNodes nodeIds types e1 e2 ∧ entrance n = Some true.
Proof.
  intros He. unfold makeNodes.
  destruct (lookup_lt_is_Some_2 nodeIds (Z.to_nat e1)) as [x Hx]; [lia|].
  eexists. split.
  - eapply elem_of_lookup_imap_2. exact Hx.
  - simpl. rewrite Z2Nat.id by lia. by rewrite Z.eqb_refl.
Qed.

Lemma upgradeTypes_length shuffledTypes oneSpecial :
  length (upgradeTypes shuffledTypes oneSpecial) = length shuffledTypes.
Proof. apply length_imap. Qed.

(** What a successful run of the generator has drawn. *)
Lemma generate_inv seedLayout r g r' :
  generateBiteSizedDungeon seedLayout r = Ok (g, r') →
  ∃ edges nodeIds shuffledTypes k entranceIndex secondEntrance,
    edges ∈ LAYOUTS ∧ length nodeIds = 6%nat ∧
    shuffledTypes ≡ₚ ROOM_TYPES ∧ 0 ≤ k ≤ 2 ∧
    0 ≤ entranceIndex ≤ 5 ∧ 0 ≤ secondEntrance ≤ 5 ∧
    nodes g = makeNodes nodeIds (upgradeTypes shuffledTypes (oneSpecialOf k))
                entranceIndex secondEntrance ∧
    graph_edges g
    = prod_map (λ a, nodeIds !!! a) (λ a, nodeIds !!! a) <$> edges.
Proof.
  unfold generateBiteSizedDungeon. intros H.
  apply bind_Ok in H as (layoutIndex & r1 & _ & G0).
  apply bind_Ok in G0 as (nodeIds & r2 & Hids & G1).
  apply bind_Ok in G1 as (shuffledTypes & r3 & Hsh & G2).
  apply bind_Ok in G2 as (k & r4 & Hk & G3).
  apply bind_Ok in G3 as (entranceIndex & r5 & He1 & G4).
  apply bind_Ok in G4 as (secondEntrance & r6 & He2 & G5).
  destruct (if layoutIndex <? 0 then None
            else LAYOUTS !! Z.to_nat layoutIndex) as [edges|] eqn:Hedges;
    [|done].
  apply bind_Ok in G5 as (ls & r7 & Hls & G6).
  apply ret_Ok in G6 as [<- _].
  exists edges, nodeIds, shuffledTypes, k, entranceIndex, secondEntrance.
  apply randomInt_Ok in Hk, He1, He2; [|lia..].
  apply generateIds_Ok in Hids. apply shuffle_Ok in Hsh.
  apply makeLinks_Ok in Hls.
  assert (edges ∈ LAYOUTS).
  { destruct (layoutIndex <? 0); [done|]. by eapply list_elem_of_lookup_2. }
  split_and!; first [done|lia].
Qed.

Lemma countType_types t g :
  countType t g = length (filter (λ t', t' = t) (roomType <$> nodes g)).
Proof.
  unfold countType. induction (nodes g) as [|n ns IH]; [done|].
  rewrite fmap_cons, !filter_cons. simpl.
  destruct (decide (roomType n = t)); simpl; by rewrite IH.
Qed.

(** C2. A graph that the generator returns has six rooms and six
    connections, every room is reachable from every other, its connections
    contain a cycle, some room is flagged as an entrance, and its rooms are
    one 'monster_treasure', one 'monster', one 'treasure' and three rooms
    that are all 'empty' or two 'empty' and one 'special'. *)
Theorem generateBiteSizedDungeon_unit seedLayout r g r' :
  generateBiteSizedDungeon seedLayout r = Ok (g, r') →
  length (nodes g) = 6%nat ∧ length (links g) = 6%nat ∧
  connected_on (node_ids g) (graph_edges g) ∧
  has_cycle (graph_edges g) ∧
  (∃ n, n ∈ nodes g ∧ entrance n = Some true) ∧
  countType monster_treasure g = 1%nat ∧ countType monster g = 1%nat ∧
  countType treasure g = 1%nat ∧
  ((countType empty g = 3 ∧ countType special g = 0)
   ∨ (countType empty g = 2 ∧ countType special g = 1))%nat.
Proof.
  intros H.
  apply generate_inv in H
    as (edges & nodeIds & shuffled & k & e1 & e2 & Hedges & Hlen & Hperm
        & Hk & He1 & He2 & Hnodes & Hlinks).
  assert (Hids : node_ids g = nodeIds).
  { unfold node_ids. rewrite Hnodes. apply makeNodes_ids. }
  assert (Htypes : roomType <$> nodes g
                   = upgradeTypes shuffled (oneSpecialOf k)).
  { rewrite Hnodes. apply makeNodes_types.
    rewrite upgradeTypes_length, Hlen. by rewrite Hperm. }
  pose proof (upgradeTypes_counts shuffled (oneSpecialOf k) Hperm) as Hcount.
  rewrite <- Htypes in Hcount. unfold stocked_ok in Hcount.
  apply bool_decide_eq_true in Hcount as (Hmt & Hm & Ht & He & Hs).
  rewrite <- !countType_types in *.
  split_and!; try done.
  - rewrite Hnodes. unfold makeNodes. by rewrite length_imap.
  - transitivity (length (graph_edges g)).
    + unfold graph_edges. by rewrite length_fmap.
    + rewrite Hlinks, length_fmap. by apply LAYOUTS_length.
  - rewrite Hids, Hlinks. intros u w Hu Hw.
    apply list_elem_of_lookup in Hu as [i Hi].
    apply list_elem_of_lookup in Hw as [j Hj].
    rewrite <- (list_lookup_total_correct _ _ _ Hi).
    rewrite <- (list_lookup_total_correct _ _ _ Hj).
    apply (reach_rename (λ a, nodeIds !!! a)).
    apply lookup_lt_Some in Hi, Hj.
    apply LAYOUTS_connected; [done|..]; apply elem_of_seq; lia.
  - rewrite Hlinks. apply has_cycle_rename. by apply LAYOUTS_cycle.
  - rewrite Hnodes. apply makeNodes_entrance. lia.
  - destruct (oneSpecialOf k); [right|left]; done.
Qed.

(** A random source on which the generator returns a unit: layout 0, six
    different identifiers, a shuffle that moves 'monster_treasure' to the
    end, no 'special' room, the first room as the only entrance. *)
Lemma generateBiteSizedDungeon_unit_witness :
  match generateBiteSizedDungeon None SAMPLE_RNG with
  | Ok (g, _) =>
      length (nodes g) = 6%nat ∧ length (links g) = 6%nat ∧
      connected_on (node_ids g) (graph_edges g) ∧
      has_cycle (graph_edges g) ∧
      (∃ n, n ∈ nodes g ∧ entrance n = Some true) ∧
      countType monster_treasure g = 1%nat ∧ countType monster g = 1%nat ∧
      countType treasure g = 1%nat ∧
      ((countType empty g = 3 ∧ countType special g = 0)
       ∨ (countType empty g = 2 ∧ countType special g = 1))%nat
  | Err _ => False
  end.
Proof.
  destruct (generateBiteSizedDungeon None SAMPLE_RNG) as [[g r']|e] eqn:E.
  - exact (generateBiteSizedDungeon_unit None SAMPLE_RNG g r' E).
  - vm_compute in E. discriminate E.
Defined.

(** ** The coin and the upgraded position *)

Lemma randomInt_draw lo hi r k r' :
  randomInt lo hi r = Ok (k, r') →
  k = floorMul (r 0%nat `mod` RAND_DEN) (hi - lo + 1) + lo
  ∧ r' = (λ n, r (S n)).
Proof. unfold randomInt. by intros [= <- <-]. Qed.

Lemma generateIds_rng n r ids r' :
  generateIds n r = Ok (ids, r') → r' = (λ i, r (n + i)%nat).
Proof.
  revert r ids r'. induction n as [|n IH]; intros r ids r'; simpl.
  - by intros [_ <-]%ret_Ok.
  - intros (i & r1 & Hi & H1)%bind_Ok.
    apply bind_Ok in H1 as (rest & r2 & Hrest & H2).
    apply ret_Ok in H2 as [_ <-]. apply IH in Hrest as ->.
    unfold generateId in Hi. apply bind_Ok in Hi as (u & r0 & Hu & Hi).
    apply Math_random_Ok in Hu as [_ ->]. by apply ret_Ok in Hi as [_ <-].
Qed.

Lemma shuffle_from_rng {T} i (out res : list T) r r' :
  shuffle_from i out r = Ok (res, r') → r' = (λ n, r (i + n)%nat).
Proof.
  revert out r. induction i as [|i IH]; intros out r; simpl.
  - by intros [_ <-]%ret_Ok.
  - intros (u & r1 & Hu & H)%bind_Ok. apply IH in H as ->.
    by apply Math_random_Ok in Hu as [_ ->].
Qed.

Lemma oneSpecialOf_third u :
  0 ≤ u < RAND_DEN →
  oneSpecialOf (floorMul u (2 - 0 + 1) + 0) = true ↔ 3 * u < RAND_DEN.
Proof.
  intros Hu. unfold oneSpecialOf. rewrite Z.eqb_eq, Z.add_0_r.
  assert (0 < RAND_DEN) by (by compute).
  change (2 - 0 + 1) with 3. split.
  - intros Hz. destruct (Z.lt_ge_cases (3 * u) RAND_DEN) as [|Hge]; [done|].
    pose proof (floorMul_ge u 3 1). lia.
  - intros Hlt. apply floorMul_exact; lia.
Qed.

(** The types of a generated unit: a shuffle of the six basic types, in
    which the first 'empty' is 'special' when the coin sample is in the
    first third of [0, 1). *)
Lemma generate_types seedLayout r g r' :
  generateBiteSizedDungeon seedLayout r = Ok (g, r') →
  ∃ shuffledTypes,
    shuffledTypes ≡ₚ ROOM_TYPES ∧
    roomType <$> nodes g
    = upgradeTypes shuffledTypes
        (bool_decide (3 * coinSample seedLayout r < RAND_DEN)).
Proof.
  intros H. unfold generateBiteSizedDungeon in H.
  apply bind_Ok in H as (layoutIndex & r1 & Hl & G0).
  apply bind_Ok in G0 as (nodeIds & r2 & Hids & G1).
  apply bind_Ok in G1 as (shuffledTypes & r3 & Hsh & G2).
  apply bind_Ok in G2 as (k & r4 & Hk & G3).
  apply bind_Ok in G3 as (entranceIndex & r5 & He1 & G4).
  apply bind_Ok in G4 as (secondEntrance & r6 & He2 & G5).
  destruct (if layoutIndex <? 0 then None
            else LAYOUTS !! Z.to_nat layoutIndex) as [edges|]; [|done].
  apply bind_Ok in G5 as (ls & r7 & Hls & G6).
  apply ret_Ok in G6 as [<- _]. simpl.
  exists shuffledTypes.
  pose proof (shuffle_Ok _ _ _ _ Hsh) as Hperm.
  pose proof (generateIds_Ok _ _ _ _ Hids) as Hlen.
  split; [done|].
  rewrite makeNodes_types
    by (rewrite upgradeTypes_length, Hlen; by rewrite Hperm).
  f_equal.
  apply randomInt_draw in Hk as [-> _].
  apply shuffle_from_rng in Hsh as ->. apply generateIds_rng in Hids as ->.
  assert (Hr1 : r1 (11%nat) = r (match seedLayout with
                                  | Some _ => 11 | None => 12 end)%nat).
  { destruct seedLayout.
    - by apply ret_Ok in Hl as [_ <-].
    - by apply randomInt_draw in Hl as [_ ->]. }
  unfold coinSample. rewrite <- Hr1. simpl length.
  apply eq_true_iff_eq. rewrite bool_decide_eq_true.
  apply oneSpecialOf_third. apply Z.mod_pos_bound. by compute.
Qed.

(** C3, as the code has it. In a unit that the generator returns, the types
    are a shuffle of the six basic types in which one 'empty' is upgraded
    to 'special' exactly when the coin sample lies in the first third of
    [0, 1), that is when [randomInt(0, 2)] draws 0, one of its three equally
    likely values; the upgraded position is then the first one that holds
    'empty', and every other position keeps its type, so that a 'special'
    room always stands before the two 'empty' rooms. *)
Theorem special_upgrade_rule seedLayout r g r' :
  generateBiteSizedDungeon seedLayout r = Ok (g, r') →
  length (filter (λ k, oneSpecialOf k = true) (seqZ 0 3)) = 1%nat ∧
  (∃ shuffledTypes,
     shuffledTypes ≡ₚ ROOM_TYPES ∧
     ((RAND_DEN ≤ 3 * coinSample seedLayout r
       ∧ roomType <$> nodes g = shuffledTypes)
      ∨ (3 * coinSample seedLayout r < RAND_DEN
         ∧ ∀ i, ((roomType <$> nodes g) !! i = Some special
                 ↔ firstEmpty shuffledTypes i)
                ∧ (¬ firstEmpty shuffledTypes i →
                   (roomType <$> nodes g) !! i = shuffledTypes !! i)))) ∧
  (∀ i j, (roomType <$> nodes g) !! i = Some special →
          (roomType <$> nodes g) !! j = Some empty → (i < j)%nat).
Proof.
  intros H. split; [by vm_compute|].
  apply generate_types in H as (shuffledTypes & Hperm & Htypes).
  assert (Hsp : special ∉ shuffledTypes).
  { rewrite Hperm. by_computation. }
  assert (Hrule : ∀ i,
            (upgradeTypes shuffledTypes true !! i = Some special
             ↔ firstEmpty shuffledTypes i)
            ∧ (¬ firstEmpty shuffledTypes i →
               upgradeTypes shuffledTypes true !! i = shuffledTypes !! i)).
  { intros i.
    destruct (upgradeTypes_true shuffledTypes i Hsp) as [Hiff Hother].
    split; [exact Hiff|]. intros Hnot. apply Hother. intros Hidx.
    apply Hnot. apply indexOf_first. by symmetry. }
  rewrite Htypes. split.
  - exists shuffledTypes. split; [done|]. case_bool_decide as Hcoin.
    + right. by split.
    + left. split; [lia|]. apply upgradeTypes_false.
  - intros i j. case_bool_decide as Hcoin.
    + intros Hi Hj. apply Hrule in Hi as [Hi Hfirst].
      destruct (decide (j < i)%nat) as [Hlt|?].
      * assert (Hnot : ¬ firstEmpty shuffledTypes j).
        { intros [Hj' _]. by apply (Hfirst j). }
        apply Hrule in Hnot. rewrite Hnot in Hj. by destruct (Hfirst j).
      * destruct (decide (j = i)) as [->|?]; [|lia].
        assert (Hi' : upgradeTypes shuffledTypes true !! i = Some special).
        { apply Hrule. by split. }
        congruence.
    + rewrite upgradeTypes_false. intros Hi _. destruct Hsp.
      by eapply list_elem_of_lookup_2.
Qed.

Lemma special_upgrade_rule_witness :
  match generateBiteSizedDungeon (Some 0) COIN_RNG with
  | Ok (g, _) =>
      (roomType <$> nodes g) !! 3%nat = Some special
      ↔ firstEmpty ROOM_TYPES 3
  | Err _ => False
  end.
Proof.
  destruct (generateBiteSizedDungeon (Some 0) COIN_RNG) as [[g r']|e] eqn:E.
  - destruct (special_upgrade_rule (Some 0) COIN_RNG g r' E)
      as (_ & (shuffledTypes & Hperm & [[Hcoin _]|[_ Hrule]]) & _).
    + vm_compute in Hcoin. by destruct Hcoin.
    + vm_compute in E. injection E as <- _.
      split; [intros _; split; [done|]|done].
      intros j Hj. do 3 (destruct j as [|j]; [done|]). lia.
  - vm_compute in E. discriminate E.
Defined.

(** C3 as specified fails: of the three equally likely values of
    [randomInt(0, 2)] one, not half of them, asks for the upgrade; and when
    the shuffle leaves the types in their places ('empty' at the positions
    3, 4 and 5), the positions 4 and 5 are never upgraded, whatever the
    coin: the run below upgrades position 3. *)
Lemma special_upgrade_not_uniform :
  2 * Z.of_nat (length (filter (λ k, oneSpecialOf k = true) (seqZ 0 3)))
  ≠ Z.of_nat (length (seqZ 0 3)) ∧
  (∃ g r', generateBiteSizedDungeon (Some 0) COIN_RNG = Ok (g, r') ∧
     roomType <$> nodes g
     = [monster_treasure; monster; treasure; special; empty; empty]) ∧
  (∀ i, i ∈ [3; 4; 5]%nat → ROOM_TYPES !! i = Some empty) ∧
  (∀ oneSpecial i, i ∈ [4; 5]%nat →
     upgradeTypes ROOM_TYPES oneSpecial !! i ≠ Some special).
Proof.
  split_and!.
  - by vm_compute.
  - destruct (generateBiteSizedDungeon (Some 0) COIN_RNG)
      as [[g r']|e] eqn:E.
    + exists g, r'. split; [done|]. vm_compute in E. by injection E as <- _.
    + vm_compute in E. discriminate E.
  - apply Forall_forall. by_computation.
  - intros oneSpecial. apply Forall_forall. destruct oneSpecial; by_computation.
Qed.

(** ** Keys of generated identifiers *)

Lemma nodash_app x y : nodash (x +:+ y) = nodash x && nodash y.
Proof.
  induction x as [|c x IH]; simpl; [done|]. by rewrite IH, andb_assoc.
Qed.

Lemma digit36_nodash d : nodash (digit36 d) = true.
Proof.
  unfold digit36. generalize (Z.to_nat d). intros n.
  do 37 (destruct n as [|n]; [reflexivity|]). reflexivity.
Qed.

Lemma fraction36_nodash n u : nodash (fraction36 n u) = true.
Proof.
  revert u. induction n as [|n IH]; intros u; simpl; [done|].
  destruct (u =? 0); [done|]. by rewrite nodash_app, digit36_nodash, IH.
Qed.

(** A text without hyphen that is followed by a hyphen ends at that
    hyphen. *)
Lemma nodash_split x x' q q' :
  nodash x = true → nodash x' = true →
  x +:+ "-" +:+ q = x' +:+ "-" +:+ q' → x = x' ∧ q = q'.
Proof.
  revert x'. induction x as [|c x IH]; intros [|c' x'] Hx Hx' Heq;
    simpl in Hx, Hx', Heq.
  - injection Heq as Heq. by split.
  - injection Heq as <- _. by vm_compute in Hx'.
  - injection Heq as -> _. by vm_compute in Hx.
  - apply andb_true_iff in Hx as [_ Hx]. apply andb_true_iff in Hx' as [_ Hx'].
    injection Heq as -> Heq. destruct (IH x' Hx Hx' Heq) as [-> ->]. done.
Qed.

Lemma norm_roomId_inj a b c d :
  roomId a → roomId b → roomId c → roomId d →
  norm a b = norm c d → (a = c ∧ b = d) ∨ (a = d ∧ b = c).
Proof.
  assert (Hkey : ∀ p q p' q',
            roomId p → roomId p' →
            p +:+ "-" +:+ q = p' +:+ "-" +:+ q' → p = p' ∧ q = q').
  { intros p q p' q' (x & Hp & Hx) (x' & Hp' & Hx') Heq. subst p p'.
    cbn in Heq. injection Heq as Heq.
    destruct (nodash_split x x' q q' Hx Hx' Heq) as [Hxx Hqq].
    by subst. }
  intros Ha Hb Hc Hd. unfold norm.
  destruct (String.ltb b a), (String.ltb d c); intros Heq;
    apply Hkey in Heq as [-> ->]; auto.
Qed.

(** ** When the generator returns *)

Lemma bind_run {A B} (m : Rand A) (k : A → Rand B) r a r1 :
  m r = Ok (a, r1) → (m ≫= k) r = k a r1.
Proof. intros H. unfold mbind, Rand_bind. by rewrite H. Qed.

Lemma generateId_total r :
  ∃ i, generateId r = Ok (i, λ n, r (S n)) ∧ roomId i.
Proof.
  eexists. split; [reflexivity|]. eexists. split; [reflexivity|].
  apply fraction36_nodash.
Qed.

Lemma generateIds_total n r :
  ∃ nodeIds r', generateIds n r = Ok (nodeIds, r') ∧ Forall roomId nodeIds.
Proof.
  revert r. induction n as [|n IH]; intros r; cbn [generateIds].
  - by exists [], r.
  - destruct (generateId_total r) as (i & Hi & Hform).
    destruct (IH (λ n, r (S n))) as (rest & r' & Hrest & Hforms).
    exists (i :: rest), r'. split; [|by constructor].
    rewrite (bind_run _ _ _ _ _ Hi), (bind_run _ _ _ _ _ Hrest). done.
Qed.

Lemma shuffle_from_total {T} i (out : list T) r :
  ∃ res r', shuffle_from i out r = Ok (res, r').
Proof.
  revert out r. induction i as [|i IH]; intros out r; cbn [shuffle_from].
  - by exists out, r.
  - erewrite bind_run by reflexivity. apply IH.
Qed.

Lemma randomInt_total lo hi r :
  ∃ k, randomInt lo hi r = Ok (k, λ n, r (S n)).
Proof. eexists. reflexivity. Qed.

Lemma makeLinks_total nodeIds edges linkSet r :
  NoDup ((λ e, norm (nodeIds !!! e.1) (nodeIds !!! e.2)) <$> edges) →
  (∀ e, e ∈ edges → norm (nodeIds !!! e.1) (nodeIds !!! e.2) ∉ linkSet) →
  ∃ ls r', makeLinks nodeIds edges linkSet r = Ok (ls, r').
Proof.
  revert linkSet r.
  induction edges as [|[a b] edges IH]; intros linkSet r Hnd Hfresh;
    cbn [makeLinks].
  - by eexists _, _.
  - rewrite fmap_cons in Hnd. apply NoDup_cons in Hnd as [Hhead Hnd].
    rewrite bool_decide_eq_false_2 by (apply (Hfresh (a, b)); by left).
    destruct (randomConnectionType_Ok r) as (roll & _ & Hroll).
    rewrite (bind_run _ _ _ _ _ Hroll).
    destruct (IH ({[norm (nodeIds !!! a) (nodeIds !!! b)]} ∪ linkSet)
                (λ n, r (S n)) Hnd) as (ls & r' & Hrun).
    { intros e He. apply not_elem_of_union. split; [|apply Hfresh; by right].
      intros Heq%elem_of_singleton. apply Hhead. simpl. rewrite <- Heq.
      by apply (list_elem_of_fmap_2
                  (λ e, norm (nodeIds !!! e.1) (nodeIds !!! e.2))). }
    rewrite (bind_run _ _ _ _ _ Hrun). by eexists _, _.
Qed.

Lemma NoDup_fmap_via {A B C} (f : A → B) (g : A → C) (l : list A) :
  NoDup (g <$> l) →
  (∀ x y, x ∈ l → y ∈ l → f x = f y → g x = g y) →
  NoDup (f <$> l).
Proof.
  induction l as [|x l IH]; intros Hnd Hfg; [constructor|].
  rewrite fmap_cons in *. apply NoDup_cons in Hnd as [Hx Hnd].
  apply NoDup_cons. split.
  - intros (y & Hy & Hin)%list_elem_of_fmap. apply Hx.
    rewrite (Hfg x y); [by apply list_elem_of_fmap_2|by left|by right|done].
  - apply IH; [done|]. intros y z Hy Hz. apply Hfg; by right.
Qed.

Lemma LAYOUTS_NoDup layout :
  layout ∈ LAYOUTS → NoDup (normPair <$> layout).
Proof. revert layout. apply Forall_forall. by_computation. Qed.

(** Different identifiers give the edges of a layout different keys. *)
Lemma layout_keys_NoDup nodeIds layout :
  layout ∈ LAYOUTS → NoDup nodeIds → length nodeIds = 6%nat →
  Forall roomId nodeIds →
  NoDup ((λ e, norm (nodeIds !!! e.1) (nodeIds !!! e.2)) <$> layout).
Proof.
  intros Hin Hnd Hlen Hform.
  apply (NoDup_fmap_via _ normPair); [by apply LAYOUTS_NoDup|].
  assert (Hinj : ∀ i j, (i < 6)%nat → (j < 6)%nat →
            nodeIds !!! i = nodeIds !!! j → i = j).
  { intros i j Hi Hj Heq.
    destruct (lookup_lt_is_Some_2 nodeIds i) as [x Hx]; [lia|].
    destruct (lookup_lt_is_Some_2 nodeIds j) as [y Hy]; [lia|].
    rewrite (list_lookup_total_correct _ _ _ Hx) in Heq.
    rewrite (list_lookup_total_correct _ _ _ Hy) in Heq. subst y.
    by eapply NoDup_lookup. }
  assert (Hroom : ∀ i, (i < 6)%nat → roomId (nodeIds !!! i)).
  { intros i Hi. apply Forall_lookup_total_1; [done|lia]. }
  intros [a1 b1] [a2 b2] H1 H2 Hkey. simpl in Hkey.
  apply (LAYOUTS_positions _ _ Hin) in H1 as [Ha1 Hb1].
  apply (LAYOUTS_positions _ _ Hin) in H2 as [Ha2 Hb2]. simpl in *.
  apply norm_roomId_inj in Hkey as [[Ha Hb]|[Ha Hb]]; [| |by apply Hroom..].
  - apply Hinj in Ha, Hb; [|done..]. by subst.
  - apply Hinj in Ha, Hb; [|done..]. subst. unfold normPair. simpl.
    f_equal; lia.
Qed.

(** The rooms of a returned unit carry the identifiers that were drawn. *)
Lemma generate_drawn seedLayout r g r' :
  generateBiteSizedDungeon seedLayout r = Ok (g, r') →
  node_ids g = drawnIds seedLayout r.
Proof.
  intros H. unfold generateBiteSizedDungeon in H.
  apply bind_Ok in H as (layoutIndex & r1 & Hl & G0).
  apply bind_Ok in G0 as (nodeIds & r2 & Hids & G1).
  apply bind_Ok in G1 as (shuffledTypes & r3 & Hsh & G2).
  apply bind_Ok in G2 as (k & r4 & Hk & G3).
  apply bind_Ok in G3 as (entranceIndex & r5 & He1 & G4).
  apply bind_Ok in G4 as (secondEntrance & r6 & He2 & G5).
  destruct (if layoutIndex <? 0 then None
            else LAYOUTS !! Z.to_nat layoutIndex) as [edges|]; [|done].
  apply bind_Ok in G5 as (ls & r7 & Hls & G6).
  apply ret_Ok in G6 as [<- _].
  unfold node_ids. simpl. rewrite makeNodes_ids.
  unfold drawnIds, drawIds. rewrite (bind_run _ _ _ _ _ Hl). by rewrite Hids.
Qed.

(** With a layout of the catalog and six different identifiers, the
    generator returns a unit. *)
Lemma generate_returns seedLayout r :
  validLayout seedLayout → NoDup (drawnIds seedLayout r) →
  ∃ g r', generateBiteSizedDungeon seedLayout r = Ok (g, r').
Proof.
  intros Hvalid Hnd.
  assert (Hl : ∃ layoutIndex r1,
             match seedLayout with
             | Some k => ret k
             | None => randomInt 0 (Z.of_nat (length LAYOUTS) - 1)
             end r = Ok (layoutIndex, r1)
             ∧ 0 ≤ layoutIndex < Z.of_nat (length LAYOUTS)).
  { destruct seedLayout as [k|].
    - by exists k, r.
    - destruct (randomInt_total 0 (Z.of_nat (length LAYOUTS) - 1) r)
        as (k & Hk).
      exists k, (λ n, r (S n)). split; [done|].
      apply randomInt_Ok in Hk; simpl in *; lia. }
  destruct Hl as (layoutIndex & r1 & Hl & Hrange).
  destruct (generateIds_total 6 r1) as (nodeIds & r2 & Hids & Hform).
  assert (Hdrawn : drawnIds seedLayout r = nodeIds).
  { unfold drawnIds, drawIds. rewrite (bind_run _ _ _ _ _ Hl). by rewrite Hids. }
  rewrite Hdrawn in Hnd.
  destruct (shuffle_from_total (length ROOM_TYPES - 1) ROOM_TYPES r2)
    as (shuffledTypes & r3 & Hsh).
  destruct (randomInt_total 0 2 r3) as (k & Hk).
  destruct (randomInt_total 0 5 (λ n, r3 (S n))) as (e1 & He1).
  destruct (randomInt_total 0 5 (λ n, r3 (S (S n)))) as (e2 & He2).
  destruct (lookup_lt_is_Some_2 LAYOUTS (Z.to_nat layoutIndex))
    as [edges Hedges]; [lia|].
  destruct (makeLinks_total nodeIds edges ∅ (λ n, r3 (S (S (S n)))))
    as (ls & r7 & Hls).
  { apply layout_keys_NoDup; [by eapply list_elem_of_lookup_2|done| |done].
    by eapply generateIds_Ok. }
  { intros e _. apply not_elem_of_empty. }
  unfold generateBiteSizedDungeon.
  rewrite (bind_run _ _ _ _ _ Hl), (bind_run _ _ _ _ _ Hids).
  unfold shuffle. rewrite (bind_run _ _ _ _ _ Hsh), (bind_run _ _ _ _ _ Hk).
  rewrite (bind_run _ _ _ _ _ He1), (bind_run _ _ _ _ _ He2).
  assert ((layoutIndex <? 0) = false) as -> by lia.
  rewrite Hedges, (bind_run _ _ _ _ _ Hls). by eexists _, _.
Qed.

(** ** Replacing a room by a unit *)

Lemma findNode_present g nodeId :
  nodeId ∈ node_ids g → ∃ node, findNode g nodeId = Some node.
Proof.
  unfold findNode, node_ids. induction (nodes g) as [|n ns IH].
  - by intros ?%elem_of_nil.
  - rewrite fmap_cons. simpl. case_bool_decide; [by eauto|].
    intros [?|?]%elem_of_cons; [congruence|by apply IH].
Qed.

Lemma generate_node_ids seedLayout r sub r1 :
  generateBiteSizedDungeon seedLayout r = Ok (sub, r1) →
  ∃ first rest, nodes sub = first :: rest.
Proof.
  intros H.
  apply generate_inv in H
    as (edges & nodeIds & shuffled & k & e1 & e2 & _ & Hlen & _ & _ & _ & _
        & Hnodes & _).
  assert (Hsix : length (nodes sub) = 6%nat).
  { rewrite Hnodes. unfold makeNodes. by rewrite length_imap. }
  destruct (nodes sub) as [|first rest]; [done|by eauto].
Qed.

(** The ends of the links of a generated unit are rooms of the unit. *)
Lemma generate_links_closed seedLayout r sub r1 l x :
  generateBiteSizedDungeon seedLayout r = Ok (sub, r1) →
  l ∈ links sub → touches x l → x ∈ node_ids sub.
Proof.
  intros H Hl Hx.
  apply generate_inv in H
    as (edges & nodeIds & shuffled & k & e1 & e2 & Hedges & Hlen & _ & _
        & _ & _ & Hnodes & Hlinks).
  assert (Hids : node_ids sub = nodeIds).
  { unfold node_ids. rewrite Hnodes. apply makeNodes_ids. }
  rewrite Hids.
  assert (He : endpoints l ∈ graph_edges sub).
  { unfold graph_edges. by apply list_elem_of_fmap_2. }
  rewrite Hlinks in He. apply list_elem_of_fmap in He as ([a b] & Hab & Hin).
  apply (LAYOUTS_positions _ _ Hedges) in Hin as [Ha Hb].
  unfold endpoints in Hab. simpl in *. injection Hab as Hs Ht.
  destruct Hx as [<-|<-]; [rewrite Hs|rewrite Ht];
    apply list_elem_of_lookup_total_2; lia.
Qed.

Lemma splice_id node nodeId bridgeNodeId (ns : list DungeonNode) :
  id <$> (splice node nodeId bridgeNodeId <$> ns) = id <$> ns.
Proof. rewrite <- list_fmap_compose. by apply list_fmap_ext. Qed.

Lemma occurs_room x g : x ∈ node_ids g → occurs x g.
Proof. intros H. unfold occurs. apply elem_of_app. by left. Qed.

Lemma occurs_touches x g l : l ∈ links g → touches x l → occurs x g.
Proof.
  intros Hl [<-|<-]; unfold occurs; rewrite !elem_of_app;
    [right; left|right; right]; by apply list_elem_of_fmap_2.
Qed.

(** What [replaceNodeWithDungeon] returns for a room of the graph. *)
Lemma replace_run g nodeId r sub r1 :
  nodeId ∈ node_ids g →
  generateBiteSizedDungeon None r = Ok (sub, r1) →
  ∃ node bridgeNodeId,
    node_ids sub !! 0%nat = Some bridgeNodeId ∧
    replaceNodeWithDungeon g nodeId r
    = Ok ((mkGraph
             (filter (λ n, id n ≠ nodeId) (nodes g)
              ++ (splice node nodeId bridgeNodeId <$> nodes sub))
             (filter (λ l, ¬ touches nodeId l) (links g)
              ++ links sub
              ++ (reattach nodeId bridgeNodeId
                    <$> filter (touches nodeId) (links g))),
           bridgeNodeId), r1).
Proof.
  intros [node Hnode]%findNode_present Hsub.
  destruct (generate_node_ids _ _ _ _ Hsub) as (first & rest & Hfirst).
  exists node, (id first). split.
  - unfold node_ids. by rewrite Hfirst.
  - unfold replaceNodeWithDungeon. rewrite Hnode.
    unfold mbind, Rand_bind. rewrite Hsub, Hfirst. done.
Qed.

Lemma reattach_joins nodeId bridgeNodeId old x :
  touches nodeId old → bridgeNodeId ≠ x →
  joins bridgeNodeId x (reattach nodeId bridgeNodeId old)
  ↔ joins nodeId x old.
Proof.
  intros Htouch Hne. unfold joins, reattach, touches in *. simpl.
  case_decide; intuition congruence.
Qed.

Lemma reattach_joins_old nodeId bridgeNodeId old x :
  joins nodeId x old →
  joins bridgeNodeId x (reattach nodeId bridgeNodeId old).
Proof.
  unfold joins, reattach. simpl. intros Hj. left. split; [done|].
  case_decide; intuition congruence.
Qed.

(** Replacing [R] by a given unit whose identifiers are not in use. *)
Lemma replace_preserves_unit g R r sub r1 :
  R ∈ node_ids g →
  generateBiteSizedDungeon None r = Ok (sub, r1) →
  (∀ x, x ∈ node_ids sub → ¬ occurs x g) →
  ∃ g' bridge,
    replaceNodeWithDungeon g R r = Ok ((g', bridge), r1) ∧
    (R ∉ node_ids g') ∧
    node_ids sub !! 0%nat = Some bridge ∧
    bridge ∈ node_ids g' ∧
    (∀ x m, x ∉ node_ids sub → linked g' bridge x m ↔ linked g R x m) ∧
    (∀ n, n ∈ nodes g → id n ≠ R → n ∈ nodes g') ∧
    (∀ l, l ∈ links g → ¬ touches R l → l ∈ links g').
Proof.
  intros HR Hsub Hfresh.
  destruct (replace_run g R r sub r1 HR Hsub) as (node & bridge & Hb & Hrun).
  eexists _, bridge. split; [exact Hrun|].
  assert (Hbsub : bridge ∈ node_ids sub) by (by eapply list_elem_of_lookup_2).
  assert (HRsub : R ∉ node_ids sub).
  { intros Hin. apply (Hfresh R Hin). by apply occurs_room. }
  unfold node_ids at 1 3. simpl. rewrite !fmap_app, splice_id.
  fold (node_ids sub).
  split_and!.
  - rewrite not_elem_of_app. split; [|done].
    intros (n & Hid & Hn)%list_elem_of_fmap.
    apply list_elem_of_filter in Hn as [Hne _]. by destruct Hne.
  - done.
  - apply elem_of_app. by right.
  - intros x m Hx. unfold linked. simpl. split.
    + intros (l & Hl & Hj & Hm).
      apply elem_of_app in Hl as [Hl|Hl];
        [|apply elem_of_app in Hl as [Hl|Hl]].
      * apply list_elem_of_filter in Hl as [_ Hl].
        destruct (Hfresh bridge Hbsub). apply (occurs_touches _ _ l Hl).
        unfold joins, touches in *. intuition congruence.
      * destruct Hx. eapply generate_links_closed; [exact Hsub|exact Hl|].
        unfold joins, touches in *. intuition congruence.
      * apply list_elem_of_fmap in Hl as (old & -> & Hold).
        apply list_elem_of_filter in Hold as [Htouch Hold].
        exists old. split; [done|]. split; [|done].
        apply (reattach_joins R bridge old x); [done|congruence|done].
    + intros (old & Hold & Hj & Hm).
      assert (Htouch : touches R old).
      { unfold joins, touches in *. intuition congruence. }
      exists (reattach R bridge old). split_and!.
      * rewrite !elem_of_app. right. right.
        apply list_elem_of_fmap_2. by apply list_elem_of_filter.
      * apply reattach_joins; [done|congruence|done].
      * done.
  - intros n Hn Hne. apply elem_of_app. left. by apply list_elem_of_filter.
  - intros l Hl Hnt. apply elem_of_app. left. by apply list_elem_of_filter.
Qed.

(** C1. Let [R] be a room of [g] and let the six identifiers that the
    generator draws be different from each other and not in use in [g].
    Then [replaceNodeWithDungeon] returns a graph without a room [R] and
    the identifier of the bridge room, the first one drawn, which is a room
    of that graph; for every identifier [x] outside the new unit, the
    bridge room has a link to [x] with given connection type, description
    and clue room exactly when [R] had one in [g]; and the rooms other than
    [R] and the links that do not touch [R] are still there. *)
Theorem replaceNodeWithDungeon_preserves g R r :
  R ∈ node_ids g →
  NoDup (drawnIds None r) →
  (∀ x, x ∈ drawnIds None r → ¬ occurs x g) →
  ∃ g' bridge r1,
    replaceNodeWithDungeon g R r = Ok ((g', bridge), r1) ∧
    (R ∉ node_ids g') ∧
    drawnIds None r !! 0%nat = Some bridge ∧
    bridge ∈ node_ids g' ∧
    (∀ x m, x ∉ drawnIds None r → linked g' bridge x m ↔ linked g R x m) ∧
    (∀ n, n ∈ nodes g → id n ≠ R → n ∈ nodes g') ∧
    (∀ l, l ∈ links g → ¬ touches R l → l ∈ links g').
Proof.
  intros HR Hnd Hfresh.
  destruct (generate_returns None r I Hnd) as (sub & r1 & Hsub).
  pose proof (generate_drawn None r sub r1 Hsub) as Hids.
  rewrite <- Hids in *.
  destruct (replace_preserves_unit g R r sub r1 HR Hsub Hfresh)
    as (g' & bridge & Hrun).
  by exists g', bridge, r1.
Qed.

Lemma replaceNodeWithDungeon_preserves_witness :
  ∃ g' bridge r1,
    replaceNodeWithDungeon CLUE_GRAPH "r" SAMPLE_RNG = Ok ((g', bridge), r1) ∧
    ("r" ∉ node_ids g') ∧ bridge = "room-i" ∧
    linked g' bridge "a" (secret, Some "behind the altar", Some "r").
Proof.
  assert (Hids : drawnIds None SAMPLE_RNG
                 = ["room-i"; "room-9"; "room-r"; "room-4i"; "room-di";
                    "room-mi"]) by (vm_compute; reflexivity).
  destruct (replaceNodeWithDungeon_preserves CLUE_GRAPH "r" SAMPLE_RNG)
    as (g' & bridge & r1 & Hrun & HR & Hb & _ & Hlinked & _).
  - by_computation.
  - rewrite Hids. by_computation.
  - rewrite Hids. apply Forall_forall. unfold occurs. by_computation.
  - exists g', bridge, r1. rewrite Hids in Hb, Hlinked. injection Hb as <-.
    split_and!; [exact Hrun|exact HR|reflexivity|].
    apply Hlinked; [by_computation|].
    exists (mkLink "r" "a" secret (Some "behind the altar") (Some "r")).
    split_and!; [by_computation|left; split; reflexivity|reflexivity].
Defined.

(** C1 as specified fails when a drawn identifier is in use: the code does
    not compare the identifiers that it draws with those of the graph or
    with each other. Replacing "room-i" in a graph while the first
    identifier drawn is "room-i" again returns a graph that still has a
    room "room-i"; and when all six draws give the same identifier the
    generator throws, so that nothing is returned. *)
Lemma replaceNodeWithDungeon_taken_identifier :
  "room-i" ∈ node_ids TAKEN_GRAPH ∧
  (∃ g' r',
     replaceNodeWithDungeon TAKEN_GRAPH "room-i" SAMPLE_RNG
     = Ok ((g', "room-i"), r') ∧
     "room-i" ∈ node_ids g') ∧
  replaceNodeWithDungeon TAKEN_GRAPH "room-i" (λ _, 0) = Err DuplicateEdge.
Proof.
  split; [by_computation|]. split; [|vm_compute; reflexivity].
  destruct (replaceNodeWithDungeon TAKEN_GRAPH "room-i" SAMPLE_RNG)
    as [[[g' b] r']|] eqn:Hrun; [|by vm_compute in Hrun].
  assert (b = "room-i" ∧ "room-i" ∈ node_ids g') as [-> Hin].
  { pose proof (f_equal (λ x, match x with
                              | Ok ((g, b), _) =>
                                  Some (b, bool_decide ("room-i" ∈ node_ids g))
                              | Err _ => None
                              end) Hrun) as Hval.
    cbn beta in Hval.
    assert (match replaceNodeWithDungeon TAKEN_GRAPH "room-i" SAMPLE_RNG with
            | Ok ((g, b), _) => Some (b, bool_decide ("room-i" ∈ node_ids g))
            | Err _ => None
            end = Some ("room-i", true)) as Hcomp by (vm_compute; reflexivity).
    rewrite Hcomp in Hval. injection Hval as Hb Hmem.
    split; [done|]. by apply (bool_decide_eq_true_1 _). }
  by exists g', r'.
Qed.

(** The link that takes the place of a link of [R] keeps its clue room. *)
Lemma replace_dangling_unit g R A r sub r1 old :
  R ∈ node_ids g →
  old ∈ links g → joins R A old → connectionType old = secret →
  clueRoomId old = Some R →
  generateBiteSizedDungeon None r = Ok (sub, r1) →
  R ∉ node_ids sub →
  ∃ g' bridge l,
    replaceNodeWithDungeon g R r = Ok ((g', bridge), r1) ∧
    l ∈ links g' ∧ source l = bridge ∧ connectionType l = secret ∧
    clueRoomId l = Some R ∧ (R ∉ node_ids g') ∧ joins bridge A l.
Proof.
  intros HR Hold Hj Hsecret Hclue Hsub HRsub.
  destruct (replace_run g R r sub r1 HR Hsub) as (node & bridge & Hb & Hrun).
  assert (Htouch : touches R old).
  { unfold joins, touches in *. intuition congruence. }
  eexists _, bridge, (reattach R bridge old). split; [exact Hrun|].
  simpl. split_and!; try done.
  - rewrite !elem_of_app. right. right.
    apply list_elem_of_fmap_2. by apply list_elem_of_filter.
  - unfold node_ids. simpl. rewrite fmap_app, splice_id.
    rewrite not_elem_of_app. split; [|done].
    intros (n & Hid & Hn)%list_elem_of_fmap.
    apply list_elem_of_filter in Hn as [Hne _]. by destruct Hne.
  - by apply reattach_joins_old.
Qed.

(** C10. When [R] is replaced and some secret link of [R] names [R] itself
    as its clue room, the link that takes its place at the bridge room
    still names [R], which is no room of the returned graph: the clue room
    is copied as it is. *)
Theorem replaceNodeWithDungeon_dangling_clue g R A r old :
  R ∈ node_ids g →
  old ∈ links g → joins R A old → connectionType old = secret →
  clueRoomId old = Some R →
  NoDup (drawnIds None r) → R ∉ drawnIds None r →
  ∃ g' bridge l r1,
    replaceNodeWithDungeon g R r = Ok ((g', bridge), r1) ∧
    l ∈ links g' ∧ source l = bridge ∧ connectionType l = secret ∧
    clueRoomId l = Some R ∧ (R ∉ node_ids g') ∧ joins bridge A l.
Proof.
  intros HR Hold Hj Hsecret Hclue Hnd HRfresh.
  destruct (generate_returns None r I Hnd) as (sub & r1 & Hsub).
  pose proof (generate_drawn None r sub r1 Hsub) as Hids.
  rewrite <- Hids in HRfresh.
  destruct (replace_dangling_unit g R A r sub r1 old
              HR Hold Hj Hsecret Hclue Hsub HRfresh)
    as (g' & bridge & l & Hrun).
  by exists g', bridge, l, r1.
Qed.

Lemma replaceNodeWithDungeon_dangling_clue_witness :
  ∃ g' bridge l r1,
    replaceNodeWithDungeon CLUE_GRAPH "r" SAMPLE_RNG = Ok ((g', bridge), r1) ∧
    l ∈ links g' ∧ source l = bridge ∧ connectionType l = secret ∧
    clueRoomId l = Some "r" ∧ ("r" ∉ node_ids g') ∧ joins bridge "a" l.
Proof.
  assert (Hids : drawnIds None SAMPLE_RNG
                 = ["room-i"; "room-9"; "room-r"; "room-4i"; "room-di";
                    "room-mi"]) by (vm_compute; reflexivity).
  apply (replaceNodeWithDungeon_dangling_clue CLUE_GRAPH "r" "a" SAMPLE_RNG
           (mkLink "r" "a" secret (Some "behind the altar") (Some "r"))).
  - by_computation.
  - by_computation.
  - left. split; reflexivity.
  - reflexivity.
  - reflexivity.
  - rewrite Hids. by_computation.
  - rewrite Hids. by_computation.
Defined.


(** ** Adjacency lists *)

Lemma neighbours_adjacent es u w : w ∈ neighbours es u ↔ adjacent es u w.
Proof.
  unfold neighbours, adjacent. rewrite list_elem_of_In, in_flat_map. split.
  - intros ([a b] & Hin & Hw). apply list_elem_of_In in Hin. simpl in Hw.
    apply in_app_or in Hw as [Hw|Hw]; case_decide; try done;
      destruct Hw as [<-|[]]; subst; auto.
  - intros [Hin|Hin]; apply list_elem_of_In in Hin.
    + exists (u, w). split; [done|]. simpl. rewrite decide_True by done.
      by left.
    + exists (w, u). split; [done|]. simpl. apply in_or_app. right.
      rewrite decide_True by done. by left.
Qed.

Lemma emptyAdj_lookup nodeIds u :
  emptyAdj nodeIds !! u = if decide (u ∈ nodeIds) then Some [] else None.
Proof.
  unfold emptyAdj.
  assert (H : ∀ adj0 : gmap string (list string),
             foldl (λ adj i, <[i := []]> adj) adj0 nodeIds !! u
             = if decide (u ∈ nodeIds) then Some [] else adj0 !! u).
  { induction nodeIds as [|i nodeIds IH]; intros adj0; cbn [foldl].
    - case_decide as Hin; [by apply elem_of_nil in Hin|done].
    - rewrite IH. destruct (decide (u ∈ nodeIds)) as [Hin|Hnin];
        destruct (decide (u ∈ i :: nodeIds)) as [Hin'|Hnin']; try done.
      + destruct Hnin'. by right.
      + apply elem_of_cons in Hin' as [->|?]; [|done].
        by rewrite lookup_insert_eq.
      + apply lookup_insert_ne. intros ->. destruct Hnin'. by left. }
  rewrite H. by destruct (decide (u ∈ nodeIds)).
Qed.

Lemma pushAdj_lookup adj a b l :
  adj !! a = Some l →
  ∃ adj1, pushAdj adj a b = Ok adj1 ∧
    ∀ u, adj1 !! u
         = (λ old, old ++ if decide (a = u) then [b] else []) <$> adj !! u.
Proof.
  intros Ha. unfold pushAdj. rewrite Ha. eexists. split; [done|].
  intros u. destruct (decide (a = u)) as [<-|Hne].
  - by rewrite lookup_insert_eq, Ha.
  - rewrite lookup_insert_ne by done. destruct (adj !! u); simpl; [|done].
    by rewrite app_nil_r.
Qed.

(** When the ends of the links that are kept have an entry, the loop fills
    the entries with the adjacency lists of the kept links. *)
Lemma buildAdj_lookup skip es adj :
  (∀ e, e ∈ es → skip e = false → is_Some (adj !! e.1) ∧ is_Some (adj !! e.2)) →
  ∃ adj', buildAdj skip es adj = Ok adj' ∧
    ∀ u, adj' !! u
         = (λ old, old ++ neighbours (filter (λ e, skip e = false) es) u)
             <$> adj !! u.
Proof.
  revert adj. induction es as [|[a b] es IH]; intros adj Hdom; simpl.
  - eexists. split; [done|]. intros u. unfold neighbours. simpl.
    destruct (adj !! u); simpl; [|done]. by rewrite app_nil_r.
  - destruct (skip (a, b)) eqn:Hskip.
    + destruct (IH adj) as (adj' & Hrun & Hlook).
      { intros e He. apply Hdom. by right. }
      exists adj'. split; [done|]. intros u. rewrite Hlook.
      rewrite filter_cons_False; [done|]. by rewrite Hskip.
    + destruct (Hdom (a, b)) as [[la Hla] [lb Hlb]]; [by left|done|].
      simpl in Hla, Hlb.
      destruct (pushAdj_lookup adj a b la Hla) as (adj1 & Hrun1 & Hlook1).
      assert (is_Some (adj1 !! b)) as [lb1 Hlb1].
      { rewrite Hlook1, Hlb. by eexists. }
      destruct (pushAdj_lookup adj1 b a lb1 Hlb1) as (adj2 & Hrun2 & Hlook2).
      destruct (IH adj2) as (adj' & Hrun & Hlook).
      { intros e He Hk. destruct (Hdom e) as [H1 H2]; [by right|done|].
        rewrite !Hlook2, !Hlook1. split; by apply fmap_is_Some, fmap_is_Some. }
      exists adj'. split.
      * simpl. rewrite Hrun1. simpl. rewrite Hrun2. simpl. exact Hrun.
      * intros u. rewrite Hlook, Hlook2, Hlook1.
        rewrite filter_cons_True by done.
        destruct (adj !! u) as [old|]; simpl; [|done]. f_equal.
        unfold neighbours. simpl. by rewrite <- !app_assoc.
Qed.

Lemma buildAdj_closed skip nodeIds es :
  closed_links nodeIds es →
  ∃ adj, buildAdj skip es (emptyAdj nodeIds) = Ok adj ∧
    ∀ u, default [] (adj !! u)
         = neighbours (filter (λ e, skip e = false) es) u
    ∧ (u ∈ nodeIds → adj !! u
         = Some (neighbours (filter (λ e, skip e = false) es) u)).
Proof.
  intros Hclosed.
  destruct (buildAdj_lookup skip es (emptyAdj nodeIds)) as (adj & Hrun & Hlook).
  { intros e He _. destruct (Hclosed e He) as [H1 H2].
    rewrite !emptyAdj_lookup, !decide_True by done. split; by eexists. }
  exists adj. split; [done|]. intros u. rewrite Hlook, emptyAdj_lookup.
  destruct (decide (u ∈ nodeIds)) as [Hin|Hnin]; simpl; [done|].
  split; [|done]. symmetry. apply elem_of_nil_inv. intros w Hw.
  apply neighbours_adjacent in Hw. destruct Hnin.
  destruct Hw as [Hw|Hw]; apply list_elem_of_filter in Hw as [_ Hw];
    by destruct (Hclosed _ Hw).
Qed.

(** ** The breadth-first search of the bridge test *)

(** The inner loop adds the neighbours that are new, once each, to the
    visited set and to the end of the queue. *)
Lemma visitAll_spec nbrs visited queue :
  ∃ new,
    visitAll nbrs visited queue = (visited ∪ list_to_set new, queue ++ new) ∧
    NoDup new ∧ ∀ x, x ∈ new ↔ x ∈ nbrs ∧ x ∉ visited.
Proof.
  revert visited queue.
  induction nbrs as [|nid rest IH]; intros visited queue; simpl.
  - exists []. split_and!.
    + f_equal; [|by rewrite app_nil_r].
      apply set_eq. intros x. rewrite elem_of_union, elem_of_list_to_set.
      split; [by left|]. intros [?|?%elem_of_nil]; done.
    + constructor.
    + intros x. split; [by intros ?%elem_of_nil|by intros [?%elem_of_nil _]].
  - case_bool_decide as Hvis.
    + destruct (IH visited queue) as (new & Hrun & Hnd & Hnew).
      exists new. split_and!; [done|done|]. intros x. rewrite Hnew.
      rewrite elem_of_cons. split; [tauto|]. intros [[->|?] ?]; done.
    + destruct (IH ({[nid]} ∪ visited) (queue ++ [nid]))
        as (new & Hrun & Hnd & Hnew).
      exists (nid :: new). split_and!.
      * rewrite Hrun. f_equal; [|by rewrite <- app_assoc].
        apply set_eq. intros x.
        rewrite list_to_set_cons, !elem_of_union. tauto.
      * constructor; [|done]. rewrite Hnew. intros [_ Hx]. apply Hx.
        apply elem_of_union. left. by apply elem_of_singleton.
      * intros x. rewrite !elem_of_cons, Hnew, not_elem_of_union,
          not_elem_of_singleton.
        destruct (decide (x = nid)) as [->|Hne]; tauto.
Qed.

Section Search.
Context (es : list (string * string)) (adj : gmap string (list string)).
Context (U : gset string) (s : string).
Hypothesis Hadj : ∀ i, default [] (adj !! i) = neighbours es i.
Hypothesis HU : ∀ i x, x ∈ neighbours es i → x ∈ U.

Lemma search_inv_step visited i queue new :
  search_inv es U s visited (i :: queue) →
  NoDup new → (∀ x, x ∈ new ↔ x ∈ neighbours es i ∧ x ∉ visited) →
  search_inv es U s (visited ∪ list_to_set new) (queue ++ new) ∧
  (size (U ∖ (visited ∪ list_to_set new)) + length new
   = size (U ∖ visited))%nat.
Proof.
  intros (Hnd & Hq & Hsub & Hs & Hsound & Hclosed) Hndnew Hnew.
  apply NoDup_cons in Hnd as [Hi Hnd].
  assert (Hivis : i ∈ visited) by (apply Hq; by left).
  split; [split_and!|].
  - apply NoDup_app. split_and!; [done| |done].
    intros x Hx Hx'. apply Hnew in Hx' as [_ Hx']. apply Hx', Hq. by right.
  - intros q [Hin|Hin]%elem_of_app; apply elem_of_union.
    + left. apply Hq. by right.
    + right. by apply elem_of_list_to_set.
  - intros x [Hx|Hx]%elem_of_union; [by apply Hsub|].
    apply elem_of_list_to_set, Hnew in Hx as [Hx _]. by eapply HU.
  - apply elem_of_union. by left.
  - intros v [Hv|Hv]%elem_of_union; [by apply Hsound|].
    apply elem_of_list_to_set, Hnew in Hv as [Hv _].
    eapply reach_step; [by apply Hsound|]. by apply neighbours_adjacent.
  - intros u w Hu Hnq Hadjuw. rewrite elem_of_app in Hnq.
    apply elem_of_union in Hu as [Hu|Hu].
    + destruct (decide (u = i)) as [->|Hne].
      * destruct (decide (w ∈ visited)) as [Hw|Hw];
          apply elem_of_union; [by left|right].
        apply elem_of_list_to_set, Hnew. split; [|done].
        by apply neighbours_adjacent.
      * apply elem_of_union. left. apply (Hclosed u w); [done| |done].
        intros [?|?]%elem_of_cons; [done|]. apply Hnq. by left.
    + destruct Hnq. right. by apply elem_of_list_to_set in Hu.
  - rewrite <- (size_list_to_set (C := gset string) new) by done.
    rewrite <- size_union.
    + f_equal. apply set_eq. intros x.
      rewrite !elem_of_union, !elem_of_difference, elem_of_union,
        elem_of_list_to_set, Hnew.
      split.
      * intros [[HxU Hx]|[Hx Hxv]]; [tauto|]. split; [|done]. by eapply HU.
      * intros [HxU Hxv]. destruct (decide (x ∈ neighbours es i)); tauto.
    + intros x Hx1 Hx2. apply elem_of_difference in Hx1 as [_ Hx1].
      apply Hx1, elem_of_union. by right.
Qed.

Lemma bfs_spec fuel visited queue :
  search_inv es U s visited queue →
  (size (U ∖ visited) + length queue ≤ fuel)%nat →
  ∃ final, bfs fuel adj visited queue = Ok final ∧
    ∀ v, v ∈ final ↔ reach es s v.
Proof.
  revert visited queue.
  induction fuel as [|fuel IH]; intros visited queue Hinv Hfuel.
  - destruct queue as [|i queue]; [|simpl in Hfuel; lia].
    exists visited. split; [done|].
    destruct Hinv as (_ & _ & _ & Hs & Hsound & Hclosed).
    intros v. split; [by apply Hsound|].
    induction 1 as [|w x _ IHw Hwx]; [done|].
    eapply Hclosed; [exact IHw|apply not_elem_of_nil|done].
  - destruct queue as [|i queue].
    + exists visited. split; [done|].
      destruct Hinv as (_ & _ & _ & Hs & Hsound & Hclosed).
      intros v. split; [by apply Hsound|].
      induction 1 as [|w x _ IHw Hwx]; [done|].
      eapply Hclosed; [exact IHw|apply not_elem_of_nil|done].
    + simpl. rewrite Hadj.
      destruct (visitAll_spec (neighbours es i) visited queue)
        as (new & Hrun & Hnd & Hnew).
      rewrite Hrun.
      destruct (search_inv_step visited i queue new Hinv Hnd Hnew)
        as [Hinv' Hsize].
      apply IH; [done|]. rewrite length_app. simpl in Hfuel. lia.
Qed.
End Search.

(** ** Bridge links *)

Lemma size_list_to_set_le (l : list string) :
  (size (list_to_set l : gset string) ≤ length l)%nat.
Proof.
  induction l as [|x l IH].
  - by rewrite list_to_set_nil, size_empty.
  - rewrite list_to_set_cons, size_union_alt, size_singleton. simpl.
    assert (size (list_to_set l ∖ {[x]} : gset string)
            ≤ size (list_to_set l : gset string))%nat; [|lia].
    apply subseteq_size. intros y Hy. by apply elem_of_difference in Hy as [? _].
Qed.

Lemma size_without (U : gset string) s :
  s ∈ U → (size (U ∖ {[s]}) + 1 = size U)%nat.
Proof.
  intros Hs. rewrite size_difference.
  - rewrite size_singleton. assert (size U ≠ 0)%nat; [|lia].
    intros Hz. apply size_empty_inv in Hz.
    apply Hz in Hs. by apply not_elem_of_empty in Hs.
  - by intros x ->%elem_of_singleton.
Qed.

Lemma withoutPair_closed nodeIds links s t i x :
  closed_links nodeIds links →
  x ∈ neighbours (withoutPair s t links) i →
  x ∈ (list_to_set nodeIds : gset string).
Proof.
  intros Hclosed Hx. apply elem_of_list_to_set.
  apply neighbours_adjacent in Hx.
  destruct Hx as [Hx|Hx]; apply list_elem_of_filter in Hx as [_ Hx];
    by destruct (Hclosed _ Hx).
Qed.

(** The test of one link: enough fuel gives an answer, and the answer is
    that no walk joins the two ends once the links between them are left
    out. *)
Lemma isBridge_spec fuel nodeIds links s t :
  closed_links nodeIds links → s ∈ nodeIds → (length nodeIds ≤ fuel)%nat →
  ∃ b, isBridge fuel nodeIds links s t = Ok b ∧
    (b = true ↔ ¬ reach (withoutPair s t links) s t) ∧
    (b = false ↔ reach (withoutPair s t links) s t).
Proof.
  intros Hclosed Hs Hfuel.
  destruct (buildAdj_closed (samePair s t) nodeIds links Hclosed)
    as (adj & Hadj & Hlook).
  destruct (bfs_spec (withoutPair s t links) adj (list_to_set nodeIds) s)
    with (fuel := fuel) (visited := ({[s]} : gset string)) (queue := [s])
    as (final & Hrun & Hfinal).
  - intros i. apply Hlook.
  - intros i x. by apply withoutPair_closed.
  - split_and!.
    + apply NoDup_singleton.
    + intros q ->%list_elem_of_singleton. by apply elem_of_singleton.
    + intros x ->%elem_of_singleton. by apply elem_of_list_to_set.
    + by apply elem_of_singleton.
    + intros v ->%elem_of_singleton. constructor.
    + intros u w ->%elem_of_singleton Hu. destruct Hu. by left.
  - pose proof (size_list_to_set_le nodeIds).
    pose proof (size_without (list_to_set nodeIds) s) as Hsz.
    rewrite elem_of_list_to_set in Hsz. specialize (Hsz Hs). simpl. lia.
  - exists (negb (bool_decide (t ∈ final))). split.
    + unfold isBridge. rewrite Hadj. simpl. by rewrite Hrun.
    + rewrite negb_true_iff, negb_false_iff, bool_decide_eq_false,
        bool_decide_eq_true. by rewrite Hfinal.
Qed.

Lemma bridgeLoop_spec fuel nodeIds links todo bridgeKeys :
  closed_links nodeIds links → (length nodeIds ≤ fuel)%nat →
  (∀ e, e ∈ todo → e ∈ links) →
  ∃ keys, bridgeLoop fuel nodeIds links todo bridgeKeys = Ok keys ∧
    ∀ k, k ∈ keys ↔
         k ∈ bridgeKeys
         ∨ ∃ s t, (s, t) ∈ todo ∧ k = norm s t
                  ∧ isBridge fuel nodeIds links s t = Ok true.
Proof.
  intros Hclosed Hfuel. revert bridgeKeys.
  induction todo as [|[s t] todo IH]; intros bridgeKeys Hsub; simpl.
  - exists bridgeKeys. split; [done|]. intros k. split; [by left|].
    intros [?|(s & t & Hin & _)]; [done|]. by apply elem_of_nil in Hin.
  - destruct (isBridge_spec fuel nodeIds links s t) as (b & Hb & _);
      [done| |done|].
    { apply (Hclosed (s, t)), Hsub. by left. }
    rewrite Hb. simpl.
    destruct (IH (if b then {[norm s t]} ∪ bridgeKeys else bridgeKeys))
      as (keys & Hrun & Hkeys).
    { intros e He. apply Hsub. by right. }
    exists keys. split; [done|]. intros k. rewrite Hkeys. split.
    + intros [Hk|(s' & t' & Hin & Hk & Hmark)].
      * destruct b; [|by left].
        apply elem_of_union in Hk as [->%elem_of_singleton|Hk]; [|by left].
        right. exists s, t. split_and!; [by left|done|done].
      * right. exists s', t'. split_and!; [by right|done|done].
    + intros [Hk|(s' & t' & Hin & Hk & Hmark)].
      * left. destruct b; [|done]. apply elem_of_union. by right.
      * apply elem_of_cons in Hin as [[= -> ->]|Hin].
        -- left. rewrite Hmark in Hb. injection Hb as <-.
           apply elem_of_union. left. by apply elem_of_singleton.
        -- right. by exists s', t'.
Qed.

(** What the search computes. On a graph whose links end at its nodes, and
    with fuel for one turn of the search per node, [getBridgeLinkKeys]
    returns the keys of the marked links; a link is marked exactly when no
    walk joins its two ends once every link between these two ends, in
    either direction, is left out; a self-loop is never marked. *)
Theorem getBridgeLinkKeys_pairs fuel nodeIds links :
  closed_links nodeIds links → (length nodeIds ≤ fuel)%nat →
  ∃ bridgeKeys,
    getBridgeLinkKeys fuel nodeIds links = Ok bridgeKeys ∧
    (∀ k, k ∈ bridgeKeys ↔
          ∃ s t, (s, t) ∈ links ∧ k = norm s t
                 ∧ isBridge fuel nodeIds links s t = Ok true) ∧
    (∀ s t, (s, t) ∈ links →
       (isBridge fuel nodeIds links s t = Ok true
        ↔ ¬ reach (withoutPair s t links) s t) ∧
       (isBridge fuel nodeIds links s t = Ok false
        ↔ reach (withoutPair s t links) s t)) ∧
    (∀ s, (s, s) ∈ links → isBridge fuel nodeIds links s s = Ok false).
Proof.
  intros Hclosed Hfuel.
  destruct (bridgeLoop_spec fuel nodeIds links links ∅ Hclosed Hfuel)
    as (keys & Hrun & Hkeys); [done|].
  assert (Hlink : ∀ s t, (s, t) ∈ links →
            (isBridge fuel nodeIds links s t = Ok true
             ↔ ¬ reach (withoutPair s t links) s t) ∧
            (isBridge fuel nodeIds links s t = Ok false
             ↔ reach (withoutPair s t links) s t)).
  { intros s t Hin.
    destruct (isBridge_spec fuel nodeIds links s t)
      as (b & Hb & Htrue & Hfalse); [done|by apply (Hclosed (s, t))|done|].
    rewrite Hb, <- Htrue, <- Hfalse.
    split; split; intros H; congruence. }
  exists keys. split_and!; [done| |done|].
  - intros k. rewrite Hkeys. split; [|by right].
    intros [Hk|?]; [|done]. by apply not_elem_of_empty in Hk.
  - intros s Hin. apply Hlink; [done|]. constructor.
Qed.

Lemma closed_links_Forall nodeIds links :
  Forall (λ e : string * string, e.1 ∈ nodeIds ∧ e.2 ∈ nodeIds) links →
  closed_links nodeIds links.
Proof. intros H e He. by apply (proj1 (Forall_forall _ _) H). Qed.

Lemma getBridgeLinkKeys_pairs_witness :
  ∃ bridgeKeys,
    getBridgeLinkKeys 5 SQUARE_NODES SQUARE_LINKS = Ok bridgeKeys ∧
    (∀ k, k ∈ bridgeKeys ↔
          ∃ s t, (s, t) ∈ SQUARE_LINKS ∧ k = norm s t
                 ∧ isBridge 5 SQUARE_NODES SQUARE_LINKS s t = Ok true) ∧
    (∀ s t, (s, t) ∈ SQUARE_LINKS →
       (isBridge 5 SQUARE_NODES SQUARE_LINKS s t = Ok true
        ↔ ¬ reach (withoutPair s t SQUARE_LINKS) s t) ∧
       (isBridge 5 SQUARE_NODES SQUARE_LINKS s t = Ok false
        ↔ reach (withoutPair s t SQUARE_LINKS) s t)) ∧
    (∀ s, (s, s) ∈ SQUARE_LINKS →
       isBridge 5 SQUARE_NODES SQUARE_LINKS s s = Ok false).
Proof.
  apply (getBridgeLinkKeys_pairs 5 SQUARE_NODES SQUARE_LINKS).
  - apply closed_links_Forall. by_computation.
  - simpl. lia.
Defined.

(** On the square with a pendant link, the pendant link is the only one
    whose key is returned. *)
Example getBridgeLinkKeys_square :
  getBridgeLinkKeys 5 SQUARE_NODES SQUARE_LINKS = Ok {["a-e"]}.
Proof. vm_compute. reflexivity. Qed.

(** C5. The code against its own description ("Link is a bridge if
    removing it would disconnect the graph"): when two links join "a" and
    "b", the search leaves both out together, does not reach "b" from "a",
    and returns the key, although removing either link alone leaves the
    other one to join "a" and "b" and disconnects nothing. *)
Lemma getBridgeLinkKeys_parallel_links :
  getBridgeLinkKeys 2 ["a"; "b"] PARALLEL_LINKS = Ok {["a-b"]} ∧
  isBridge 2 ["a"; "b"] PARALLEL_LINKS "a" "b" = Ok true ∧
  reach (delete 0%nat PARALLEL_LINKS) "a" "b" ∧
  reach (delete 1%nat PARALLEL_LINKS) "a" "b".
Proof.
  split_and!; [vm_compute; reflexivity..| |];
    (eapply reach_step; [constructor|left; by left]).
Qed.

(** ** Depths from the entrances *)

(** The inner loop labels the neighbours that have no label yet with [d]
    and puts them, once each, at the end of [next]. *)
Lemma labelNeighbours_spec d nbrs depths next :
  ∃ depths' new,
    labelNeighbours d nbrs depths next = (depths', next ++ new) ∧
    (∀ x, x ∈ new ↔ x ∈ nbrs ∧ depths !! x = None) ∧
    (∀ x j, depths !! x = Some j → depths' !! x = Some j) ∧
    (∀ x, depths !! x = None →
          depths' !! x = if decide (x ∈ nbrs) then Some d else None).
Proof.
  revert depths next.
  induction nbrs as [|nid rest IH]; intros depths next;
    cbn [labelNeighbours].
  - exists depths, []. rewrite app_nil_r. split_and!; [done| |done|].
    + intros x. split; [by intros ?%elem_of_nil|by intros [?%elem_of_nil _]].
    + intros x Hx. rewrite decide_False; [done|apply not_elem_of_nil].
  - destruct (depths !! nid) as [j|] eqn:Hnid.
    + destruct (IH depths next) as (depths' & new & Hrun & Hnew & Hold & Hnone).
      exists depths', new. split_and!; [done| |done|].
      * intros x. rewrite Hnew, elem_of_cons. split; [tauto|].
        intros [[->|?] Hx]; [congruence|done].
      * intros x Hx. rewrite (Hnone x Hx).
        destruct (decide (x ∈ rest)) as [Hin|Hnin].
        -- rewrite decide_True; [done|by right].
        -- rewrite decide_False; [done|].
           intros [->|?]%elem_of_cons; [congruence|done].
    + destruct (IH (<[nid := d]> depths) (next ++ [nid]))
        as (depths' & new & Hrun & Hnew & Hold & Hnone).
      exists depths', (nid :: new). split_and!.
      * rewrite Hrun. by rewrite <- app_assoc.
      * intros x. rewrite !elem_of_cons, Hnew.
        destruct (decide (x = nid)) as [->|Hne].
        -- split; [by intros _; split; [left|]|by left].
        -- rewrite lookup_insert_ne by done. split; [|tauto].
           intros [?|[? ?]]; [done|]. by split; [right|].
      * intros x j Hx. apply Hold. rewrite lookup_insert_ne; [done|].
        intros ->. congruence.
      * intros x Hx. destruct (decide (x = nid)) as [->|Hne].
        -- rewrite decide_True by (by left). apply Hold, lookup_insert_eq.
        -- rewrite Hnone by (by rewrite lookup_insert_ne).
           destruct (decide (x ∈ rest)) as [Hin|Hnin].
           ++ rewrite decide_True; [done|by right].
           ++ rewrite decide_False; [done|].
              intros [->|?]%elem_of_cons; done.
Qed.

(** One layer: when the frontier holds identifiers labelled [k] that have
    their adjacency lists, the unlabelled neighbours of the frontier get the
    label [k + 1] and make up the next frontier. *)
Lemma expandFrontier_spec es adj k frontier depths next :
  (∀ i, i ∈ frontier →
        depths !! i = Some k ∧ adj !! i = Some (neighbours es i)) →
  ∃ depths' new,
    expandFrontier adj frontier depths next = Ok (depths', next ++ new) ∧
    (∀ x, x ∈ new ↔
          depths !! x = None ∧ ∃ i, i ∈ frontier ∧ adjacent es i x) ∧
    (∀ x j, depths !! x = Some j → depths' !! x = Some j) ∧
    (∀ x, depths !! x = None →
          depths' !! x = if decide (x ∈ new) then Some (S k) else None).
Proof.
  revert depths next.
  induction frontier as [|i rest IH]; intros depths next Hfront;
    cbn [expandFrontier].
  - exists depths, []. rewrite app_nil_r. split_and!; [done| |done|].
    + intros x. split; [by intros ?%elem_of_nil|].
      intros [_ (i & Hi & _)]. by apply elem_of_nil in Hi.
    + intros x Hx. rewrite decide_False; [done|apply not_elem_of_nil].
  - destruct (Hfront i) as [Hk Hadj]; [by left|]. rewrite Hk, Hadj.
    replace (default 0 (Some k) + 1)%nat with (S k) by (simpl; lia).
    destruct (labelNeighbours_spec (S k) (neighbours es i) depths next)
      as (depths1 & new1 & Hrun1 & Hnew1 & Hold1 & Hnone1).
    rewrite Hrun1.
    destruct (IH depths1 (next ++ new1))
      as (depths' & new2 & Hrun & Hnew2 & Hold2 & Hnone2).
    { intros i' Hi'. destruct (Hfront i') as [Hk' Hadj']; [by right|].
      split; [by apply Hold1|done]. }
    exists depths', (new1 ++ new2). split_and!.
    + rewrite Hrun. by rewrite <- app_assoc.
    + intros x. rewrite elem_of_app, Hnew1, Hnew2, neighbours_adjacent.
      split.
      * intros [[Hadjx Hx]|[Hx1 (i' & Hi' & Hadjx)]].
        -- split; [done|]. exists i. split; [by left|done].
        -- split; [|exists i'; split; [by right|done]].
           destruct (depths !! x) as [j|] eqn:Hx; [|done].
           by rewrite (Hold1 x j Hx) in Hx1.
      * intros [Hx (i' & Hi' & Hadjx)].
        destruct (decide (x ∈ neighbours es i)) as [Hix|Hnix].
        { left. by rewrite <- neighbours_adjacent. }
        right. split.
        -- by rewrite (Hnone1 x Hx), decide_False.
        -- exists i'. split; [|done].
           apply elem_of_cons in Hi' as [->|?]; [|done].
           destruct Hnix. by apply neighbours_adjacent.
    + intros x j Hx. by apply Hold2, Hold1.
    + intros x Hx. pose proof (Hnone1 x Hx) as Hx1'.
      destruct (decide (x ∈ neighbours es i)) as [Hin|Hnin].
      * rewrite (Hold2 x (S k)) by done.
        rewrite decide_True; [done|]. apply elem_of_app. left.
        by apply Hnew1.
      * rewrite (Hnone2 x Hx1').
        destruct (decide (x ∈ new2)) as [Hin2|Hnin2].
        -- rewrite decide_True; [done|]. apply elem_of_app. by right.
        -- rewrite decide_False; [done|].
           intros [H1|H2]%elem_of_app; [|done].
           apply Hnew1 in H1 as [? _]. done.
Qed.

Section Depths.
Context (es : list (string * string)) (nodeIds roots : list string).
Context (adj : gmap string (list string)).
Hypothesis Hclosed : closed_links nodeIds es.
Hypothesis Hadj : ∀ u, u ∈ nodeIds → adj !! u = Some (neighbours es u).

(** Whatever a walk of at most [k] links reaches is labelled. *)
Lemma depth_inv_walk k depths frontier m v :
  depth_inv es nodeIds roots k depths frontier →
  walk es roots m v → (m ≤ k)%nat → is_Some (depths !! v).
Proof.
  intros (Hdist & _ & Hnbrs & Hroots & _) Hwalk.
  induction Hwalk as [r Hr|n w x Hw IH Hwx]; intros Hm; [by apply Hroots|].
  destruct IH as [d Hd]; [lia|].
  destruct (Hdist w d Hd) as [_ [_ Hmin]].
  apply (Hnbrs w d x Hd); [|done]. specialize (Hmin n Hw). lia.
Qed.

Lemma depth_inv_step k depths frontier depths' new :
  depth_inv es nodeIds roots k depths frontier →
  (∀ x, x ∈ new ↔
        depths !! x = None ∧ ∃ i, i ∈ frontier ∧ adjacent es i x) →
  (∀ x j, depths !! x = Some j → depths' !! x = Some j) →
  (∀ x, depths !! x = None →
        depths' !! x = if decide (x ∈ new) then Some (S k) else None) →
  depth_inv es nodeIds roots (S k) depths' new.
Proof.
  intros Hinv Hnew Hold Hnone.
  pose proof Hinv as (Hdist & Hfront & Hnbrs & Hroots & Hnodes).
  assert (Hcases : ∀ v d, depths' !! v = Some d →
            depths !! v = Some d
            ∨ (depths !! v = None ∧ v ∈ new ∧ d = S k)).
  { intros v d Hv. destruct (depths !! v) as [j|] eqn:Hj.
    - left. rewrite (Hold v j Hj) in Hv. done.
    - right. rewrite (Hnone v Hj) in Hv. case_decide; [|done].
      injection Hv as <-. done. }
  split_and!.
  - intros v d Hv. destruct (Hcases v d Hv) as [Hv0|(Hv0 & Hin & ->)].
    + destruct (Hdist v d Hv0) as [Hle Hd]. split; [lia|done].
    + split; [done|]. apply Hnew in Hin as [_ (i & Hi & Hiv)].
      apply Hfront in Hi. destruct (Hdist i k Hi) as [_ [Hwalk _]].
      split; [by eapply walk_step|].
      intros m Hm. destruct (decide (m ≤ k)%nat) as [Hle|?]; [|lia].
      destruct (depth_inv_walk k depths frontier m v Hinv Hm Hle) as [j Hj].
      congruence.
  - intros v. split.
    + intros Hin. pose proof Hin as [Hv _]%Hnew.
      rewrite (Hnone v Hv). by rewrite decide_True.
    + intros Hv. destruct (Hcases v (S k) Hv) as [Hv0|(_ & Hin & _)]; [|done].
      destruct (Hdist v (S k) Hv0) as [Hle _]. lia.
  - intros u d w Hu Hd Huw.
    assert (Hw : is_Some (depths !! w) ∨ w ∈ new).
    { destruct (Hcases u d Hu) as [Hu0|(_ & _ & ->)]; [|lia].
      destruct (decide (d < k)%nat) as [Hlt|Hge].
      - left. by apply (Hnbrs u d w).
      - assert (d = k) as -> by lia. apply Hfront in Hu0.
        destruct (depths !! w) as [j|] eqn:Hj; [left; by eexists|].
        right. apply Hnew. split; [done|]. by exists u. }
    destruct Hw as [[j Hj]|Hin].
    + exists j. by apply Hold.
    + pose proof Hin as [Hv _]%Hnew. rewrite (Hnone w Hv).
      rewrite decide_True by done. by eexists.
  - intros r Hr. destruct (Hroots r Hr) as [j Hj]. exists j. by apply Hold.
  - intros v [d Hv]. destruct (Hcases v d Hv) as [Hv0|(_ & Hin & _)].
    + apply Hnodes. by eexists.
    + apply Hnew in Hin as [_ (i & _ & [Hiv|Hiv])];
        by destruct (Hclosed _ Hiv).
Qed.

Lemma depthLoop_spec fuel k depths frontier :
  depth_inv es nodeIds roots k depths frontier →
  (size ((list_to_set nodeIds : gset string) ∖ dom depths)
   + (if frontier is [] then 0 else 1) ≤ fuel)%nat →
  ∃ final, depthLoop fuel adj depths frontier = Ok final ∧
    (∀ v d, final !! v = Some d ↔ distance es roots d v) ∧
    (∀ m v, walk es roots m v → is_Some (final !! v)).
Proof.
  revert k depths frontier.
  assert (Hdone : ∀ k depths,
            depth_inv es nodeIds roots k depths [] →
            (∀ v d, depths !! v = Some d ↔ distance es roots d v) ∧
            (∀ m v, walk es roots m v → is_Some (depths !! v))).
  { intros k depths Hinv.
    pose proof Hinv as (Hdist & Hfront & Hnbrs & Hroots & _).
    assert (Hall : ∀ m x, walk es roots m x → is_Some (depths !! x)).
    { intros m x Hx. induction Hx as [r Hr|n w x Hw [j Hj] Hwx];
        [by apply Hroots|].
      destruct (Hdist w j Hj) as [Hle _].
      apply (Hnbrs w j x Hj); [|done].
      assert (j ≠ k); [|lia]. intros ->. apply Hfront in Hj.
      by apply elem_of_nil in Hj. }
    split; [|done]. intros v d.
    split; [by intros [_ ?]%Hdist|]. intros [Hwalk Hmin].
    destruct (Hall d v Hwalk) as [j Hj].
    destruct (Hdist v j Hj) as [_ [Hwj Hminj]].
    specialize (Hmin j Hwj). specialize (Hminj d Hwalk).
    assert (j = d) as -> by lia. done. }
  induction fuel as [|fuel IH]; intros k depths frontier Hinv Hfuel.
  - destruct frontier as [|i rest]; [|simpl in Hfuel; lia].
    exists depths. split; [done|]. by apply (Hdone k).
  - destruct frontier as [|i rest].
    { exists depths. split; [done|]. by apply (Hdone k). }
    pose proof Hinv as (Hdist & Hfront & Hnbrs & Hroots & Hnodes).
    destruct (expandFrontier_spec es adj k (i :: rest) depths [])
      as (depths' & new & Hrun & Hnew & Hold & Hnone).
    { intros u Hu. apply Hfront in Hu. split; [done|].
      apply Hadj, Hnodes. by eexists. }
    cbn [depthLoop]. rewrite Hrun. simpl.
    pose proof (depth_inv_step k depths (i :: rest) depths' new
                  Hinv Hnew Hold Hnone) as Hinv'.
    apply (IH (S k)); [done|].
    assert (Hsub : (list_to_set nodeIds : gset string) ∖ dom depths'
                   ⊆ list_to_set nodeIds ∖ dom depths).
    { intros x [Hx Hx']%elem_of_difference. apply elem_of_difference.
      split; [done|]. intros [j Hj]%elem_of_dom. apply Hx', elem_of_dom.
      exists j. by apply Hold. }
    destruct new as [|x new].
    + apply subseteq_size in Hsub. simpl in Hfuel. lia.
    + assert (Hlt : (size ((list_to_set nodeIds : gset string) ∖ dom depths')
                     < size ((list_to_set nodeIds : gset string)
                             ∖ dom depths))%nat).
      { apply subset_size. split; [done|]. intros Hback.
        assert (Hx : x ∈ x :: new) by (by left).
        destruct Hinv' as (_ & Hfront' & _ & _ & Hnodes').
        pose proof Hx as [Hx0 _]%Hnew. apply Hfront' in Hx.
        assert (Hin : x ∈ (list_to_set nodeIds : gset string) ∖ dom depths).
        { apply elem_of_difference. split.
          - apply elem_of_list_to_set, Hnodes'. by eexists.
          - intros [j Hj]%elem_of_dom. congruence. }
        apply Hback, elem_of_difference in Hin as [_ Hin].
        apply Hin, elem_of_dom. by eexists. }
      simpl in Hfuel. lia.
Qed.
End Depths.

Lemma root_depths_lookup roots v :
  foldl (λ depths i, <[i := 0%nat]> depths) (∅ : gmap string nat) roots !! v
  = if decide (v ∈ roots) then Some 0%nat else None.
Proof.
  assert (H : ∀ depths0 : gmap string nat,
             foldl (λ depths i, <[i := 0%nat]> depths) depths0 roots !! v
             = if decide (v ∈ roots) then Some 0%nat else depths0 !! v).
  { induction roots as [|i roots IH]; intros depths0; cbn [foldl].
    - case_decide as Hin; [by apply elem_of_nil in Hin|done].
    - rewrite IH. destruct (decide (v ∈ roots)) as [Hin|Hnin];
        destruct (decide (v ∈ i :: roots)) as [Hin'|Hnin']; try done.
      + destruct Hnin'. by right.
      + apply elem_of_cons in Hin' as [->|?]; [|done].
        by rewrite lookup_insert_eq.
      + apply lookup_insert_ne. intros ->. destruct Hnin'. by left. }
  rewrite H. by destruct (decide (v ∈ roots)).
Qed.

Lemma rootsOf_nodes nodeIds entranceIds r :
  (∀ e, e ∈ entranceIds → e ∈ nodeIds) →
  r ∈ rootsOf nodeIds entranceIds → r ∈ nodeIds.
Proof.
  intros He. unfold rootsOf. destruct entranceIds as [|e entranceIds].
  - destruct nodeIds as [|n nodeIds]; simpl; [done|].
    intros ->%list_elem_of_singleton. by left.
  - apply He.
Qed.

(** Enough fuel gives the depth map, and a node has the depth [d] exactly
    when [d] is its distance from the roots. *)
Lemma getDepthsFromEntrances_distance fuel nodeIds links entranceIds :
  closed_links nodeIds links →
  (∀ e, e ∈ entranceIds → e ∈ nodeIds) →
  (length nodeIds ≤ fuel)%nat →
  ∃ depths,
    getDepthsFromEntrances fuel nodeIds links entranceIds = Ok depths ∧
    (∀ v d, depths !! v = Some d
            ↔ distance links (rootsOf nodeIds entranceIds) d v) ∧
    (∀ m v, walk links (rootsOf nodeIds entranceIds) m v →
            is_Some (depths !! v)).
Proof.
  intros Hclosed Hent Hfuel. unfold getDepthsFromEntrances.
  destruct (buildAdj_closed (λ _, false) nodeIds links Hclosed)
    as (adj & Hrun & Hlook).
  rewrite Hrun. cbn [mbind result_bind].
  assert (Hall : filter (λ e : string * string, false = false) links
                 = links).
  { clear. induction links as [|e l IHl]; [done|].
    rewrite filter_cons_True by done. by f_equal. }
  rewrite Hall in Hlook. clear Hall.
  set (roots := rootsOf nodeIds entranceIds).
  assert (Hroots : ∀ r, r ∈ roots → r ∈ nodeIds).
  { intros r. by apply rootsOf_nodes. }
  apply (depthLoop_spec links nodeIds roots adj Hclosed) with (k := 0%nat).
  - intros u Hu. by apply Hlook.
  - split_and!.
    + intros v d. rewrite root_depths_lookup. case_decide as Hin; [|done].
      intros Heq. injection Heq as <-.
      split; [done|]. split; [by constructor|lia].
    + intros v. rewrite root_depths_lookup. by case_decide.
    + intros u d w _ Hd. lia.
    + intros r Hr. rewrite root_depths_lookup, decide_True by done.
      by eexists.
    + intros v [d Hv]. rewrite root_depths_lookup in Hv.
      case_decide; [by apply Hroots|done].
  - pose proof (size_list_to_set_le nodeIds) as Hsize.
    destruct roots as [|r roots'] eqn:Hr.
    + assert (size ((list_to_set nodeIds : gset string) ∖ dom
                (foldl (λ depths i, <[i := 0%nat]> depths)
                   (∅ : gmap string nat) []))
              ≤ size (list_to_set nodeIds : gset string))%nat; [|lia].
      apply subseteq_size. intros x [? _]%elem_of_difference. done.
    + assert (Hrn : r ∈ (list_to_set nodeIds : gset string)).
      { apply elem_of_list_to_set, Hroots. by left. }
      pose proof (size_without _ r Hrn) as Hwo.
      assert (size ((list_to_set nodeIds : gset string) ∖ dom
                (foldl (λ depths i, <[i := 0%nat]> depths)
                   (∅ : gmap string nat) (r :: roots')))
              ≤ size ((list_to_set nodeIds : gset string) ∖ {[r]}))%nat;
        [|lia].
      apply subseteq_size. intros x [Hx Hx']%elem_of_difference.
      apply elem_of_difference. split; [done|].
      intros ->%elem_of_singleton. apply Hx', elem_of_dom.
      rewrite root_depths_lookup, decide_True by (by left). by eexists.
Qed.

Lemma walk_roots_ext (es : list (string * string))
    (roots roots' : list string) m v :
  (∀ r, r ∈ roots → r ∈ roots') → walk es roots m v → walk es roots' m v.
Proof.
  intros Hsub. induction 1 as [r Hr|n w x _ IH Hwx].
  - constructor. by apply Hsub.
  - by eapply walk_step.
Qed.

Lemma rootsOf_Permutation nodeIds entranceIds entranceIds' r :
  entranceIds' ≡ₚ entranceIds →
  r ∈ rootsOf nodeIds entranceIds' → r ∈ rootsOf nodeIds entranceIds.
Proof.
  intros Hperm. unfold rootsOf.
  destruct entranceIds' as [|e' l'].
  - symmetry in Hperm. apply Permutation_nil_r in Hperm as ->. done.
  - destruct entranceIds as [|e l].
    + by apply Permutation_nil_r in Hperm.
    + by rewrite Hperm.
Qed.

(** C6. On a graph whose links end at its nodes, with entrances among the
    nodes and fuel for one layer per node, [getDepthsFromEntrances] returns
    a map in which a node has the depth [d] exactly when [d] is the least
    number of links of a walk from a root to it: every node that a walk
    from a root reaches is labelled, every root has depth 0, a node that no
    walk reaches is absent, the map is the same for every order of the
    entrances, and with no entrance the first node alone is the root. *)
Theorem getDepthsFromEntrances_spec fuel nodeIds links entranceIds :
  closed_links nodeIds links →
  (∀ e, e ∈ entranceIds → e ∈ nodeIds) →
  (length nodeIds ≤ fuel)%nat →
  ∃ depths,
    getDepthsFromEntrances fuel nodeIds links entranceIds = Ok depths ∧
    let roots := rootsOf nodeIds entranceIds in
    (entranceIds ≠ [] → roots = entranceIds) ∧
    (entranceIds = [] → roots = take 1 nodeIds) ∧
    (∀ v d, depths !! v = Some d ↔ distance links roots d v) ∧
    (∀ m v, walk links roots m v →
            ∃ d, depths !! v = Some d ∧ (d ≤ m)%nat) ∧
    (∀ r, r ∈ roots → depths !! r = Some 0%nat) ∧
    (∀ v, (∀ m, ¬ walk links roots m v) → depths !! v = None) ∧
    (∀ entranceIds', entranceIds' ≡ₚ entranceIds →
       getDepthsFromEntrances fuel nodeIds links entranceIds' = Ok depths).
Proof.
  intros Hclosed Hent Hfuel.
  destruct (getDepthsFromEntrances_distance fuel nodeIds links entranceIds
              Hclosed Hent Hfuel) as (depths & Hrun & Hdist & Hall).
  exists depths. split; [done|]. cbn zeta.
  assert (Hreach : ∀ m v, walk links (rootsOf nodeIds entranceIds) m v →
            ∃ d, depths !! v = Some d ∧ (d ≤ m)%nat).
  { intros m v Hwalk. destruct (Hall m v Hwalk) as [d Hd]. exists d.
    split; [done|]. apply Hdist in Hd as [_ Hmin]. by apply Hmin. }
  split_and!.
  - by destruct entranceIds.
  - by intros ->.
  - done.
  - done.
  - intros r Hr. destruct (Hreach 0%nat r) as (d & Hd & Hle);
      [by constructor|].
    by assert (d = 0%nat) as -> by lia.
  - intros v Hno. destruct (depths !! v) as [d|] eqn:Hd; [|done].
    apply Hdist in Hd as [Hwalk _]. by destruct (Hno d).
  - intros entranceIds' Hperm.
    destruct (getDepthsFromEntrances_distance fuel nodeIds links entranceIds')
      as (depths' & Hrun' & Hdist' & _); [done| |done|].
    { intros e He. apply Hent. by rewrite <- Hperm. }
    rewrite Hrun'. f_equal. apply map_eq. intros v.
    assert (Hsame : ∀ d, distance links (rootsOf nodeIds entranceIds') d v
                         ↔ distance links (rootsOf nodeIds entranceIds) d v).
    { intros d. unfold distance.
      assert (Hw : ∀ m, walk links (rootsOf nodeIds entranceIds') m v
                        ↔ walk links (rootsOf nodeIds entranceIds) m v).
      { intros m. split; apply walk_roots_ext; intros r;
          apply rootsOf_Permutation; done. }
      rewrite Hw. split; intros [? Hmin]; (split; [done|]);
        intros m Hm; apply Hmin; by apply Hw. }
    destruct (depths !! v) as [d|] eqn:Hd.
    + apply Hdist', Hsame, Hdist. done.
    + destruct (depths' !! v) as [d'|] eqn:Hd'; [|done].
      apply Hdist', Hsame, Hdist in Hd'. congruence.
Qed.

Lemma getDepthsFromEntrances_spec_witness :
  ∃ depths,
    getDepthsFromEntrances 5 SQUARE_NODES SQUARE_LINKS ["c"; "e"] = Ok depths ∧
    depths !! "a" = Some 1%nat ∧ depths !! "b" = Some 1%nat ∧
    depths !! "c" = Some 0%nat ∧ depths !! "e" = Some 0%nat ∧
    distance SQUARE_LINKS ["c"; "e"] 1 "a".
Proof.
  destruct (getDepthsFromEntrances_spec 5 SQUARE_NODES SQUARE_LINKS ["c"; "e"])
    as (depths & Hrun & _ & _ & Hdist & _).
  - apply closed_links_Forall. by_computation.
  - apply Forall_forall. by_computation.
  - simpl. lia.
  - exists depths. split; [exact Hrun|].
    assert (Hvals :
              match getDepthsFromEntrances 5 SQUARE_NODES SQUARE_LINKS
                      ["c"; "e"] with
              | Ok d => d !! "a" = Some 1%nat ∧ d !! "b" = Some 1%nat ∧
                        d !! "c" = Some 0%nat ∧ d !! "e" = Some 0%nat
              | Err _ => False
              end).
    { vm_compute. repeat split. }
    rewrite Hrun in Hvals. destruct Hvals as (Ha & Hb & Hc & He).
    repeat (split; [assumption|]). apply Hdist. exact Ha.
Defined.

(** * Further properties *)
(** ** The generator's helpers *)

(** X1. For integers [lo ≤ hi] between -2^53 and 2^53 that are less than
    2^53 apart (so that the difference, the sum and the floor are exact in
    doubles, and only the product is rounded), [randomInt(lo, hi)] reads one
    sample and returns an integer between [lo] and [hi], both included: the
    smallest sample gives [lo], the largest sample gives [hi], and a larger
    sample never gives a smaller result. *)
Theorem randomInt_range lo hi r :
  - RAND_DEN ≤ lo → lo ≤ hi → hi ≤ RAND_DEN → hi - lo < RAND_DEN →
  ∃ k, randomInt lo hi r = Ok (k, λ n, r (S n)) ∧ lo ≤ k ≤ hi ∧
       (r 0%nat `mod` RAND_DEN = 0 → k = lo) ∧
       (r 0%nat `mod` RAND_DEN = RAND_DEN - 1 → k = hi) ∧
       (∀ r2 k2 r2', randomInt lo hi r2 = Ok (k2, r2') →
          r 0%nat `mod` RAND_DEN ≤ r2 0%nat `mod` RAND_DEN → k ≤ k2).
Proof.
  intros Hlo Hle Hhi Hsmall. destruct (randomInt_total lo hi r) as (k & Hk).
  exists k. split; [done|].
  pose proof (randomInt_Ok lo hi r k _ Hle Hk) as Hrange.
  assert (0 < RAND_DEN) as HD by (by compute).
  pose proof (Z.mod_pos_bound (r 0%nat) RAND_DEN HD) as Hu.
  apply randomInt_draw in Hk as [-> _]. split_and!; [lia..| | |].
  - intros ->. rewrite floorMul_exact; lia.
  - intros ->. rewrite floorMul_top; lia.
  - intros r2 k2 r2' Hk2 Hsamples.
    apply randomInt_draw in Hk2 as [-> _].
    pose proof (floorMul_mono (r 0%nat `mod` RAND_DEN)
                  (r2 0%nat `mod` RAND_DEN) (hi - lo + 1)).
    lia.
Qed.

Lemma randomInt_range_witness :
  ∃ k, randomInt 0 5 (λ _, RAND_DEN - 1) = Ok (k, λ _, RAND_DEN - 1) ∧
       0 ≤ k ≤ 5 ∧ k = 5.
Proof.
  destruct (randomInt_range 0 5 (λ _, RAND_DEN - 1))
    as (k & Hk & Hrange & _ & Hhi & _); [by compute|lia|by compute|by compute|].
  exists k. split_and!; [exact Hk|lia..|]. apply Hhi. reflexivity.
Defined.

(** X2. [shuffle] returns a rearrangement of its array (the same elements,
    as often), whatever the random source, and reads one sample less than
    the array has elements (none for an empty array). *)
Theorem shuffle_rearranges {T} (arr : list T) r :
  ∃ out, shuffle arr r = Ok (out, λ n, r (length arr - 1 + n)%nat)
         ∧ out ≡ₚ arr ∧ length out = length arr.
Proof.
  destruct (shuffle_from_total (length arr - 1) arr r) as (out & r' & Hrun).
  exists out. pose proof (shuffle_from_Ok _ _ _ _ _ Hrun) as Hperm.
  pose proof (shuffle_from_rng _ _ _ _ _ Hrun) as ->.
  split_and!; [exact Hrun|done|by rewrite Hperm].
Qed.

Lemma digit36_length d : (String.length (digit36 d) ≤ 1)%nat.
Proof.
  unfold digit36. generalize (Z.to_nat d). intros n.
  do 37 (destruct n as [|n]; [simpl; lia|]). simpl. lia.
Qed.

Lemma digit36_base36 d : base36 (digit36 d) = true.
Proof.
  unfold digit36. generalize (Z.to_nat d). intros n.
  do 37 (destruct n as [|n]; [vm_compute; reflexivity|]). reflexivity.
Qed.

Lemma string_length_app (x y : string) :
  String.length (x +:+ y) = (String.length x + String.length y)%nat.
Proof. induction x as [|c x IH]; simpl; [done|]. by rewrite IH. Qed.

Lemma base36_app x y : base36 (x +:+ y) = base36 x && base36 y.
Proof.
  induction x as [|c x IH]; [done|].
  change (base36 (String c x +:+ y))
    with (bool_decide (String c EmptyString
                       ∈ (λ d, digit36 (Z.of_nat d)) <$> seq 0 36)
          && base36 (x +:+ y)).
  change (base36 (String c x))
    with (bool_decide (String c EmptyString
                       ∈ (λ d, digit36 (Z.of_nat d)) <$> seq 0 36)
          && base36 x).
  by rewrite IH, andb_assoc.
Qed.

Lemma fraction36_text n u :
  (String.length (fraction36 n u) ≤ n)%nat ∧ base36 (fraction36 n u) = true.
Proof.
  revert u. induction n as [|n IH]; intros u; cbn [fraction36]; [done|].
  destruct (u =? 0); [split; [simpl; lia|done]|].
  destruct (IH ((u * 36) `mod` RAND_DEN)) as [Hlen Hbase].
  pose proof (digit36_length ((u * 36) `div` RAND_DEN)).
  rewrite string_length_app, base36_app, digit36_base36, Hbase.
  split; [lia|done].
Qed.

(** X3. [generateId] reads one sample and returns "room-" followed by at
    most eight characters out of 0-9 and a-z; for the sample 0 nothing
    follows the hyphen. *)
Theorem generateId_text r :
  ∃ x, generateId r = Ok ("room-" +:+ x, λ n, r (S n)) ∧
       (String.length x ≤ 8)%nat ∧ base36 x = true ∧
       (r 0%nat `mod` RAND_DEN = 0 → x = EmptyString).
Proof.
  exists (fraction36 8 (r 0%nat `mod` RAND_DEN)).
  destruct (fraction36_text 8 (r 0%nat `mod` RAND_DEN)) as [Hlen Hbase].
  split_and!; [reflexivity|done|done|]. by intros ->.
Qed.

(** ** The generated unit *)

Lemma makeLinks_fields nodeIds edges linkSet r ls r' :
  makeLinks nodeIds edges linkSet r = Ok (ls, r') →
  Forall (λ l, description l = None ∧ clueRoomId l = None) ls ∧
  NoDup (linkKey <$> ls) ∧
  (∀ l, l ∈ ls → linkKey l ∉ linkSet).
Proof.
  revert linkSet r ls r'.
  induction edges as [|[a b] edges IH]; intros linkSet r ls r';
    cbn [makeLinks].
  - intros [<- _]%ret_Ok. split_and!; [constructor|constructor|].
    by intros l ?%elem_of_nil.
  - case_bool_decide as Hkey; [done|].
    intros (t & r1 & _ & H1)%bind_Ok.
    apply bind_Ok in H1 as (rest & r2 & Hrest & H2).
    apply ret_Ok in H2 as [<- _].
    destruct (IH _ _ _ _ Hrest) as (Hfields & Hnd & Hfresh).
    split_and!.
    + by constructor.
    + rewrite fmap_cons. apply NoDup_cons. split; [|done].
      intros (l & Hl & Hin)%list_elem_of_fmap. apply (Hfresh l Hin).
      apply elem_of_union. left. apply elem_of_singleton. by rewrite <- Hl.
    + intros l [->|Hin]%elem_of_cons; [done|].
      intros Hl. apply (Hfresh l Hin). apply elem_of_union. by right.
Qed.

(** What a successful run of the generator gives its links. *)
Lemma generate_links seedLayout r g r' :
  generateBiteSizedDungeon seedLayout r = Ok (g, r') →
  Forall (λ l, description l = None ∧ clueRoomId l = None) (links g) ∧
  NoDup (linkKey <$> links g).
Proof.
  intros H. unfold generateBiteSizedDungeon in H.
  apply bind_Ok in H as (layoutIndex & r1 & Hl & G0).
  apply bind_Ok in G0 as (nodeIds & r2 & Hids & G1).
  apply bind_Ok in G1 as (shuffledTypes & r3 & Hsh & G2).
  apply bind_Ok in G2 as (k & r4 & Hk & G3).
  apply bind_Ok in G3 as (entranceIndex & r5 & He1 & G4).
  apply bind_Ok in G4 as (secondEntrance & r6 & He2 & G5).
  destruct (if layoutIndex <? 0 then None
            else LAYOUTS !! Z.to_nat layoutIndex) as [edges|]; [|done].
  apply bind_Ok in G5 as (ls & r7 & Hls & G6).
  apply ret_Ok in G6 as [<- _]. simpl.
  by destruct (makeLinks_fields _ _ _ _ _ _ Hls) as (? & ? & _).
Qed.

(** X4. In a unit that the generator returns, the rooms are labelled
    "Room 1", "Room 2", ... in order, each room has the default text of its
    type, an entrance flag that is set or cleared, and no parent; no link
    has a description or a clue room. *)
Theorem generateBiteSizedDungeon_fields seedLayout r g r' :
  generateBiteSizedDungeon seedLayout r = Ok (g, r') →
  (∀ i n, nodes g !! i = Some n →
     label n = "Room " +:+ pretty (i + 1)%nat ∧
     content n = getDefaultContent (roomType n) ∧
     is_Some (entrance n) ∧ parentNodeId n = None) ∧
  (∀ l, l ∈ links g → description l = None ∧ clueRoomId l = None).
Proof.
  intros H. split.
  - apply generate_inv in H
      as (edges & nodeIds & shuffled & k & e1 & e2 & _ & _ & _ & _ & _ & _
          & Hnodes & _).
    intros i n. rewrite Hnodes. unfold makeNodes.
    rewrite list_lookup_imap. destruct (nodeIds !! i); [|done].
    intros [= <-]. simpl. split_and!; [done|done|by eexists|done].
  - apply generate_links in H as [Hfields _].
    intros l Hl. by apply (proj1 (Forall_forall _ _) Hfields).
Qed.

Lemma generateBiteSizedDungeon_fields_witness :
  match generateBiteSizedDungeon None SAMPLE_RNG with
  | Ok (g, _) => label <$> nodes g
                 = ["Room 1"; "Room 2"; "Room 3"; "Room 4"; "Room 5"; "Room 6"]
  | Err _ => False
  end.
Proof.
  destruct (generateBiteSizedDungeon None SAMPLE_RNG) as [[g r']|e] eqn:E.
  - destruct (generateBiteSizedDungeon_fields None SAMPLE_RNG g r' E)
      as [Hnodes _].
    assert (Hlen : length (nodes g) = 6%nat).
    { vm_compute in E. by injection E as <- _. }
    apply list_eq. intros i. rewrite list_lookup_fmap.
    destruct (nodes g !! i) as [n|] eqn:Hi.
    + destruct (Hnodes i n Hi) as [Hlab _]. apply lookup_lt_Some in Hi.
      rewrite Hlen in Hi. simpl. rewrite Hlab.
      do 6 (destruct i as [|i]; [reflexivity|]). lia.
    + apply lookup_ge_None in Hi. rewrite Hlen in Hi.
      simpl. symmetry. apply lookup_ge_None. simpl. lia.
  - vm_compute in E. discriminate E.
Defined.

Lemma entrance_flags_count (e1 e2 : nat) :
  (e1 < 6)%nat → (e2 < 6)%nat →
  length (filter (λ b : bool, b = true)
            ((λ i : nat, (Z.of_nat i =? Z.of_nat e1)
                         || (Z.of_nat i =? Z.of_nat e2)) <$> seq 0 6))
  = (if decide (e1 = e2) then 1 else 2)%nat.
Proof.
  intros H1 H2.
  do 6 (destruct e1 as [|e1]; [do 6 (destruct e2 as [|e2]; [reflexivity|]); lia|]).
  lia.
Qed.

(** X5. A unit that the generator returns has one entrance or two (the two
    entrance draws can fall on the same position): never none, never more
    than two. *)
Theorem generateBiteSizedDungeon_entrances seedLayout r g r' :
  generateBiteSizedDungeon seedLayout r = Ok (g, r') →
  countEntrances g = 1%nat ∨ countEntrances g = 2%nat.
Proof.
  intros H. apply generate_inv in H
    as (edges & nodeIds & shuffled & k & e1 & e2 & _ & Hlen & _ & _ & He1
        & He2 & Hnodes & _).
  assert (Hflags : entrance <$> nodes g
                   = (λ i : nat, Some ((Z.of_nat i =? e1) || (Z.of_nat i =? e2)))
                     <$> seq 0 6).
  { rewrite Hnodes. unfold makeNodes. rewrite fmap_imap. rewrite <- Hlen.
    rewrite <- (imap_seq_0 nodeIds
                  (λ i : nat, Some ((Z.of_nat i =? e1) || (Z.of_nat i =? e2)))).
    apply imap_ext. intros i x _. reflexivity. }
  assert (Hcount : countEntrances g
                   = length (filter (λ o, o = Some true) (entrance <$> nodes g))).
  { unfold countEntrances. clear. induction (nodes g) as [|n ns IH]; [done|].
    rewrite fmap_cons. destruct (decide (entrance n = Some true)) as [Hn|Hn].
    - rewrite !filter_cons_True by done. simpl. by rewrite IH.
    - rewrite !filter_cons_False by done. done. }
  rewrite Hcount, Hflags.
  pose proof (entrance_flags_count (Z.to_nat e1) (Z.to_nat e2)) as Hc.
  rewrite !Z2Nat.id in Hc by lia.
  assert (Hsame : ∀ l : list bool,
            length (filter (λ o, o = Some true) (Some <$> l))
            = length (filter (λ b : bool, b = true) l)).
  { induction l as [|b l IH]; [done|]. rewrite fmap_cons. destruct b.
    - rewrite !filter_cons_True by done. simpl. by rewrite IH.
    - rewrite !filter_cons_False by done. done. }
  assert (Hsplit :
            (λ i : nat, Some ((Z.of_nat i =? e1) || (Z.of_nat i =? e2)))
              <$> seq 0 6
            = Some <$> ((λ i : nat, (Z.of_nat i =? e1) || (Z.of_nat i =? e2))
                          <$> seq 0 6)) by reflexivity.
  rewrite Hsplit, Hsame, Hc by lia.
  case_decide; auto.
Qed.

Lemma generateBiteSizedDungeon_entrances_witness :
  match generateBiteSizedDungeon None SAMPLE_RNG with
  | Ok (g, _) => countEntrances g = 1%nat ∨ countEntrances g = 2%nat
  | Err _ => False
  end.
Proof.
  destruct (generateBiteSizedDungeon None SAMPLE_RNG) as [[g r']|e] eqn:E.
  - exact (generateBiteSizedDungeon_entrances None SAMPLE_RNG g r' E).
  - vm_compute in E. discriminate E.
Defined.

(** X6. In a unit that the generator returns, both ends of every link are
    rooms of the unit and no two links have the same key, so that no two
    links join the same two rooms, in either direction. *)
Theorem generateBiteSizedDungeon_links seedLayout r g r' :
  generateBiteSizedDungeon seedLayout r = Ok (g, r') →
  closed_graph g ∧ NoDup (linkKey <$> links g) ∧
  (∀ i j l l', links g !! i = Some l → links g !! j = Some l' →
     joins (source l) (target l) l' → i = j).
Proof.
  intros H. pose proof (generate_links _ _ _ _ H) as [_ Hnd].
  split_and!; [|done|].
  - intros [a b] (l & [= -> ->] & Hl)%list_elem_of_fmap. simpl.
    split; eapply generate_links_closed; try exact H; try exact Hl;
      [by left|by right].
  - intros i j l l' Hi Hj Hjoin.
    eapply (NoDup_lookup _ i j); [exact Hnd| |].
    + rewrite list_lookup_fmap, Hi. reflexivity.
    + rewrite list_lookup_fmap, Hj. simpl. f_equal. unfold linkKey.
      destruct Hjoin as [[-> ->]|[-> ->]]; [done|apply norm_comm].
Qed.

Lemma generateBiteSizedDungeon_links_witness :
  match generateBiteSizedDungeon None SAMPLE_RNG with
  | Ok (g, _) => closed_graph g ∧ NoDup (linkKey <$> links g)
  | Err _ => False
  end.
Proof.
  destruct (generateBiteSizedDungeon None SAMPLE_RNG) as [[g r']|e] eqn:E.
  - destruct (generateBiteSizedDungeon_links None SAMPLE_RNG g r' E)
      as (Hclosed & Hnd & _).
    by split.
  - vm_compute in E. discriminate E.
Defined.

(** X7. Asked for a layout that the catalog does not have (a negative
    number, or ten and more), the generator throws a [TypeError] on every
    random source: it never returns a graph. *)
Theorem generateBiteSizedDungeon_no_layout k r :
  k < 0 ∨ Z.of_nat (length LAYOUTS) ≤ k →
  generateBiteSizedDungeon (Some k) r = Err TypeError.
Proof.
  intros Hk. unfold generateBiteSizedDungeon.
  destruct (generateIds_total 6 r) as (nodeIds & r2 & Hids & _).
  destruct (shuffle_from_total (length ROOM_TYPES - 1) ROOM_TYPES r2)
    as (shuffledTypes & r3 & Hsh).
  destruct (randomInt_total 0 2 r3) as (c & Hc).
  destruct (randomInt_total 0 5 (λ n, r3 (S n))) as (e1 & He1).
  destruct (randomInt_total 0 5 (λ n, r3 (S (S n)))) as (e2 & He2).
  erewrite (bind_run (ret k)) by reflexivity.
  rewrite (bind_run _ _ _ _ _ Hids). unfold shuffle.
  rewrite (bind_run _ _ _ _ _ Hsh), (bind_run _ _ _ _ _ Hc).
  rewrite (bind_run _ _ _ _ _ He1), (bind_run _ _ _ _ _ He2).
  destruct (k <? 0) eqn:Hneg; [done|]. apply Z.ltb_ge in Hneg.
  rewrite (proj2 (lookup_ge_None LAYOUTS (Z.to_nat k))); [done|]. lia.
Qed.

Lemma generateBiteSizedDungeon_no_layout_witness :
  generateBiteSizedDungeon (Some 10) SAMPLE_RNG = Err TypeError.
Proof.
  apply generateBiteSizedDungeon_no_layout. right. simpl. lia.
Defined.

(** X8. With a layout of the catalog (or none given) and six drawn
    identifiers that differ from each other, the generator returns a unit,
    and its rooms carry the drawn identifiers in the order of the draws. *)
Theorem generateBiteSizedDungeon_returns seedLayout r :
  validLayout seedLayout → NoDup (drawnIds seedLayout r) →
  ∃ g r', generateBiteSizedDungeon seedLayout r = Ok (g, r') ∧
          node_ids g = drawnIds seedLayout r.
Proof.
  intros Hvalid Hnd.
  destruct (generate_returns seedLayout r Hvalid Hnd) as (g & r' & Hrun).
  exists g, r'. split; [done|]. by eapply generate_drawn.
Qed.

Lemma generateBiteSizedDungeon_returns_witness :
  ∃ g r', generateBiteSizedDungeon (Some 3) COIN_RNG = Ok (g, r') ∧
          node_ids g = ["room-i"; "room-9"; "room-r"; "room-4i"; "room-di";
                        "room-mi"].
Proof.
  assert (Hids : drawnIds (Some 3) COIN_RNG
                 = ["room-i"; "room-9"; "room-r"; "room-4i"; "room-di";
                    "room-mi"]) by (vm_compute; reflexivity).
  rewrite <- Hids. apply generateBiteSizedDungeon_returns.
  - simpl. lia.
  - rewrite Hids. by_computation.
Defined.

(** ** Editing rooms and links *)

Lemma applyNodeUpdates_merge n u1 u2 :
  applyNodeUpdates (applyNodeUpdates n u1) u2
  = applyNodeUpdates n (mergeNodeUpdates u1 u2).
Proof.
  destruct n, u1 as [[?|] [?|] [?|]], u2 as [[?|] [?|] [?|]]; reflexivity.
Qed.

Lemma applyLinkUpdates_merge l u1 u2 :
  applyLinkUpdates (applyLinkUpdates l u1) u2
  = applyLinkUpdates l (mergeLinkUpdates u1 u2).
Proof.
  destruct l, u1 as [[?|] [?|] [?|]], u2 as [[?|] [?|] [?|]]; reflexivity.
Qed.

(** X9. [updateNode] changes nothing but the label, content and entrance
    flag of the rooms that have the given identifier: the links, the
    identifiers, types and parents of all rooms (hence their number and
    order) are as before, every room with another identifier is the same
    room at the same position, and a graph without such a room is returned
    as it is. *)
Theorem updateNode_frame g nodeId updates :
  links (updateNode g nodeId updates) = links g ∧
  node_ids (updateNode g nodeId updates) = node_ids g ∧
  roomType <$> nodes (updateNode g nodeId updates) = roomType <$> nodes g ∧
  parentNodeId <$> nodes (updateNode g nodeId updates)
  = parentNodeId <$> nodes g ∧
  (∀ i n, nodes g !! i = Some n → id n ≠ nodeId →
          nodes (updateNode g nodeId updates) !! i = Some n) ∧
  (nodeId ∉ node_ids g → updateNode g nodeId updates = g).
Proof.
  unfold updateNode, node_ids; cbn [links nodes].
  split_and!.
  - reflexivity.
  - rewrite <- list_fmap_compose. apply list_fmap_ext.
    intros i n _. cbn. by case_decide.
  - rewrite <- list_fmap_compose. apply list_fmap_ext.
    intros i n _. cbn. by case_decide.
  - rewrite <- list_fmap_compose. apply list_fmap_ext.
    intros i n _. cbn. by case_decide.
  - intros i n Hn Hne. rewrite list_lookup_fmap, Hn. cbn.
    by rewrite decide_False.
  - intros Habs. destruct g as [ns ls]. cbn in *. f_equal.
    rewrite <- (list_fmap_id ns) at 2. apply list_fmap_ext.
    intros i n Hn. cbn. rewrite decide_False; [done|].
    intros <-. apply Habs. apply list_elem_of_fmap.
    exists n. split; [done|]. by eapply list_elem_of_lookup_2.
Qed.

(** X10. Two updates of the same room amount to one update with the merged
    fields, the later one winning where both set a field; so an update
    applied twice is the same as applied once. *)
Theorem updateNode_merge g nodeId u1 u2 :
  updateNode (updateNode g nodeId u1) nodeId u2
  = updateNode g nodeId (mergeNodeUpdates u1 u2) ∧
  updateNode (updateNode g nodeId u1) nodeId u1 = updateNode g nodeId u1.
Proof.
  unfold updateNode; cbn [links nodes]. split.
  - f_equal. rewrite <- list_fmap_compose. apply list_fmap_ext.
    intros i n _. cbn. destruct (decide (id n = nodeId)) as [Hid|Hid].
    + change (id (applyNodeUpdates n u1)) with (id n).
      destruct (decide (id n = nodeId)); [|done].
      apply applyNodeUpdates_merge.
    + by destruct (decide (id n = nodeId)).
  - f_equal. rewrite <- list_fmap_compose. apply list_fmap_ext.
    intros i n _. cbn. destruct (decide (id n = nodeId)) as [Hid|Hid].
    + change (id (applyNodeUpdates n u1)) with (id n).
      destruct (decide (id n = nodeId)); [|done].
      destruct n, u1 as [[?|] [?|] [?|]]; reflexivity.
    + by destruct (decide (id n = nodeId)).
Qed.

(** X11. Updates of rooms with different identifiers do not interfere: they
    give the same graph in either order. *)
Theorem updateNode_commute g x y u1 u2 :
  x ≠ y →
  updateNode (updateNode g x u1) y u2 = updateNode (updateNode g y u2) x u1.
Proof.
  intros Hxy. unfold updateNode; cbn [links nodes]. f_equal.
  rewrite <- !list_fmap_compose. apply list_fmap_ext.
  intros i n _. cbn.
  destruct (decide (id n = x)) as [Hx|Hx], (decide (id n = y)) as [Hy|Hy];
    try congruence;
    repeat first
      [ progress change (id (applyNodeUpdates n u1)) with (id n)
      | progress change (id (applyNodeUpdates n u2)) with (id n) ];
    destruct (decide (id n = x)), (decide (id n = y)); done.
Qed.

Lemma updateNode_commute_witness :
  "room-hall" ≠ "room-cellar" ∧
  updateNode
    (updateNode SAMPLE_GRAPH "room-hall" (mkNodeUpdates (Some "Gate") None None))
    "room-cellar" (mkNodeUpdates None None (Some true))
  = updateNode
      (updateNode SAMPLE_GRAPH "room-cellar" (mkNodeUpdates None None (Some true)))
      "room-hall" (mkNodeUpdates (Some "Gate") None None).
Proof.
  split; [discriminate|]. apply updateNode_commute. discriminate.
Defined.

Lemma joins_norm a b l : joins a b l → linkKey l = norm a b.
Proof.
  unfold linkKey. intros [[-> ->]|[-> ->]]; [done|apply norm_comm].
Qed.

(** X12. [updateEdge] does not care in which direction the link is named or
    stored: naming the two rooms the other way round gives the same graph,
    and every link that joins them, in either direction, gets the update.
    The rooms, and the ends of every link, stay as they are. *)
Theorem updateEdge_either_direction g a b updates :
  updateEdge g a b updates = updateEdge g b a updates ∧
  nodes (updateEdge g a b updates) = nodes g ∧
  graph_edges (updateEdge g a b updates) = graph_edges g ∧
  ∀ i l, links g !! i = Some l → joins a b l →
         links (updateEdge g a b updates) !! i
         = Some (applyLinkUpdates l updates).
Proof.
  unfold updateEdge, graph_edges; cbn [links nodes]. split_and!.
  - by rewrite (norm_comm a b).
  - reflexivity.
  - rewrite <- list_fmap_compose. apply list_fmap_ext.
    intros i l _. cbn. by case_decide.
  - intros i l Hl Hj. rewrite list_lookup_fmap, Hl. cbn.
    rewrite decide_True; [done|]. by apply joins_norm.
Qed.

(** X13. When the identifiers have the form that the generator gives
    ("room-" and a text without hyphen), [updateEdge] leaves every link
    that does not join the two named rooms untouched. *)
Theorem updateEdge_other_links g a b updates i l :
  roomId a → roomId b → roomId (source l) → roomId (target l) →
  links g !! i = Some l → ¬ joins a b l →
  links (updateEdge g a b updates) !! i = Some l.
Proof.
  intros Ha Hb Hs Ht Hl Hj.
  unfold updateEdge; cbn [links]. rewrite list_lookup_fmap, Hl. cbn.
  rewrite decide_False; [done|]. intros Hk. apply Hj.
  destruct (norm_roomId_inj _ _ _ _ Hs Ht Ha Hb Hk) as [[? ?]|[? ?]];
    [by left|by right].
Qed.

Lemma roomId_sample x : nodash x = true → roomId ("room-" +:+ x).
Proof. intros Hx. by exists x. Qed.

Lemma updateEdge_other_links_witness :
  links (updateEdge SAMPLE_GRAPH "room-hall" "room-4i"
           (mkLinkUpdates (Some secret) None None)) !! 0%nat
  = Some (mkLink "room-cellar" "room-hall" closed None None).
Proof.
  apply (updateEdge_other_links SAMPLE_GRAPH "room-hall" "room-4i"
           (mkLinkUpdates (Some secret) None None) 0
           (mkLink "room-cellar" "room-hall" closed None None)).
  - by apply (roomId_sample "hall").
  - by apply (roomId_sample "4i").
  - by apply (roomId_sample "cellar").
  - by apply (roomId_sample "hall").
  - reflexivity.
  - intros [[H _]|[H _]]; discriminate H.
Defined.

(** With other identifiers the key of a pair can be the key of another
    pair, and [updateEdge] then changes a link between other rooms. *)
Example updateEdge_key_collision :
  let g := mkGraph [] [mkLink "x" "y-z" open None None] in
  ¬ joins "x-y" "z" (mkLink "x" "y-z" open None None) ∧
  links (updateEdge g "x-y" "z" (mkLinkUpdates (Some secret) None None))
  = [mkLink "x" "y-z" secret None None].
Proof.
  split; [|reflexivity]. intros [[H _]|[H _]]; discriminate H.
Qed.

Lemma existsb_linkKey ls k :
  existsb (fun l => bool_decide (norm (source l) (target l) = k)) ls = false →
  k ∉ linkKey <$> ls.
Proof.
  intros Hex Hin. apply list_elem_of_fmap in Hin as (l & -> & Hl).
  assert (existsb (fun l' => bool_decide
            (norm (source l') (target l') = linkKey l)) ls = true) as Ht.
  { apply existsb_exists. exists l. split.
    - by apply list_elem_of_In.
    - by apply bool_decide_eq_true_2. }
  congruence.
Qed.

(** X14. [addEdge] keeps the link list simple: if no link joins a room to
    itself and no two links have the same key, this is so afterwards too.
    It never touches the rooms, and it keeps the old links in front, adding
    at most one. *)
Theorem addEdge_simple g a b t :
  simple_links (links g) →
  simple_links (links (addEdge g a b t)) ∧
  nodes (addEdge g a b t) = nodes g ∧
  ∃ extra, links (addEdge g a b t) = links g ++ extra ∧
           (length extra ≤ 1)%nat.
Proof.
  intros [Hloop Hkeys]. unfold addEdge.
  destruct (decide (a = b)) as [Hab|Hab].
  { split_and!; [by split|done|]. exists [].
    split; [by rewrite app_nil_r|cbn; lia]. }
  cbn zeta.
  destruct (existsb _ (links g)) eqn:Hex.
  { split_and!; [by split|done|]. exists [].
    split; [by rewrite app_nil_r|cbn; lia]. }
  cbn [links nodes]. split_and!.
  - split.
    + apply Forall_app. split; [exact Hloop|].
      apply Forall_singleton. exact Hab.
    + rewrite fmap_app. apply NoDup_app. split_and!; [done| |].
      * intros k Hk Hk'. cbn in Hk'. apply list_elem_of_singleton in Hk'.
        subst k. revert Hk. by apply existsb_linkKey.
      * cbn. apply NoDup_singleton.
  - reflexivity.
  - eexists. split; [reflexivity|]. cbn. lia.
Qed.

Lemma addEdge_simple_witness :
  simple_links (links SAMPLE_GRAPH) ∧
  simple_links (links (addEdge SAMPLE_GRAPH "room-hall" "room-4i" trapped)).
Proof.
  assert (simple_links (links SAMPLE_GRAPH)) as H.
  { split.
    - apply Forall_singleton. discriminate.
    - cbn. apply NoDup_singleton. }
  split; [exact H|].
  exact (proj1 (addEdge_simple SAMPLE_GRAPH "room-hall" "room-4i" trapped H)).
Defined.

(** ** Attaching and replacing *)

Lemma generate_lengths seedLayout r sub r1 :
  generateBiteSizedDungeon seedLayout r = Ok (sub, r1) →
  length (nodes sub) = 6%nat ∧ length (links sub) = 6%nat.
Proof.
  intros H.
  apply generate_inv in H
    as (edges & nodeIds & shuffled & k & e1 & e2 & Hedges & Hlen & Hperm
        & Hk & He1 & He2 & Hnodes & Hlinks).
  split.
  - rewrite Hnodes. unfold makeNodes. by rewrite length_imap.
  - transitivity (length (graph_edges sub)).
    + unfold graph_edges. by rewrite length_fmap.
    + rewrite Hlinks, length_fmap. by apply LAYOUTS_length.
Qed.

Lemma generate_connected seedLayout r sub r1 :
  generateBiteSizedDungeon seedLayout r = Ok (sub, r1) →
  connected_on (node_ids sub) (graph_edges sub).
Proof.
  intros H.
  apply generate_inv in H
    as (edges & nodeIds & shuffled & k & e1 & e2 & Hedges & Hlen & Hperm
        & Hk & He1 & He2 & Hnodes & Hlinks).
  assert (Hids : node_ids sub = nodeIds).
  { unfold node_ids. rewrite Hnodes. apply makeNodes_ids. }
  rewrite Hids, Hlinks. intros u w Hu Hw.
  apply list_elem_of_lookup in Hu as [i Hi].
  apply list_elem_of_lookup in Hw as [j Hj].
  rewrite <- (list_lookup_total_correct _ _ _ Hi).
  rewrite <- (list_lookup_total_correct _ _ _ Hj).
  apply (reach_rename (λ a, nodeIds !!! a)).
  apply lookup_lt_Some in Hi, Hj.
  apply LAYOUTS_connected; [done|..]; apply elem_of_seq; lia.
Qed.

Lemma generate_closed seedLayout r sub r1 :
  generateBiteSizedDungeon seedLayout r = Ok (sub, r1) → closed_graph sub.
Proof.
  intros H e He. unfold graph_edges in He.
  apply list_elem_of_fmap in He as (l & -> & Hl). split.
  - apply (generate_links_closed _ _ _ _ l _ H Hl). by left.
  - apply (generate_links_closed _ _ _ _ l _ H Hl). by right.
Qed.

(** What a call of [attachDungeon] that returns has done. *)
Lemma attach_inv g nodeId r g' r' :
  attachDungeon g nodeId r = Ok (g', r') →
  ((nodeId ∉ node_ids g) ∧ g' = g ∧ r' = r) ∨
  ∃ node sub r1 first rest t,
    findNode g nodeId = Some node ∧
    generateBiteSizedDungeon None r = Ok (sub, r1) ∧
    nodes sub = first :: rest ∧
    r' = (λ n, r1 (S n)) ∧
    g' = mkGraph
           (nodes g
            ++ ((λ n, mkNode (id n) (label n) (roomType n) (content n)
                        (Some false) (Some nodeId)) <$> nodes sub))
           (links g ++ links sub ++ [mkLink nodeId (id first) t None None]).
Proof.
  destruct (decide (nodeId ∈ node_ids g)) as [Hin|Hin].
  - destruct (findNode_present _ _ Hin) as [node Hnode].
    unfold attachDungeon. rewrite Hnode. unfold mbind, Rand_bind.
    destruct (generateBiteSizedDungeon None r) as [[sub r1]|] eqn:Hsub;
      [|discriminate].
    destruct (nodes sub) as [|first rest] eqn:Hfirst; [discriminate|].
    destruct (randomConnectionType_Ok r1) as (roll & _ & Hroll).
    rewrite Hroll. unfold ret, mret, Rand_ret. intros [= <- <-].
    right. exists node, sub, r1, first, rest, (connectionTypeOfRoll roll).
    split_and!; [reflexivity|reflexivity|exact Hfirst|reflexivity|].
    by rewrite Hfirst.
  - rewrite attachDungeon_absent by done. intros [= <- <-]. by left.
Qed.

(** What a call of [replaceNodeWithDungeon] that returns has done. *)
Lemma replace_inv g nodeId r g' b r' :
  replaceNodeWithDungeon g nodeId r = Ok ((g', b), r') →
  ((nodeId ∉ node_ids g) ∧ g' = g ∧ b = nodeId ∧ r' = r) ∨
  ∃ node sub first rest,
    findNode g nodeId = Some node ∧
    generateBiteSizedDungeon None r = Ok (sub, r') ∧
    nodes sub = first :: rest ∧ b = id first ∧
    g' = mkGraph
           (filter (λ n, id n ≠ nodeId) (nodes g)
            ++ (splice node nodeId b <$> nodes sub))
           (filter (λ l, ¬ touches nodeId l) (links g)
            ++ links sub
            ++ (reattach nodeId b <$> filter (touches nodeId) (links g))).
Proof.
  destruct (decide (nodeId ∈ node_ids g)) as [Hin|Hin].
  - destruct (findNode_present _ _ Hin) as [node Hnode].
    unfold replaceNodeWithDungeon. rewrite Hnode. unfold mbind, Rand_bind.
    destruct (generateBiteSizedDungeon None r) as [[sub r1]|] eqn:Hsub;
      [|discriminate].
    destruct (nodes sub) as [|first rest] eqn:Hfirst; [discriminate|].
    unfold ret, mret, Rand_ret. intros [= <- <- <-].
    right. exists node, sub, first, rest.
    split_and!; [reflexivity|reflexivity|exact Hfirst|reflexivity|].
    by rewrite Hfirst.
  - rewrite replaceNodeWithDungeon_absent by done. intros [= <- <- <-].
    by left.
Qed.

(** X15. When the room exists and the six identifiers drawn are distinct,
    [attachDungeon] returns a graph that has the old rooms and the old links
    in front, unchanged, followed by six new rooms, the six links of the new
    unit and one more link; each new room is marked as no entrance and has
    the room as its parent; the last link goes from the room to the first
    new room and carries no description and no clue. *)
Theorem attachDungeon_frame g nodeId r :
  nodeId ∈ node_ids g → NoDup (drawnIds None r) →
  ∃ g' r' newNodes newLinks c,
    attachDungeon g nodeId r = Ok (g', r') ∧
    nodes g' = nodes g ++ newNodes ∧
    links g' = links g ++ newLinks ++ [c] ∧
    id <$> newNodes = drawnIds None r ∧
    length newNodes = 6%nat ∧ length newLinks = 6%nat ∧
    Forall (λ n, entrance n = Some false ∧ parentNodeId n = Some nodeId)
      newNodes ∧
    source c = nodeId ∧ Some (target c) = head (id <$> newNodes) ∧
    description c = None ∧ clueRoomId c = None.
Proof.
  intros Hin Hnd.
  destruct (generate_returns None r I Hnd) as (sub & r1 & Hsub).
  destruct (findNode_present _ _ Hin) as [node Hnode].
  destruct (generate_node_ids _ _ _ _ Hsub) as (first & rest & Hfirst).
  destruct (randomConnectionType_Ok r1) as (roll & _ & Hroll).
  destruct (generate_lengths _ _ _ _ Hsub) as [Hln Hll].
  eexists _, _, _, (links sub), _. split.
  { unfold attachDungeon. rewrite Hnode. unfold mbind, Rand_bind.
    rewrite Hsub, Hfirst, Hroll. reflexivity. }
  cbn [nodes links]. rewrite <- Hfirst.
  split_and!; try reflexivity.
  - rewrite <- (generate_drawn _ _ _ _ Hsub). unfold node_ids.
    rewrite <- list_fmap_compose. by apply list_fmap_ext.
  - by rewrite length_fmap.
  - done.
  - apply Forall_fmap, Forall_forall. by intros n _.
  - by rewrite Hfirst.
Qed.

Lemma attachDungeon_frame_witness :
  ∃ g' r' newNodes newLinks c,
    attachDungeon SAMPLE_GRAPH "room-cellar" SAMPLE_RNG
    = Ok (g', r') ∧
    nodes g' = nodes SAMPLE_GRAPH ++ newNodes ∧
    links g' = links SAMPLE_GRAPH ++ newLinks ++ [c] ∧
    id <$> newNodes = drawnIds None SAMPLE_RNG ∧
    length newNodes = 6%nat ∧ length newLinks = 6%nat ∧
    Forall (λ n, entrance n = Some false ∧ parentNodeId n = Some "room-cellar")
      newNodes ∧
    source c = "room-cellar" ∧ Some (target c) = head (id <$> newNodes) ∧
    description c = None ∧ clueRoomId c = None.
Proof.
  apply (attachDungeon_frame SAMPLE_GRAPH "room-cellar" SAMPLE_RNG).
  - by_computation.
  - by_computation.
Defined.

Lemma elem_of_graph_edges g u w :
  (u, w) ∈ graph_edges g ↔ ∃ l, l ∈ links g ∧ source l = u ∧ target l = w.
Proof.
  unfold graph_edges. rewrite list_elem_of_fmap. split.
  - intros (l & [= -> ->] & Hl). by exists l.
  - intros (l & Hl & <- & <-). by exists l.
Qed.

Lemma reach_app_l {V} (es es' : list (V * V)) u w :
  reach es u w → reach (es ++ es') u w.
Proof. apply reach_mono. intros e He. rewrite elem_of_app. by left. Qed.

Lemma reach_app_r {V} (es es' : list (V * V)) u w :
  reach es' u w → reach (es ++ es') u w.
Proof. apply reach_mono. intros e He. rewrite elem_of_app. by right. Qed.

(** X16. [attachDungeon] keeps a connected graph connected: if every room
    can be reached from every other one before, this is so afterwards, the
    new rooms included. *)
Theorem attachDungeon_connected g nodeId r g' r' :
  connected_on (node_ids g) (graph_edges g) →
  attachDungeon g nodeId r = Ok (g', r') →
  connected_on (node_ids g') (graph_edges g').
Proof.
  intros Hconn Hrun.
  apply attach_inv in Hrun
    as [(_ & -> & _)|(node & sub & r1 & first & rest & t & Hnode & Hsub
                      & Hfirst & _ & ->)]; [done|].
  pose proof (generate_connected _ _ _ _ Hsub) as Hsubconn.
  apply findNode_Some in Hnode as [Hnode Hid].
  assert (nodeId ∈ node_ids g) as Hin.
  { unfold node_ids. apply list_elem_of_fmap. by exists node. }
  assert (id first ∈ node_ids sub) as Hbridge.
  { unfold node_ids. rewrite Hfirst. cbn. left. }
  unfold node_ids, graph_edges; cbn [nodes links].
  rewrite fmap_app, <- list_fmap_compose.
  change (id <$> nodes g) with (node_ids g).
  change ((id ∘ _) <$> nodes sub) with (node_ids sub).
  rewrite !fmap_app.
  change (endpoints <$> links g) with (graph_edges g).
  change (endpoints <$> links sub) with (graph_edges sub).
  cbn [fmap list_fmap endpoints source target].
  set (es' := graph_edges g ++ graph_edges sub ++ [(nodeId, id first)]).
  assert (Hold : ∀ u w, u ∈ node_ids g → w ∈ node_ids g → reach es' u w).
  { intros u w Hu Hw. apply reach_app_l. by apply Hconn. }
  assert (Hnew : ∀ u w, u ∈ node_ids sub → w ∈ node_ids sub → reach es' u w).
  { intros u w Hu Hw. apply reach_app_r, reach_app_l. by apply Hsubconn. }
  assert (Hlink : reach es' nodeId (id first)).
  { eapply reach_step; [apply reach_refl|]. left.
    unfold es'. rewrite !elem_of_app. right. right. left. }
  intros u w [Hu|Hu]%elem_of_app [Hw|Hw]%elem_of_app.
  - by apply Hold.
  - eapply reach_trans; [by apply (Hold u nodeId)|].
    eapply reach_trans; [exact Hlink|]. by apply Hnew.
  - apply reach_sym.
    eapply reach_trans; [by apply (Hold w nodeId)|].
    eapply reach_trans; [exact Hlink|]. by apply Hnew.
  - by apply Hnew.
Qed.

Lemma SAMPLE_GRAPH_connected :
  connected_on (node_ids SAMPLE_GRAPH) (graph_edges SAMPLE_GRAPH).
Proof.
  intros u w Hu Hw.
  assert (∀ x, x ∈ node_ids SAMPLE_GRAPH → reach (graph_edges SAMPLE_GRAPH)
                                              "room-cellar" x) as Hr.
  { intros x Hx. cbn in Hx.
    apply elem_of_cons in Hx as [->|Hx].
    - eapply reach_step; [apply reach_refl|]. left. cbn. left.
    - apply list_elem_of_singleton in Hx as ->. apply reach_refl. }
  eapply reach_trans; [apply reach_sym|]; by apply Hr.
Qed.

Lemma attachDungeon_connected_witness :
  ∃ g' r', attachDungeon SAMPLE_GRAPH "room-cellar" SAMPLE_RNG = Ok (g', r') ∧
           connected_on (node_ids g') (graph_edges g').
Proof.
  destruct (attachDungeon SAMPLE_GRAPH "room-cellar" SAMPLE_RNG)
    as [[g' r']|] eqn:Hrun; [|by vm_compute in Hrun].
  exists g', r'. split; [reflexivity|].
  apply (attachDungeon_connected SAMPLE_GRAPH "room-cellar" SAMPLE_RNG g' r');
    [exact SAMPLE_GRAPH_connected|exact Hrun].
Defined.

(** X17. [attachDungeon] keeps the links closed: if the two ends of every
    link are rooms of the graph before, this is so afterwards. *)
Theorem attachDungeon_closed g nodeId r g' r' :
  closed_graph g →
  attachDungeon g nodeId r = Ok (g', r') →
  closed_graph g'.
Proof.
  intros Hclosed Hrun.
  apply attach_inv in Hrun
    as [(_ & -> & _)|(node & sub & r1 & first & rest & t & Hnode & Hsub
                      & Hfirst & _ & ->)]; [done|].
  pose proof (generate_closed _ _ _ _ Hsub) as Hsubclosed.
  apply findNode_Some in Hnode as [Hnode Hid].
  assert (nodeId ∈ node_ids g) as Hin.
  { unfold node_ids. apply list_elem_of_fmap. by exists node. }
  assert (id first ∈ node_ids sub) as Hbridge.
  { unfold node_ids. rewrite Hfirst. cbn. left. }
  unfold closed_graph, node_ids, graph_edges; cbn [nodes links].
  rewrite fmap_app, <- list_fmap_compose.
  change (id <$> nodes g) with (node_ids g).
  change ((id ∘ _) <$> nodes sub) with (node_ids sub).
  rewrite !fmap_app.
  change (endpoints <$> links g) with (graph_edges g).
  change (endpoints <$> links sub) with (graph_edges sub).
  cbn [fmap list_fmap endpoints source target].
  intros e He. rewrite !elem_of_app in He. destruct He as [He|[He|He]].
  - destruct (Hclosed e He). split; rewrite elem_of_app; by left.
  - destruct (Hsubclosed e He). split; rewrite elem_of_app; by right.
  - apply list_elem_of_singleton in He as ->. cbn.
    split; rewrite elem_of_app; [by left|by right].
Qed.

Lemma SAMPLE_GRAPH_closed : closed_graph SAMPLE_GRAPH.
Proof.
  apply closed_links_Forall. cbn. apply Forall_singleton. cbn.
  split; by_computation.
Qed.

Lemma attachDungeon_closed_witness :
  ∃ g' r', attachDungeon SAMPLE_GRAPH "room-hall" SAMPLE_RNG = Ok (g', r') ∧
           closed_graph g'.
Proof.
  destruct (attachDungeon SAMPLE_GRAPH "room-hall" SAMPLE_RNG)
    as [[g' r']|] eqn:Hrun; [|by vm_compute in Hrun].
  exists g', r'. split; [reflexivity|].
  apply (attachDungeon_closed SAMPLE_GRAPH "room-hall" SAMPLE_RNG g' r');
    [exact SAMPLE_GRAPH_closed|exact Hrun].
Defined.

(** X18. [replaceNodeWithDungeon] keeps the links closed when the replaced
    room has no link to itself: if the two ends of every link are rooms of
    the graph before, this is so afterwards. *)
Theorem replaceNodeWithDungeon_closed g nodeId r g' b r' :
  closed_graph g → (nodeId, nodeId) ∉ graph_edges g →
  replaceNodeWithDungeon g nodeId r = Ok ((g', b), r') →
  closed_graph g'.
Proof.
  intros Hclosed Hloop Hrun.
  apply replace_inv in Hrun
    as [(_ & -> & _)|(node & sub & first & rest & Hnode & Hsub
                      & Hfirst & Hb & ->)]; [done|].
  pose proof (generate_closed _ _ _ _ Hsub) as Hsubclosed.
  assert (b ∈ node_ids sub) as Hbridge.
  { unfold node_ids. rewrite Hfirst, Hb. cbn. left. }
  assert (Hkeep : ∀ x, x ∈ node_ids g → x ≠ nodeId →
                       x ∈ id <$> filter (λ n, id n ≠ nodeId) (nodes g)).
  { intros x Hx Hne. unfold node_ids in Hx.
    apply list_elem_of_fmap in Hx as (n & -> & Hn).
    apply list_elem_of_fmap. exists n. split; [done|].
    by apply list_elem_of_filter. }
  unfold closed_graph, node_ids, graph_edges; cbn [nodes links].
  rewrite fmap_app, splice_id.
  change (id <$> nodes sub) with (node_ids sub).
  intros e He. rewrite !fmap_app, !elem_of_app in He.
  destruct He as [He|[He|He]].
  - apply list_elem_of_fmap in He as (l & -> & Hl).
    apply list_elem_of_filter in Hl as [Hnt Hl].
    assert (endpoints l ∈ graph_edges g) as Hg.
    { unfold graph_edges. apply list_elem_of_fmap. by exists l. }
    destruct (Hclosed _ Hg) as [Hs Ht]. cbn in *.
    split; rewrite elem_of_app; left; apply Hkeep; try done.
    + intros Heq. apply Hnt. by left.
    + intros Heq. apply Hnt. by right.
  - destruct (Hsubclosed e He). split; rewrite elem_of_app; by right.
  - apply list_elem_of_fmap in He as (l' & -> & Hl').
    apply list_elem_of_fmap in Hl' as (l & -> & Hl).
    apply list_elem_of_filter in Hl as [Ht Hl].
    assert (endpoints l ∈ graph_edges g) as Hg.
    { unfold graph_edges. apply list_elem_of_fmap. by exists l. }
    destruct (Hclosed _ Hg) as [Hs Htg]. cbn in Hs, Htg.
    unfold reattach. cbn. split; [rewrite elem_of_app; by right|].
    rewrite elem_of_app. left. apply Hkeep.
    + by case_decide.
    + case_decide as Hsrc.
      * intros Htgt. apply Hloop. apply elem_of_graph_edges. by exists l.
      * done.
Qed.

Lemma replaceNodeWithDungeon_closed_witness :
  ∃ g' b r',
    replaceNodeWithDungeon SAMPLE_GRAPH "room-hall" SAMPLE_RNG
    = Ok ((g', b), r') ∧ closed_graph g'.
Proof.
  destruct (replaceNodeWithDungeon SAMPLE_GRAPH "room-hall" SAMPLE_RNG)
    as [[[g' b] r']|] eqn:Hrun; [|by vm_compute in Hrun].
  exists g', b, r'. split; [reflexivity|].
  apply (replaceNodeWithDungeon_closed SAMPLE_GRAPH "room-hall" SAMPLE_RNG
           g' b r'); [exact SAMPLE_GRAPH_closed| |exact Hrun].
  by_computation.
Defined.

(** X19. When the room exists and the six identifiers drawn are distinct,
    [replaceNodeWithDungeon] returns a graph whose rooms are the old rooms
    without the replaced one, in their order, followed by the six new rooms.
    The first new room is the bridge room that is returned: it has the
    label, the content and the entrance flag of the replaced room. The other
    new rooms are no entrances, and every new room has the replaced room as
    its parent. *)
Theorem replaceNodeWithDungeon_rooms g nodeId node r :
  findNode g nodeId = Some node → NoDup (drawnIds None r) →
  ∃ g' b r' first rest,
    replaceNodeWithDungeon g nodeId r = Ok ((g', b), r') ∧
    nodes g' = filter (λ n, id n ≠ nodeId) (nodes g) ++ first :: rest ∧
    id <$> (first :: rest) = drawnIds None r ∧
    id first = b ∧ label first = label node ∧
    content first = content node ∧ entrance first = entrance node ∧
    Forall (λ n, entrance n = Some false) rest ∧
    Forall (λ n, parentNodeId n = Some nodeId) (first :: rest).
Proof.
  intros Hnode Hnd.
  destruct (generate_returns None r I Hnd) as (sub & r1 & Hsub).
  destruct (generate_node_ids _ _ _ _ Hsub) as (first & rest & Hfirst).
  pose proof (generate_drawn _ _ _ _ Hsub) as Hids.
  unfold node_ids in Hids. rewrite Hfirst in Hids.
  exists (mkGraph
            (filter (λ n, id n ≠ nodeId) (nodes g)
             ++ (splice node nodeId (id first) <$> first :: rest))
            (filter (λ l, ¬ touches nodeId l) (links g)
             ++ links sub
             ++ (reattach nodeId (id first)
                   <$> filter (touches nodeId) (links g)))),
    (id first), r1,
    (splice node nodeId (id first) first),
    (splice node nodeId (id first) <$> rest).
  split.
  { unfold replaceNodeWithDungeon. rewrite Hnode.
    unfold mbind, Rand_bind. rewrite Hsub, Hfirst. reflexivity. }
  rewrite <- Hids in Hnd. cbn in Hnd. apply NoDup_cons in Hnd as [Hnotin _].
  cbn [nodes]. split_and!.
  - reflexivity.
  - rewrite <- Hids.
    exact (splice_id node nodeId (id first) (first :: rest)).
  - reflexivity.
  - cbn. by rewrite bool_decide_eq_true_2.
  - cbn. by rewrite bool_decide_eq_true_2.
  - cbn. by rewrite bool_decide_eq_true_2.
  - apply Forall_fmap, Forall_forall. intros n Hn. cbn.
    rewrite bool_decide_eq_false_2; [done|].
    intros Heq. apply Hnotin. rewrite <- Heq.
    apply list_elem_of_fmap. by exists n.
  - apply Forall_cons. split; [reflexivity|].
    apply Forall_fmap, Forall_forall. by intros n _.
Qed.

Lemma replaceNodeWithDungeon_rooms_witness :
  ∃ g' b r' first rest,
    replaceNodeWithDungeon SAMPLE_GRAPH "room-hall" SAMPLE_RNG
    = Ok ((g', b), r') ∧
    nodes g'
    = filter (λ n, id n ≠ "room-hall") (nodes SAMPLE_GRAPH) ++ first :: rest ∧
    id <$> (first :: rest) = drawnIds None SAMPLE_RNG ∧
    id first = b ∧ label first = label SAMPLE_ROOM ∧
    content first = content SAMPLE_ROOM ∧
    entrance first = entrance SAMPLE_ROOM ∧
    Forall (λ n, entrance n = Some false) rest ∧
    Forall (λ n, parentNodeId n = Some "room-hall") (first :: rest).
Proof.
  apply (replaceNodeWithDungeon_rooms SAMPLE_GRAPH "room-hall" SAMPLE_ROOM
           SAMPLE_RNG).
  - reflexivity.
  - by_computation.
Defined.

(** The ends of an old link, with the replaced room renamed to the bridge
    room, are the same room or the ends of a link of the new graph. *)
Lemma reattach_edge nodeId b (ls : list DungeonLink)
    (extra : list (string * string)) p q :
  (p, q) ∈ endpoints <$> ls →
  let f := λ x : string, if decide (x = nodeId) then b else x in
  f p = f q ∨
  adjacent
    ((endpoints <$> filter (λ l, ¬ touches nodeId l) ls) ++ extra
     ++ (endpoints <$> (reattach nodeId b <$> filter (touches nodeId) ls)))
    (f p) (f q).
Proof.
  intros Hpq f. apply list_elem_of_fmap in Hpq as (l & [= -> ->] & Hl).
  unfold adjacent. rewrite !elem_of_app.
  destruct (decide (touches nodeId l)) as [Ht|Ht].
  - assert (endpoints (reattach nodeId b l) ∈
            endpoints <$> (reattach nodeId b <$> filter (touches nodeId) ls))
      as Hin.
    { apply list_elem_of_fmap. eexists. split; [reflexivity|].
      apply list_elem_of_fmap. exists l. split; [reflexivity|].
      by apply list_elem_of_filter. }
    unfold reattach, endpoints in Hin. cbn in Hin. unfold f.
    destruct (decide (source l = nodeId)) as [Hs|Hs].
    + destruct (decide (target l = nodeId)) as [Htg|Htg]; [by left|].
      right. left. right. right. exact Hin.
    + destruct Ht as [Hs'|Htg]; [done|].
      rewrite (decide_True (P := target l = nodeId)) by done.
      right. right. right. right. exact Hin.
  - unfold f.
    rewrite (decide_False (P := source l = nodeId))
      by (intros Hs; apply Ht; by left).
    rewrite (decide_False (P := target l = nodeId))
      by (intros Hs; apply Ht; by right).
    right. left. left. apply list_elem_of_fmap. exists l.
    split; [reflexivity|]. by apply list_elem_of_filter.
Qed.

Lemma reattach_reach nodeId b (ls : list DungeonLink)
    (extra : list (string * string)) u w :
  reach (endpoints <$> ls) u w →
  let f := λ x : string, if decide (x = nodeId) then b else x in
  reach
    ((endpoints <$> filter (λ l, ¬ touches nodeId l) ls) ++ extra
     ++ (endpoints <$> (reattach nodeId b <$> filter (touches nodeId) ls)))
    (f u) (f w).
Proof.
  intros Hr f. subst f. cbn beta.
  induction Hr as [|w x Hr IH Hadj]; [apply reach_refl|].
  destruct Hadj as [Hadj|Hadj].
  - destruct (reattach_edge nodeId b ls extra _ _ Hadj) as [Heq|Hadj'].
    + cbn beta in Heq. by rewrite <- Heq.
    + eapply reach_step; [exact IH|exact Hadj'].
  - destruct (reattach_edge nodeId b ls extra _ _ Hadj) as [Heq|Hadj'].
    + cbn beta in Heq. by rewrite Heq.
    + eapply reach_step; [exact IH|]. by apply adjacent_sym.
Qed.

(** X20. [replaceNodeWithDungeon] keeps a connected graph connected: if
    every room can be reached from every other one before, this is so
    afterwards, the new rooms included. *)
Theorem replaceNodeWithDungeon_connected g nodeId r g' b r' :
  connected_on (node_ids g) (graph_edges g) →
  replaceNodeWithDungeon g nodeId r = Ok ((g', b), r') →
  connected_on (node_ids g') (graph_edges g').
Proof.
  intros Hconn Hrun.
  apply replace_inv in Hrun
    as [(_ & -> & _)|(node & sub & first & rest & Hnode & Hsub
                      & Hfirst & Hb & ->)]; [done|].
  pose proof (generate_connected _ _ _ _ Hsub) as Hsubconn.
  apply findNode_Some in Hnode as [Hnode Hid].
  assert (nodeId ∈ node_ids g) as Hin.
  { unfold node_ids. apply list_elem_of_fmap. by exists node. }
  assert (b ∈ node_ids sub) as Hbridge.
  { unfold node_ids. rewrite Hfirst, Hb. cbn. left. }
  unfold node_ids, graph_edges; cbn [nodes links].
  rewrite fmap_app, splice_id. rewrite !fmap_app.
  change (id <$> nodes sub) with (node_ids sub).
  change (endpoints <$> links sub) with (graph_edges sub).
  set (es' := _ ++ graph_edges sub ++ _).
  set (f := λ x : string, if decide (x = nodeId) then b else x).
  assert (Hf : ∀ u w, reach (graph_edges g) u w → reach es' (f u) (f w)).
  { intros u w Hr.
    exact (reattach_reach nodeId b (links g) (graph_edges sub) u w Hr). }
  assert (Hkept : ∀ u, u ∈ id <$> filter (λ n, id n ≠ nodeId) (nodes g) →
                       u ∈ node_ids g ∧ f u = u).
  { intros u Hu. apply list_elem_of_fmap in Hu as (n & -> & Hn).
    apply list_elem_of_filter in Hn as [Hne Hn]. split.
    - unfold node_ids. apply list_elem_of_fmap. by exists n.
    - unfold f. by rewrite decide_False. }
  assert (Hfb : f nodeId = b).
  { unfold f. by rewrite decide_True. }
  assert (Hnew : ∀ u w, u ∈ node_ids sub → w ∈ node_ids sub → reach es' u w).
  { intros u w Hu Hw. apply reach_app_r, reach_app_l. by apply Hsubconn. }
  assert (Hcross : ∀ u w, u ∈ id <$> filter (λ n, id n ≠ nodeId) (nodes g) →
                          w ∈ node_ids sub → reach es' u w).
  { intros u w Hu Hw. destruct (Hkept u Hu) as [Hug Hfu].
    eapply reach_trans; [|by apply (Hnew b w)].
    rewrite <- Hfu, <- Hfb. apply Hf. by apply Hconn. }
  intros u w Hu Hw. rewrite elem_of_app in Hu, Hw.
  destruct Hu as [Hu|Hu], Hw as [Hw|Hw].
  - destruct (Hkept u Hu) as [Hug Hfu], (Hkept w Hw) as [Hwg Hfw].
    rewrite <- Hfu, <- Hfw. apply Hf. by apply Hconn.
  - by apply Hcross.
  - apply reach_sym. by apply Hcross.
  - by apply Hnew.
Qed.

Lemma replaceNodeWithDungeon_connected_witness :
  ∃ g' b r',
    replaceNodeWithDungeon SAMPLE_GRAPH "room-cellar" SAMPLE_RNG
    = Ok ((g', b), r') ∧
    connected_on (node_ids g') (graph_edges g').
Proof.
  destruct (replaceNodeWithDungeon SAMPLE_GRAPH "room-cellar" SAMPLE_RNG)
    as [[[g' b] r']|] eqn:Hrun; [|by vm_compute in Hrun].
  exists g', b, r'. split; [reflexivity|].
  apply (replaceNodeWithDungeon_connected SAMPLE_GRAPH "room-cellar" SAMPLE_RNG
           g' b r'); [exact SAMPLE_GRAPH_connected|exact Hrun].
Defined.

(** ** The connections of a room *)

Lemma insertBy_Permutation {A} (cmp : A → A → Z) x l :
  insertBy cmp x l ≡ₚ x :: l.
Proof.
  induction l as [|y l IH]; cbn; [done|].
  destruct (cmp x y <=? 0); [done|].
  rewrite IH. apply Permutation_swap.
Qed.

Lemma stableSort_Permutation A (cmp : A → A → Z) l : stableSort A cmp l ≡ₚ l.
Proof.
  unfold stableSort. induction l as [|x l IH]; cbn; [done|].
  by rewrite insertBy_Permutation, IH.
Qed.

Lemma collect_omap g nodeId ls acc :
  foldl (λ result link,
           match connectionOf g nodeId link with
           | None => result
           | Some info => result ++ [info]
           end) acc ls
  = acc ++ omap (connectionOf g nodeId) ls.
Proof.
  revert acc. induction ls as [|l ls IH]; intros acc; cbn.
  - by rewrite app_nil_r.
  - rewrite IH. destruct (connectionOf g nodeId l); [|done].
    by rewrite <- app_assoc.
Qed.

Lemma connectionOf_Some g nodeId l c :
  connectionOf g nodeId l = Some c ↔
  ∃ other, joins nodeId other l ∧
    findNode g other = Some (ConnectionInfo.otherNode c) ∧
    ConnectionInfo.connectionType c = connectionType l ∧
    ConnectionInfo.description c = description l ∧
    ConnectionInfo.clueRoomId c = clueRoomId l.
Proof.
  unfold connectionOf, joins. split.
  - destruct (decide (source l ≠ nodeId ∧ target l ≠ nodeId)) as [?|Ht];
      [done|].
    destruct (decide (source l = nodeId)) as [Hs|Hs].
    + destruct (findNode g (target l)) as [n|] eqn:Hn; [|done].
      intros [= <-]. exists (target l). cbn. split_and!; try done. by left.
    + destruct (findNode g (source l)) as [n|] eqn:Hn; [|done].
      intros [= <-]. exists (source l). cbn. split_and!; try done.
      right. split; [done|].
      destruct (decide (target l = nodeId)); [done|]. by destruct Ht.
  - intros (other & Hj & Hn & Hc & Hd & Hk).
    rewrite decide_False by (intros [? ?]; destruct Hj as [[? ?]|[? ?]]; done).
    assert ((if decide (source l = nodeId) then target l else source l)
            = other) as ->.
    { destruct (decide (source l = nodeId)) as [Hs|Hs].
      - destruct Hj as [[_ ?]|[? ?]]; congruence.
      - destruct Hj as [[? _]|[? _]]; congruence. }
    rewrite Hn. destruct c. cbn in *. by subst.
Qed.

Lemma getConnectionsForNode_elem sort localeCompare g nodeId c :
  (∀ A cmp (l : list A), sort A cmp l ≡ₚ l) →
  c ∈ getConnectionsForNode sort localeCompare g nodeId ↔
  ∃ l, l ∈ links g ∧ connectionOf g nodeId l = Some c.
Proof.
  intros Hsort. unfold getConnectionsForNode.
  rewrite Hsort, collect_omap, app_nil_l. apply list_elem_of_omap.
Qed.

(** X21. Whatever the engine's sort and collation are (as long as sorting
    rearranges), the connections of a room are the links that have the room
    at one end and a room of the graph at the other: an entry is listed
    exactly when some link joins the room to another identifier, the first
    room with that identifier is the entry's room, and the entry carries
    the link's type, description and clue. There are at most as many
    entries as links at the room. *)
Theorem getConnectionsForNode_entries sort localeCompare g nodeId :
  (∀ A cmp (l : list A), sort A cmp l ≡ₚ l) →
  (∀ c, c ∈ getConnectionsForNode sort localeCompare g nodeId ↔
        ∃ l other, l ∈ links g ∧ joins nodeId other l ∧
          findNode g other = Some (ConnectionInfo.otherNode c) ∧
          ConnectionInfo.connectionType c = connectionType l ∧
          ConnectionInfo.description c = description l ∧
          ConnectionInfo.clueRoomId c = clueRoomId l) ∧
  (length (getConnectionsForNode sort localeCompare g nodeId)
   ≤ length (filter (touches nodeId) (links g)))%nat.
Proof.
  intros Hsort. split.
  - intros c. rewrite getConnectionsForNode_elem by done. split.
    + intros (l & Hl & Hc). apply connectionOf_Some in Hc as (other & Hc).
      by exists l, other.
    + intros (l & other & Hl & Hc). exists l. split; [done|].
      apply connectionOf_Some. by exists other.
  - unfold getConnectionsForNode.
    rewrite Hsort, collect_omap, app_nil_l.
    induction (links g) as [|l ls IH]; [done|]. cbn [omap list_omap].
    destruct (connectionOf g nodeId l) as [c|] eqn:Hc.
    + apply connectionOf_Some in Hc as (other & Hj & _).
      rewrite filter_cons_True.
      * cbn. lia.
      * unfold touches. destruct Hj as [[? _]|[_ ?]]; [by left|by right].
    + destruct (decide (touches nodeId l)).
      * rewrite filter_cons_True by done. cbn. lia.
      * by rewrite filter_cons_False.
Qed.

Lemma getConnectionsForNode_entries_witness :
  (∀ c, c ∈ getConnectionsForNode stableSort codeUnitCompare SAMPLE_GRAPH
              "room-hall" ↔
        ∃ l other, l ∈ links SAMPLE_GRAPH ∧ joins "room-hall" other l ∧
          findNode SAMPLE_GRAPH other = Some (ConnectionInfo.otherNode c) ∧
          ConnectionInfo.connectionType c = connectionType l ∧
          ConnectionInfo.description c = description l ∧
          ConnectionInfo.clueRoomId c = clueRoomId l) ∧
  (length (getConnectionsForNode stableSort codeUnitCompare SAMPLE_GRAPH
             "room-hall")
   ≤ length (filter (touches "room-hall") (links SAMPLE_GRAPH)))%nat.
Proof.
  apply (getConnectionsForNode_entries stableSort codeUnitCompare
           SAMPLE_GRAPH "room-hall").
  exact stableSort_Permutation.
Defined.

(** X22. A link between two rooms of the graph shows in the connections of
    both: the list of each end has an entry for the room at the other end
    (the first room with that identifier), with the link's type,
    description and clue. *)
Theorem getConnectionsForNode_both_ends sort localeCompare g l a b :
  (∀ A cmp (l : list A), sort A cmp l ≡ₚ l) →
  l ∈ links g →
  findNode g (source l) = Some a → findNode g (target l) = Some b →
  ConnectionInfo.mk b (connectionType l) (description l) (clueRoomId l)
    ∈ getConnectionsForNode sort localeCompare g (source l) ∧
  ConnectionInfo.mk a (connectionType l) (description l) (clueRoomId l)
    ∈ getConnectionsForNode sort localeCompare g (target l).
Proof.
  intros Hsort Hl Ha Hb. split.
  - apply getConnectionsForNode_elem; [done|]. exists l. split; [done|].
    apply connectionOf_Some. exists (target l). cbn. split_and!; try done.
    by left.
  - apply getConnectionsForNode_elem; [done|]. exists l. split; [done|].
    apply connectionOf_Some. exists (source l). cbn. split_and!; try done.
    by right.
Qed.

Lemma getConnectionsForNode_both_ends_witness :
  ConnectionInfo.mk SAMPLE_ROOM closed None None
    ∈ getConnectionsForNode stableSort codeUnitCompare SAMPLE_GRAPH "room-cellar" ∧
  ConnectionInfo.mk (mkNode "room-cellar" "Cellar" monster "A cellar." None None)
      closed None None
    ∈ getConnectionsForNode stableSort codeUnitCompare SAMPLE_GRAPH "room-hall".
Proof.
  apply (getConnectionsForNode_both_ends stableSort codeUnitCompare
           SAMPLE_GRAPH (mkLink "room-cellar" "room-hall" closed None None)
           (mkNode "room-cellar" "Cellar" monster "A cellar." None None)
           SAMPLE_ROOM).
  - exact stableSort_Permutation.
  - cbn. left.
  - reflexivity.
  - reflexivity.
Defined.

(** ** The depth labelling and the tree layout *)

Lemma newSet_acc (ids acc : list string) x :
  x ∈ foldl (λ set i, if decide (i ∈ set) then set else set ++ [i]) acc ids
  ↔ x ∈ acc ∨ x ∈ ids.
Proof.
  revert acc. induction ids as [|i ids IH]; intros acc; cbn.
  - rewrite elem_of_nil. tauto.
  - rewrite IH, elem_of_cons. destruct (decide (i ∈ acc)) as [Hi|Hi].
    + split; [tauto|]. intros [?|[->|?]]; tauto.
    + rewrite elem_of_app, list_elem_of_singleton. tauto.
Qed.

Lemma newSet_elem ids x : x ∈ newSet ids ↔ x ∈ ids.
Proof. unfold newSet. rewrite newSet_acc, elem_of_nil. tauto. Qed.

Lemma newSet_length_acc (ids acc : list string) :
  (length (foldl (λ set i, if decide (i ∈ set) then set else set ++ [i])
             acc ids)
   ≤ length acc + length ids)%nat.
Proof.
  revert acc. induction ids as [|i ids IH]; intros acc; cbn; [lia|].
  destruct (decide (i ∈ acc)).
  - specialize (IH acc). lia.
  - specialize (IH (acc ++ [i])). rewrite length_app in IH. cbn in IH. lia.
Qed.

Lemma newSet_length ids : (length (newSet ids) ≤ length ids)%nat.
Proof. apply (newSet_length_acc ids []). Qed.

Lemma newSet_nonempty ids :
  ids ≠ [] → (length (newSet ids) =? 0)%nat = false.
Proof.
  intros Hne. destruct ids as [|i ids]; [done|].
  assert (i ∈ newSet (i :: ids)) as Hi by (apply newSet_elem; left).
  destruct (newSet (i :: ids)); [by apply elem_of_nil in Hi|done].
Qed.

Lemma pushAdj_None adj a b :
  adj !! a = None → pushAdj adj a b = Err TypeError.
Proof. unfold pushAdj. by intros ->. Qed.

Lemma pushAdj_dom adj a b adj1 u :
  pushAdj adj a b = Ok adj1 → adj1 !! u = None ↔ adj !! u = None.
Proof.
  unfold pushAdj. destruct (adj !! a) as [l|] eqn:Ha; [|done].
  intros [= <-]. destruct (decide (a = u)) as [->|Hne].
  - rewrite lookup_insert_eq, Ha. done.
  - by rewrite lookup_insert_ne.
Qed.

Lemma buildAdj_dangling es adj e :
  e ∈ es → adj !! e.1 = None ∨ adj !! e.2 = None →
  buildAdj (λ _, false) es adj = Err TypeError.
Proof.
  revert adj. induction es as [|e0 es IH]; intros adj He Hd.
  { by apply elem_of_nil in He. }
  cbn. unfold mbind, result_bind.
  destruct (pushAdj adj e0.1 e0.2) as [adj1|err] eqn:H1.
  - destruct (pushAdj adj1 e0.2 e0.1) as [adj2|err] eqn:H2.
    + assert (Hdom : ∀ u, adj2 !! u = None ↔ adj !! u = None).
      { intros u. rewrite (pushAdj_dom _ _ _ _ u H2).
        apply (pushAdj_dom _ _ _ _ u H1). }
      apply elem_of_cons in He as [->|He].
      * exfalso. unfold pushAdj in H1, H2.
        destruct (adj !! e0.1) eqn:Ha; [|done].
        destruct (adj1 !! e0.2) eqn:Hb; [|done].
        destruct Hd as [Hd|Hd]; [done|].
        apply (pushAdj_dom adj e0.1 e0.2 adj1 e0.2) in Hd; [congruence|].
        unfold pushAdj. by rewrite Ha.
      * apply IH; [done|]. by rewrite !Hdom.
    + unfold pushAdj in H2. by destruct (adj1 !! e0.2).
  - unfold pushAdj in H1. by destruct (adj !! e0.1).
Qed.

Lemma emptyAdj_dangling nodeIds (e : string * string) :
  e.1 ∉ nodeIds ∨ e.2 ∉ nodeIds →
  emptyAdj nodeIds !! e.1 = None ∨ emptyAdj nodeIds !! e.2 = None.
Proof.
  rewrite !emptyAdj_lookup.
  intros [Hd|Hd]; [left|right]; by rewrite decide_False.
Qed.

(** X23. The depth labelling throws a [TypeError] as soon as some link has
    an end that is not one of the nodes, however the loop is bounded: the
    adjacency lists are filled before any node is labelled. *)
Theorem getDepthsFromEntrances_dangling fuel nodeIds links entranceIds e :
  e ∈ links → e.1 ∉ nodeIds ∨ e.2 ∉ nodeIds →
  getDepthsFromEntrances fuel nodeIds links entranceIds = Err TypeError.
Proof.
  intros He Hd. unfold getDepthsFromEntrances.
  rewrite (buildAdj_dangling links (emptyAdj nodeIds) e He); [done|].
  by apply emptyAdj_dangling.
Qed.

Lemma getDepthsFromEntrances_dangling_witness :
  getDepthsFromEntrances 0 ["a"] [("a", "ghost")] ["a"] = Err TypeError.
Proof.
  apply (getDepthsFromEntrances_dangling 0 ["a"] [("a", "ghost")] ["a"]
           ("a", "ghost")).
  - left.
  - right. cbn. by_computation.
Defined.

Lemma walk_nodes nodeIds es roots m v :
  closed_links nodeIds es → (∀ r, r ∈ roots → r ∈ nodeIds) →
  walk es roots m v → v ∈ nodeIds.
Proof.
  intros Hclosed Hroots Hw. induction Hw as [r Hr|n w x Hw IH Hadj].
  - by apply Hroots.
  - destruct Hadj as [Hadj|Hadj]; by destruct (Hclosed _ Hadj).
Qed.

(** A room labelled [d] ends a chain of rooms labelled 0, 1, ..., [d]. *)
Lemma depth_chain es roots (depths : gmap string nat) :
  (∀ v d, depths !! v = Some d ↔ distance es roots d v) →
  (∀ m v, walk es roots m v → is_Some (depths !! v)) →
  ∀ d v, depths !! v = Some d →
    ∃ l, (λ x, depths !! x) <$> l = Some <$> seq 0 (S d).
Proof.
  intros Hdist Hall. induction d as [|k IH]; intros v Hv.
  - exists [v]. cbn. by rewrite Hv.
  - pose proof Hv as Hv'. apply Hdist in Hv' as [Hwalk Hmin].
    inversion Hwalk as [|n p x Hp Hadj]; subst.
    destruct (Hall _ _ Hp) as [dp Hdp].
    assert (dp = k) as ->.
    { pose proof Hdp as Hdp'. apply Hdist in Hdp' as [Hwp Hminp].
      specialize (Hminp _ Hp).
      assert (walk es roots (S dp) v) as Hw' by (by eapply walk_step).
      specialize (Hmin _ Hw'). lia. }
    destruct (IH _ Hdp) as [l Hl]. exists (l ++ [v]).
    rewrite fmap_app, Hl. cbn [fmap list_fmap]. rewrite Hv.
    rewrite (seq_S (S k)), fmap_app. reflexivity.
Qed.

Lemma depth_bound nodeIds es roots (depths : gmap string nat) v d :
  closed_links nodeIds es → (∀ r, r ∈ roots → r ∈ nodeIds) →
  (∀ v d, depths !! v = Some d ↔ distance es roots d v) →
  (∀ m v, walk es roots m v → is_Some (depths !! v)) →
  depths !! v = Some d → (d < length nodeIds)%nat.
Proof.
  intros Hclosed Hroots Hdist Hall Hv.
  destruct (depth_chain es roots depths Hdist Hall d v Hv) as [l Hl].
  assert (NoDup l) as Hnd.
  { apply (NoDup_fmap_1 (λ x, depths !! x)). rewrite Hl.
    apply NoDup_fmap_2; [apply _|]. apply NoDup_seq. }
  assert (length l = S d) as Hlen.
  { rewrite <- (length_fmap (λ x, depths !! x)), Hl, length_fmap.
    apply length_seq. }
  assert (∀ x, x ∈ l → x ∈ nodeIds) as Hsub.
  { intros x Hx.
    assert (is_Some (depths !! x)) as [dx Hdx].
    { apply list_elem_of_lookup in Hx as [i Hi].
      assert (((λ x, depths !! x) <$> l) !! i = Some (depths !! x)) as Hli
        by (by rewrite list_lookup_fmap, Hi).
      rewrite Hl, list_lookup_fmap in Hli.
      destruct (seq 0 (S d) !! i) as [n|]; [|done].
      cbn in Hli. injection Hli as <-. by exists n. }
    apply Hdist in Hdx as [Hw _].
    by eapply walk_nodes. }
  pose proof (submseteq_length _ _ (NoDup_submseteq _ _ Hnd Hsub)). lia.
Qed.

(** X24. The labels form layers. When every end of a link is a node and
    the loop has room for one turn per node: the two ends of a link are
    labelled together, with depths that differ by at most one; a node of
    depth [d + 1] has a neighbour of depth [d]; and every depth is smaller
    than the number of nodes. *)
Theorem getDepthsFromEntrances_layers fuel nodeIds links entranceIds depths :
  closed_links nodeIds links →
  (∀ e, e ∈ entranceIds → e ∈ nodeIds) →
  (length nodeIds ≤ fuel)%nat →
  getDepthsFromEntrances fuel nodeIds links entranceIds = Ok depths →
  (∀ u w d, adjacent links u w → depths !! u = Some d →
     ∃ d', depths !! w = Some d' ∧ (d' ≤ d + 1 ∧ d ≤ d' + 1)%nat) ∧
  (∀ u d, depths !! u = Some (S d) →
     ∃ p, adjacent links p u ∧ depths !! p = Some d) ∧
  (∀ v d, depths !! v = Some d → (d < length nodeIds)%nat).
Proof.
  intros Hclosed Hent Hfuel Hrun.
  destruct (getDepthsFromEntrances_distance fuel nodeIds links entranceIds
              Hclosed Hent Hfuel) as (depths' & Hrun' & Hdist & Hall).
  rewrite Hrun in Hrun'. injection Hrun' as <-.
  set (roots := rootsOf nodeIds entranceIds) in *.
  assert (Hnext : ∀ u w d, adjacent links u w → depths !! u = Some d →
            ∃ d', depths !! w = Some d' ∧ (d' ≤ d + 1)%nat).
  { intros u w d Hadj Hu. apply Hdist in Hu as [Hwu _].
    assert (walk links roots (S d) w) as Hww by (by eapply walk_step).
    destruct (Hall _ _ Hww) as [d' Hd']. exists d'. split; [done|].
    apply Hdist in Hd' as [_ Hmin]. specialize (Hmin _ Hww). lia. }
  split_and!.
  - intros u w d Hadj Hu.
    destruct (Hnext u w d Hadj Hu) as (d' & Hw & Hle).
    exists d'. split; [done|]. split; [done|].
    destruct (Hnext w u d' (adjacent_sym _ _ _ Hadj) Hw) as (d2 & Hu2 & Hle2).
    rewrite Hu in Hu2. injection Hu2 as <-. done.
  - intros u d Hu. pose proof Hu as Hu'.
    apply Hdist in Hu' as [Hwalk Hmin].
    inversion Hwalk as [|n p x Hp Hadj]; subst.
    destruct (Hall _ _ Hp) as [dp Hdp]. exists p. split; [done|].
    destruct (Hnext p u dp Hadj Hdp) as (d2 & Hu2 & Hle2).
    rewrite Hu in Hu2. injection Hu2 as <-.
    pose proof Hdp as Hdp'. apply Hdist in Hdp' as [_ Hminp].
    specialize (Hminp _ Hp). rewrite Hdp. f_equal. lia.
  - intros v d Hv. eapply (depth_bound nodeIds links roots); try done.
    intros r. by apply rootsOf_nodes.
Qed.

Lemma getDepthsFromEntrances_layers_witness :
  ∃ depths,
    getDepthsFromEntrances 5 SQUARE_NODES SQUARE_LINKS ["a"] = Ok depths ∧
    ∀ v d, depths !! v = Some d → (d < length SQUARE_NODES)%nat.
Proof.
  destruct (getDepthsFromEntrances 5 SQUARE_NODES SQUARE_LINKS ["a"])
    as [depths|] eqn:Hrun; [|by vm_compute in Hrun].
  exists depths. split; [reflexivity|].
  apply (getDepthsFromEntrances_layers 5 SQUARE_NODES SQUARE_LINKS ["a"]
           depths).
  - apply closed_links_Forall. by_computation.
  - intros e He. apply list_elem_of_singleton in He as ->. by_computation.
  - cbn. lia.
  - exact Hrun.
Defined.

Lemma String_ltb_asym s t : String.ltb s t = true → String.ltb t s = false.
Proof.
  unfold String.ltb. rewrite (String.compare_antisym s t).
  by destruct (String.compare t s).
Qed.

Lemma String_ltb_total s t :
  String.ltb s t = false → String.ltb t s = false → s = t.
Proof.
  unfold String.ltb. rewrite (String.compare_antisym s t).
  destruct (String.compare t s) eqn:Hc; try done.
  intros _ _. symmetry. by apply String.compare_eq_iff.
Qed.

Lemma nearerEnd_comm depths s t : nearerEnd depths s t = nearerEnd depths t s.
Proof.
  unfold nearerEnd. cbn zeta.
  destruct (Nat.ltb_spec (default 0%nat (depths !! s))
              (default 0%nat (depths !! t))) as [H1|H1],
           (Nat.ltb_spec (default 0%nat (depths !! t))
              (default 0%nat (depths !! s))) as [H2|H2];
    try done; try lia.
  destruct (String.ltb s t) eqn:Hst, (String.ltb t s) eqn:Hts; try done.
  - apply String_ltb_asym in Hst. congruence.
  - symmetry. by apply String_ltb_total.
Qed.

Lemma nearerEnd_end depths s t :
  nearerEnd depths s t = s ∨ nearerEnd depths s t = t.
Proof.
  unfold nearerEnd. cbn zeta.
  repeat match goal with |- context [if ?b then _ else _] => destruct b end;
    tauto.
Qed.

Lemma nearerEnd_le depths s t :
  (depthOf depths (nearerEnd depths s t) ≤ depthOf depths s)%nat ∧
  (depthOf depths (nearerEnd depths s t) ≤ depthOf depths t)%nat.
Proof.
  unfold nearerEnd, depthOf. cbn zeta.
  destruct (Nat.ltb_spec (default 0%nat (depths !! s))
              (default 0%nat (depths !! t))) as [H1|H1]; [lia|].
  destruct (Nat.ltb_spec (default 0%nat (depths !! t))
              (default 0%nat (depths !! s))) as [H2|H2]; [lia|].
  destruct (String.ltb s t); lia.
Qed.

(** What [orient] returns for a link of the graph. *)
Lemma orient_Ok g depths l :
  l ∈ links g →
  ∃ k first,
    links g !! k = Some first ∧ joins (source l) (target l) first ∧
    (∀ j e, links g !! j = Some e → (j < k)%nat →
            ¬ joins (source l) (target l) e) ∧
    orient g depths l
    = Ok (Force.mkLink (nearerEnd depths (source l) (target l))
            (if decide (nearerEnd depths (source l) (target l) = source l)
             then target l else source l)
            (connectionType first) (clueRoomId first)).
Proof.
  intros Hl. unfold orient. cbn zeta.
  destruct (list_find _ (links g)) as [[k first]|] eqn:Hfind.
  - apply list_find_Some in Hfind as (Hk & Hfirst & Hmin).
    exists k, first. split_and!; try done.
  - apply list_find_None in Hfind. rewrite Forall_forall in Hfind.
    destruct (Hfind l Hl). by left.
Qed.

(** Links between the same two rooms are oriented alike. *)
Lemma orient_pair g depths l l' :
  joins (source l) (target l) l' → orient g depths l' = orient g depths l.
Proof.
  intros [[Hs Ht]|[Hs Ht]].
  - unfold orient. by rewrite Hs, Ht.
  - unfold orient. cbn zeta. rewrite Hs, Ht.
    fold (nearerEnd depths (target l) (source l)).
    fold (nearerEnd depths (source l) (target l)).
    rewrite (nearerEnd_comm depths (target l) (source l)).
    rewrite (list_find_ext
               (λ e, (source e = target l ∧ target e = source l)
                     ∨ (source e = source l ∧ target e = target l))
               (λ e, (source e = source l ∧ target e = target l)
                     ∨ (source e = target l ∧ target e = source l)))
      by (intros e; tauto).
    destruct (list_find _ (links g)) as [[k first]|]; [|done].
    do 2 f_equal.
    destruct (nearerEnd_end depths (source l) (target l)) as [He|He];
      rewrite He.
    + rewrite (decide_True (P := source l = source l)) by done.
      destruct (decide (source l = target l)); congruence.
    + rewrite (decide_True (P := target l = target l)) by done.
      destruct (decide (target l = source l)); congruence.
Qed.

Lemma orientAll_Ok g depths ls :
  (∀ l, l ∈ ls → l ∈ links g) →
  ∃ out, orientAll g depths ls = Ok out ∧
    ∀ i, Ok <$> out !! i = orient g depths <$> ls !! i.
Proof.
  induction ls as [|l ls IH]; intros Hin.
  - exists []. split; [done|]. by intros i.
  - destruct (orient_Ok g depths l) as (k & first & _ & _ & _ & Hl).
    { apply Hin. left. }
    destruct IH as (out & Hout & Hlook).
    { intros l' Hl'. apply Hin. by right. }
    eexists (_ :: out). cbn. unfold mbind, result_bind.
    rewrite Hl, Hout. split; [reflexivity|].
    intros [|i]; cbn; [by rewrite Hl|apply Hlook].
Qed.

Lemma closed_graph_newSet g :
  closed_graph g → closed_links (newSet (node_ids g)) (graph_edges g).
Proof.
  intros Hclosed e He. destruct (Hclosed e He).
  split; by apply newSet_elem.
Qed.

Lemma entranceIdsOf_nodes g e :
  e ∈ entranceIdsOf g → e ∈ newSet (node_ids g).
Proof.
  intros He. apply newSet_elem. unfold entranceIdsOf in He.
  apply list_elem_of_fmap in He as (n & -> & Hn).
  apply list_elem_of_filter in Hn as [_ Hn].
  unfold node_ids. apply list_elem_of_fmap. by exists n.
Qed.

(** X25. The links of the tree layout. When every end of a link is a room
    and the labelling has room for one turn per room, the data for the
    layout are produced, with one link for each link of the graph, in
    order. That link joins the same two rooms; it starts at the end whose
    depth is not the larger one (a room without a label counts as depth 0);
    it has the type and the clue of the first link of the graph between
    the two rooms; and two links between the same two rooms, whichever way
    round they are stored, give equal links. *)
Theorem graphDataForForce_tree fuel g :
  closed_graph g → (length (nodes g) ≤ fuel)%nat →
  ∃ depths ns ls,
    graphDataForForce fuel true g = Ok (ns, ls) ∧
    (nodes g ≠ [] →
     getDepthsFromEntrances fuel (newSet (node_ids g)) (graph_edges g)
       (entranceIdsOf g) = Ok depths) ∧
    length ls = length (links g) ∧
    ∀ i l, links g !! i = Some l →
      ∃ fl k first, ls !! i = Some fl ∧
        joins (Force.source fl) (Force.target fl) l ∧
        (depthOf depths (Force.source fl)
         ≤ depthOf depths (Force.target fl))%nat ∧
        links g !! k = Some first ∧ joins (source l) (target l) first ∧
        (∀ j e, links g !! j = Some e → (j < k)%nat →
                ¬ joins (source l) (target l) e) ∧
        Force.connectionType fl = connectionType first ∧
        Force.clueRoomId fl = clueRoomId first ∧
        (∀ j l', links g !! j = Some l' → joins (source l) (target l) l' →
                 ls !! j = Some fl).
Proof.
  intros Hclosed Hfuel.
  destruct (nodes g) as [|n0 ns0] eqn:Hnodes.
  { assert (links g = []) as Hlinks.
    { destruct (links g) as [|l ls] eqn:Hl; [done|].
      destruct (Hclosed (endpoints l)) as [Hs _].
      - unfold graph_edges. rewrite Hl. left.
      - unfold node_ids in Hs. rewrite Hnodes in Hs.
        by apply elem_of_nil in Hs. }
    exists ∅, [], []. unfold graphDataForForce, node_ids.
    rewrite Hnodes, Hlinks. cbn. split_and!; try done. }
  destruct (getDepthsFromEntrances_distance fuel (newSet (node_ids g))
              (graph_edges g) (entranceIdsOf g)) as (depths & Hrun & _).
  { by apply closed_graph_newSet. }
  { apply entranceIdsOf_nodes. }
  { etrans; [apply newSet_length|]. unfold node_ids.
    rewrite length_fmap, Hnodes. done. }
  destruct (orientAll_Ok g depths (links g)) as (ls & Hls & Hlook); [done|].
  exists depths,
    ((λ n, Force.mkNode (id n) (label n) (roomType n) (entrance n))
       <$> nodes g), ls.
  split_and!.
  - unfold graphDataForForce. cbn zeta.
    rewrite newSet_nonempty.
    + cbn [andb negb]. unfold mbind, result_bind.
      rewrite Hrun, Hls. by rewrite Hnodes.
    + unfold node_ids. by rewrite Hnodes.
  - done.
  - apply Nat.le_antisymm.
    + destruct (decide (length ls ≤ length (links g))%nat) as [|Hgt]; [done|].
      specialize (Hlook (length (links g))).
      rewrite (lookup_ge_None_2 (links g)) in Hlook by lia.
      destruct (lookup_lt_is_Some_2 ls (length (links g))) as [x Hx]; [lia|].
      by rewrite Hx in Hlook.
    + destruct (decide (length (links g) ≤ length ls)%nat) as [|Hgt]; [done|].
      specialize (Hlook (length ls)).
      rewrite (lookup_ge_None_2 ls) in Hlook by lia.
      destruct (lookup_lt_is_Some_2 (links g) (length ls)) as [x Hx]; [lia|].
      by rewrite Hx in Hlook.
  - intros i l Hl.
    destruct (orient_Ok g depths l) as (k & first & Hk & Hj & Hmin & Hor).
    { by eapply list_elem_of_lookup_2. }
    pose proof (Hlook i) as Hi. rewrite Hl in Hi. cbn in Hi.
    rewrite Hor in Hi.
    destruct (ls !! i) as [fl|] eqn:Hfl; [|done].
    cbn in Hi. injection Hi as ->.
    eexists _, k, first. split; [reflexivity|]. cbn.
    split_and!; try done.
    + destruct (nearerEnd_end depths (source l) (target l)) as [He|He];
        rewrite He.
      * rewrite decide_True by done. by left.
      * destruct (decide (target l = source l)) as [Heq|Hne].
        -- rewrite Heq. by left.
        -- by right.
    + destruct (nearerEnd_le depths (source l) (target l)) as [Hs Ht].
      by destruct (decide _).
    + intros j l' Hl' Hjoin.
      pose proof (Hlook j) as Hj'. rewrite Hl' in Hj'. cbn in Hj'.
      rewrite (orient_pair g depths l l' Hjoin), Hor in Hj'.
      destruct (ls !! j) as [fl'|]; [|done].
      cbn in Hj'. by injection Hj' as ->.
Qed.

Lemma graphDataForForce_tree_witness :
  ∃ ns ls, graphDataForForce 2 true SAMPLE_GRAPH = Ok (ns, ls) ∧
           length ls = length (links SAMPLE_GRAPH).
Proof.
  destruct (graphDataForForce_tree 2 SAMPLE_GRAPH)
    as (depths & ns & ls & Hrun & _ & Hlen & _).
  - exact SAMPLE_GRAPH_closed.
  - cbn. lia.
  - by exists ns, ls.
Defined.

(** X26. The composition with [addEdge]: once [addEdge] has added a link
    that has an end which is not a room, the tree layout of the graph
    throws a [TypeError]. *)
Theorem graphDataForForce_absent_room fuel g a b t :
  nodes g ≠ [] → a ∉ node_ids g ∨ b ∉ node_ids g →
  links (addEdge g a b t) ≠ links g →
  graphDataForForce fuel true (addEdge g a b t) = Err TypeError.
Proof.
  intros Hne Habs Hadded.
  assert (addEdge g a b t
          = mkGraph (nodes g) (links g ++ [mkLink a b t None None])) as ->.
  { unfold addEdge in *. destruct (decide (a = b)); [done|].
    cbn zeta in *. by destruct (existsb _ (links g)). }
  unfold graphDataForForce. cbn zeta.
  rewrite newSet_nonempty by (unfold node_ids; cbn; by destruct (nodes g)).
  cbn [andb negb]. unfold mbind, result_bind.
  unfold getDepthsFromEntrances.
  rewrite (buildAdj_dangling _ _ (a, b)); [done| |].
  - unfold graph_edges. cbn [links]. rewrite fmap_app, elem_of_app.
    right. cbn. left.
  - apply emptyAdj_dangling. cbn [fst snd]. rewrite !newSet_elem.
    exact Habs.
Qed.

Lemma graphDataForForce_absent_room_witness :
  graphDataForForce 0 true (addEdge SAMPLE_GRAPH "room-hall" "ghost" open)
  = Err TypeError.
Proof.
  apply (graphDataForForce_absent_room 0 SAMPLE_GRAPH "room-hall" "ghost" open).
  - discriminate.
  - right. by_computation.
  - discriminate.
Defined.

Lemma entranceIdsOf_nonempty g n :
  n ∈ nodes g → entrance n = Some true → entranceIdsOf g ≠ [].
Proof.
  intros Hn He Hnil.
  assert (id n ∈ entranceIdsOf g) as Hin.
  { unfold entranceIdsOf. apply list_elem_of_fmap. exists n.
    split; [done|]. by apply list_elem_of_filter. }
  rewrite Hnil in Hin. by apply elem_of_nil in Hin.
Qed.

Lemma reach_walk (es : list (string * string)) roots r v :
  r ∈ roots → reach es r v → ∃ m, walk es roots m v.
Proof.
  intros Hr Hreach. induction Hreach as [|w x _ [m IH] Hadj].
  - exists 0%nat. by constructor.
  - exists (S m). by eapply walk_step.
Qed.

(** X27. The composition with the generator: in a unit that the generator
    returns, the depth labelling (with room for six turns) labels every
    room, with a depth of at most 5, and the rooms of depth 0 are the
    entrances, of which there is at least one. *)
Theorem generateBiteSizedDungeon_depths seedLayout r g r' fuel :
  generateBiteSizedDungeon seedLayout r = Ok (g, r') → (6 ≤ fuel)%nat →
  ∃ depths,
    getDepthsFromEntrances fuel (newSet (node_ids g)) (graph_edges g)
      (entranceIdsOf g) = Ok depths ∧
    (∀ v, v ∈ node_ids g → ∃ d, depths !! v = Some d ∧ (d ≤ 5)%nat) ∧
    (∀ v, depths !! v = Some 0%nat ↔ v ∈ entranceIdsOf g) ∧
    entranceIdsOf g ≠ [].
Proof.
  intros Hgen Hfuel.
  pose proof (generate_closed _ _ _ _ Hgen) as Hclosed.
  pose proof (generate_connected _ _ _ _ Hgen) as Hconn.
  destruct (generate_lengths _ _ _ _ Hgen) as [Hlen _].
  assert (length (newSet (node_ids g)) ≤ 6)%nat as Hsize.
  { etrans; [apply newSet_length|]. unfold node_ids.
    by rewrite length_fmap, Hlen. }
  assert (∃ n, n ∈ nodes g ∧ entrance n = Some true) as (n & Hn & He).
  { apply generate_inv in Hgen
      as (edges & nodeIds & shuffled & k & e1 & e2 & Hedges & Hlen' & Hperm
          & Hk & He1 & He2 & Hnodes & Hlinks).
    rewrite Hnodes. apply makeNodes_entrance. lia. }
  pose proof (entranceIdsOf_nonempty g n Hn He) as Hroots.
  destruct (getDepthsFromEntrances_distance fuel (newSet (node_ids g))
              (graph_edges g) (entranceIdsOf g)) as (depths & Hrun & Hdist
                                                     & Hall).
  { by apply closed_graph_newSet. }
  { apply entranceIdsOf_nodes. }
  { lia. }
  assert (rootsOf (newSet (node_ids g)) (entranceIdsOf g) = entranceIdsOf g)
    as Hrootsof.
  { unfold rootsOf. by destruct (entranceIdsOf g). }
  rewrite Hrootsof in Hdist, Hall.
  exists depths. split_and!; try done.
  - intros v Hv.
    assert (id n ∈ entranceIdsOf g) as Hroot.
    { unfold entranceIdsOf. apply list_elem_of_fmap. exists n.
      split; [done|]. by apply list_elem_of_filter. }
    assert (id n ∈ node_ids g) as Hidn.
    { unfold node_ids. apply list_elem_of_fmap. by exists n. }
    destruct (reach_walk (graph_edges g) (entranceIdsOf g) (id n) v Hroot)
      as [m Hm]; [by apply Hconn|].
    destruct (Hall m v Hm) as [d Hd]. exists d. split; [done|].
    assert (d < length (newSet (node_ids g)))%nat; [|lia].
    eapply (depth_bound (newSet (node_ids g)) (graph_edges g)
              (entranceIdsOf g) depths v d); try done.
    + by apply closed_graph_newSet.
    + apply entranceIdsOf_nodes.
  - intros v. rewrite Hdist. split.
    + intros [Hw _]. by inversion Hw.
    + intros Hv. split; [by constructor|]. intros m _. lia.
Qed.

Lemma generateBiteSizedDungeon_depths_witness :
  ∃ g depths,
    getDepthsFromEntrances 6 (newSet (node_ids g)) (graph_edges g)
      (entranceIdsOf g) = Ok depths ∧
    (∀ v, v ∈ node_ids g → ∃ d, depths !! v = Some d ∧ (d ≤ 5)%nat).
Proof.
  destruct (generateBiteSizedDungeon None SAMPLE_RNG)
    as [[g r']|] eqn:Hrun; [|by vm_compute in Hrun].
  destruct (generateBiteSizedDungeon_depths None SAMPLE_RNG g r' 6 Hrun)
    as (depths & Hd & Hall & _); [lia|].
  by exists g, depths.
Defined.

(** ** The bridges of a generated unit *)

Lemma sealed_reach {V} `{!EqDecision V} (es : list (V * V)) seen a x :
  sealed es seen = true → a ∈ seen → reach es a x → x ∈ seen.
Proof.
  intros Hs Ha Hr. induction Hr as [|w x _ IH Hadj]; [done|].
  unfold sealed in Hs. rewrite forallb_forall in Hs.
  destruct Hadj as [Hadj|Hadj];
    apply list_elem_of_In, Hs, bool_decide_eq_true in Hadj; cbn in Hadj;
    by apply Hadj.
Qed.

Lemma offTrailBridges_spec layout trail i a b :
  offTrailBridges layout trail = true → layout !! i = Some (a, b) →
  (i ∈ trail.*1 → reach (offPair a b layout) a b) ∧
  (i ∉ trail.*1 → ¬ reach (offPair a b layout) a b).
Proof.
  intros Hcheck Hi. unfold offTrailBridges in Hcheck.
  rewrite forallb_forall in Hcheck.
  specialize (Hcheck (i, (a, b))). cbn [fst snd] in Hcheck.
  assert (In (i, (a, b)) (imap pair layout)) as Hin.
  { apply list_elem_of_In. by apply (elem_of_lookup_imap_2 pair). }
  specialize (Hcheck Hin).
  destruct (bool_decide (i ∈ trail.*1)) eqn:Hon.
  - apply bool_decide_eq_true in Hon, Hcheck. split; [|done].
    intros _. eapply closure_sound; [|exact Hcheck].
    intros y Hy. apply list_elem_of_singleton in Hy as ->. apply reach_refl.
  - apply bool_decide_eq_false in Hon.
    apply andb_true_iff in Hcheck as [Hsealed Hout].
    apply negb_true_iff, bool_decide_eq_false in Hout.
    split; [done|]. intros _ Hr. apply Hout.
    eapply sealed_reach; [exact Hsealed| |exact Hr].
    clear. generalize (offPair a b layout). generalize 6%nat.
    intros n. generalize [a] (list_elem_of_here a []).
    induction n as [|n IH]; intros seen Ha es; cbn; [done|].
    apply IH. apply elem_of_app. by left.
Qed.

(** Each layout has one cycle, of three to five edges, and the edges off
    the cycle are its bridges. *)
Lemma LAYOUTS_bridges layout :
  layout ∈ LAYOUTS →
  ∃ trail, closed_trail layout trail ∧ offTrailBridges layout trail = true ∧
           (3 ≤ length trail ≤ 5)%nat.
Proof.
  intros Hin.
  assert (Forall2 (λ layout trail,
            closed_trailb layout trail = true ∧
            offTrailBridges layout trail = true ∧
            (3 ≤ length trail ≤ 5)%nat) LAYOUTS LAYOUT_TRAILS) as Hall.
  { by_computation. }
  apply list_elem_of_lookup in Hin as [k Hk].
  destruct (Forall2_lookup_l _ _ _ _ _ Hall Hk) as (trail & _ & Ht & Hb & Hl).
  exists trail. split_and!; [by apply closed_trailb_sound|done|lia|lia].
Qed.

Lemma withoutPair_offPair s t links : withoutPair s t links = offPair s t links.
Proof.
  unfold withoutPair, offPair. apply list_filter_iff. intros [u w].
  unfold samePair. cbn.
  rewrite orb_false_iff, !andb_false_iff, !bool_decide_eq_false.
  destruct (decide (u = s)), (decide (w = t)), (decide (u = t)),
    (decide (w = s)); tauto.
Qed.

Section Unrenaming.
Context {V W : Type} `{!EqDecision V} `{!EqDecision W}.
Context (f : V → W) (dom : V → Prop).
Hypothesis f_inj : ∀ x y, dom x → dom y → f x = f y → x = y.

Lemma offPair_rename es a b :
  (∀ e, e ∈ es → dom e.1 ∧ dom e.2) → dom a → dom b →
  offPair (f a) (f b) (prod_map f f <$> es)
  = prod_map f f <$> offPair a b es.
Proof.
  intros Hes Ha Hb. unfold offPair.
  induction es as [|[u w] es IH]; [done|].
  assert (dom u ∧ dom w) as [H1 H2] by (apply (Hes (u, w)); left).
  assert (∀ e', e' ∈ es → dom e'.1 ∧ dom e'.2) as Hes'
    by (intros e' He'; apply Hes; by right).
  rewrite fmap_cons. cbn [prod_map fst snd].
  destruct (decide ((u = a ∧ w = b) ∨ (u = b ∧ w = a))) as [Hp|Hp].
  - rewrite filter_cons_False.
    + rewrite (filter_cons_False _ (u, w)) by (cbn; tauto). by apply IH.
    + cbn. intros Hn. apply Hn.
      destruct Hp as [[-> ->]|[-> ->]]; [by left|by right].
  - rewrite filter_cons_True.
    + rewrite (filter_cons_True _ (u, w)) by (cbn; tauto). rewrite fmap_cons.
      f_equal. by apply IH.
    + cbn. intros [[E1 E2]|[E1 E2]]; apply Hp.
      * left. split; by apply f_inj.
      * right. split; by apply f_inj.
Qed.

Lemma reach_unrename es a y :
  (∀ e, e ∈ es → dom e.1 ∧ dom e.2) → dom a →
  reach (prod_map f f <$> es) (f a) y →
  ∃ b, dom b ∧ y = f b ∧ reach es a b.
Proof.
  intros Hes Ha Hr. induction Hr as [|w x Hr IH Hadj].
  - exists a. split_and!; [done|done|apply reach_refl].
  - destruct IH as (b & Hb & -> & Hab).
    assert (∀ u v, (u, v) ∈ prod_map f f <$> es →
              ∃ e, e ∈ es ∧ u = f e.1 ∧ v = f e.2) as Hpre.
    { intros u v Huv. apply list_elem_of_fmap in Huv as ([p q] & Heq & He).
      cbn in Heq. injection Heq as -> ->. by exists (p, q). }
    destruct Hadj as [Hadj|Hadj]; apply Hpre in Hadj as (e & He & E1 & E2);
      destruct (Hes e He) as [D1 D2].
    + apply f_inj in E1; [|done..]. subst b.
      exists e.2. split_and!; [done|done|].
      eapply reach_step; [exact Hab|]. left. by destruct e.
    + apply f_inj in E2; [|done..]. subst b.
      exists e.1. split_and!; [done|done|].
      eapply reach_step; [exact Hab|]. right. by destruct e.
Qed.
End Unrenaming.

Lemma closed_trail_rename {V W} (f : V → W) es t :
  closed_trail es t → closed_trail (prod_map f f <$> es) t.
Proof.
  intros (Hne & Hnd & a & Hch). split_and!; [done|done|].
  exists (f a). by apply chained_rename.
Qed.

(** X28. The composition of the generator with the bridge detection. In a
    unit that the generator returns with six different identifiers, the
    search (with room for six turns) returns, and there is a closed trail
    of three to five links in the unit such that the links marked as
    bridges are exactly the links that are not on it: the links of the
    cycle are never marked, all others are, so that one to three links are
    marked. In tree mode no link is marked. *)
Theorem bridgeLinkKeys_generated seedLayout r g r' fuel :
  generateBiteSizedDungeon seedLayout r = Ok (g, r') →
  NoDup (node_ids g) → (6 ≤ fuel)%nat →
  bridgeLinkKeys fuel true g = Ok ∅ ∧
  ∃ keys trail,
    bridgeLinkKeys fuel false g = Ok keys ∧
    closed_trail (graph_edges g) trail ∧ (3 ≤ length trail ≤ 5)%nat ∧
    ∀ i l, links g !! i = Some l → (linkKey l ∈ keys ↔ i ∉ trail.*1).
Proof.
  intros Hgen Hnd Hfuel. split; [reflexivity|].
  pose proof (generate_closed _ _ _ _ Hgen) as Hclosed.
  destruct (generate_lengths _ _ _ _ Hgen) as [Hlen _].
  destruct (generate_links _ _ _ _ Hgen) as [_ Hkeys].
  pose proof Hgen as Hinv.
  apply generate_inv in Hinv
    as (edges & nodeIds & shuffled & k & e1 & e2 & Hedges & Hlen' & Hperm
        & Hk & He1 & He2 & Hnodes & Hlinks).
  assert (Hids : node_ids g = nodeIds).
  { unfold node_ids. rewrite Hnodes. apply makeNodes_ids. }
  rewrite Hids in Hnd.
  set (f := λ a : nat, nodeIds !!! a) in *.
  set (dom := λ a : nat, (a < 6)%nat).
  assert (f_inj : ∀ x y, dom x → dom y → f x = f y → x = y).
  { intros x y Hx Hy Hxy. unfold dom in *.
    destruct (lookup_lt_is_Some_2 nodeIds x) as [ix Hix]; [lia|].
    destruct (lookup_lt_is_Some_2 nodeIds y) as [iy Hiy]; [lia|].
    unfold f in Hxy.
    rewrite (list_lookup_total_correct _ _ _ Hix) in Hxy.
    rewrite (list_lookup_total_correct _ _ _ Hiy) in Hxy. subst iy.
    exact (NoDup_lookup nodeIds x y ix Hnd Hix Hiy). }
  assert (Hdom : ∀ e, e ∈ edges → dom e.1 ∧ dom e.2).
  { intros e He. by apply (LAYOUTS_positions edges). }
  destruct (LAYOUTS_bridges edges Hedges) as (trail & Htrail & Hcheck & Hsize).
  pose proof (closed_graph_newSet g Hclosed) as Hclosed'.
  assert (length (newSet (node_ids g)) ≤ fuel)%nat as Hfuel'.
  { etrans; [apply newSet_length|]. unfold node_ids.
    rewrite length_fmap, Hlen. done. }
  destruct (bridgeLoop_spec fuel (newSet (node_ids g)) (graph_edges g)
              (graph_edges g) ∅ Hclosed' Hfuel') as (keys & Hrun & Hmem);
    [done|].
  exists keys, trail. split_and!.
  - exact Hrun.
  - rewrite Hlinks. by apply closed_trail_rename.
  - lia.
  - lia.
  - intros i l Hl.
    assert (graph_edges g !! i = Some (endpoints l)) as Hend.
    { unfold graph_edges. by rewrite list_lookup_fmap, Hl. }
    pose proof Hend as Hpos. rewrite Hlinks, list_lookup_fmap in Hpos.
    destruct (edges !! i) as [[a b]|] eqn:Hab; [|done].
    cbn in Hpos. injection Hpos as Hsl Htl.
    change (f a = source l) in Hsl. change (f b = target l) in Htl.
    destruct (Hdom (a, b)) as [Da Db]; [by eapply list_elem_of_lookup_2|].
    cbn in Da, Db.
    destruct (offTrailBridges_spec edges trail i a b Hcheck Hab)
      as [Hon Hoff].
    assert (Hin : (f a, f b) ∈ graph_edges g).
    { rewrite Hsl, Htl. by eapply list_elem_of_lookup_2. }
    destruct (isBridge_spec fuel (newSet (node_ids g)) (graph_edges g)
                (f a) (f b) Hclosed') as (bb & Hbb & Htrue & Hfalse);
      [by destruct (Hclosed' _ Hin)|done|].
    assert (Hrest : withoutPair (f a) (f b) (graph_edges g)
                    = prod_map f f <$> offPair a b edges).
    { rewrite withoutPair_offPair, Hlinks.
      by apply (offPair_rename f dom f_inj). }
    rewrite Hrest in Htrue, Hfalse.
    assert (Hoffdom : ∀ e, e ∈ offPair a b edges → dom e.1 ∧ dom e.2).
    { intros e He. apply Hdom. unfold offPair in He.
      by apply list_elem_of_filter in He as [_ He]. }
    rewrite Hmem. split.
    + intros [Hk0|(s & t & Hst & Hkey & Hbr)]; [by apply elem_of_empty in Hk0|].
      apply list_elem_of_lookup in Hst as [j Hj].
      unfold graph_edges in Hj. rewrite list_lookup_fmap in Hj.
      destruct (links g !! j) as [l'|] eqn:Hl'; [|done].
      cbn in Hj. injection Hj as Hs Ht.
      assert (j = i) as ->.
      { eapply (NoDup_lookup _ j i); [exact Hkeys| |].
        - rewrite list_lookup_fmap, Hl'. reflexivity.
        - rewrite list_lookup_fmap, Hl. cbn. f_equal. rewrite Hkey.
          unfold linkKey. by rewrite Hs, Ht. }
      rewrite Hl in Hl'. injection Hl' as <-.
      rewrite <- Hs, <- Ht, <- Hsl, <- Htl in Hbr.
      rewrite Hbb in Hbr. injection Hbr as ->.
      intros Hi. apply Htrue; [done|].
      apply (reach_rename f). by apply Hon.
    + intros Hi. right. exists (f a), (f b). split_and!.
      * exact Hin.
      * unfold linkKey. by rewrite <- Hsl, <- Htl.
      * rewrite Hbb. f_equal. apply Htrue. intros Hr.
        apply (reach_unrename f dom f_inj) in Hr as (b' & Db' & Hfb & Hr);
          [|done..].
        apply f_inj in Hfb; [|done..]. subst b'. by apply Hoff.
Qed.

Lemma bridgeLinkKeys_generated_witness :
  ∃ g keys trail,
    NoDup (node_ids g) ∧
    bridgeLinkKeys 6 false g = Ok keys ∧
    closed_trail (graph_edges g) trail ∧
    ∀ i l, links g !! i = Some l → (linkKey l ∈ keys ↔ i ∉ trail.*1).
Proof.
  destruct (generateBiteSizedDungeon None SAMPLE_RNG)
    as [[g r']|] eqn:Hrun; [|by vm_compute in Hrun].
  assert (NoDup (node_ids g)) as Hnd.
  { rewrite (generate_drawn _ _ _ _ Hrun). by_computation. }
  destruct (bridgeLinkKeys_generated None SAMPLE_RNG g r' 6 Hrun Hnd)
    as (_ & keys & trail & Hkeys & Htrail & _ & Hmarked); [lia|].
  by exists g, keys, trail.
Defined.

(** ** The entrances after attaching and replacing *)

Lemma entranceIdsOf_app ns1 ns2 ls :
  entranceIdsOf (mkGraph (ns1 ++ ns2) ls)
  = entranceIdsOf (mkGraph ns1 ls) ++ entranceIdsOf (mkGraph ns2 ls).
Proof. unfold entranceIdsOf. cbn [nodes]. by rewrite filter_app, fmap_app. Qed.

Lemma entranceIdsOf_none ns ls :
  Forall (λ n, entrance n = Some false) ns →
  entranceIdsOf (mkGraph ns ls) = [].
Proof.
  intros Hall. unfold entranceIdsOf. cbn [nodes].
  induction Hall as [|n ns Hn _ IH]; [done|].
  rewrite filter_cons_False; [done|]. by rewrite Hn.
Qed.

Lemma countEntrances_entranceIdsOf g :
  countEntrances g = length (entranceIdsOf g).
Proof. unfold countEntrances, entranceIdsOf. by rewrite length_fmap. Qed.

(** X29. [attachDungeon] adds no entrance: in any graph that it returns,
    the entrances are those of the old graph, in the same order, so their
    number is the same. *)
Theorem attachDungeon_entrances g nodeId r g' r' :
  attachDungeon g nodeId r = Ok (g', r') →
  entranceIdsOf g' = entranceIdsOf g ∧ countEntrances g' = countEntrances g.
Proof.
  intros Hrun.
  assert (entranceIdsOf g' = entranceIdsOf g) as Heq.
  { apply attach_inv in Hrun
      as [(_ & -> & _)|(node & sub & r1 & first & rest & t & Hnode & Hsub
                        & Hfirst & _ & ->)]; [done|].
    rewrite entranceIdsOf_app, (entranceIdsOf_none (_ <$> nodes sub)).
    - rewrite app_nil_r. reflexivity.
    - apply Forall_fmap, Forall_forall. by intros n _. }
  split; [exact Heq|]. by rewrite !countEntrances_entranceIdsOf, Heq.
Qed.

Lemma attachDungeon_entrances_witness :
  ∃ g' r', attachDungeon SAMPLE_GRAPH "room-cellar" SAMPLE_RNG = Ok (g', r') ∧
           entranceIdsOf g' = ["room-hall"].
Proof.
  destruct (attachDungeon SAMPLE_GRAPH "room-cellar" SAMPLE_RNG)
    as [[g' r']|] eqn:Hrun; [|by vm_compute in Hrun].
  exists g', r'. split; [reflexivity|].
  exact (proj1 (attachDungeon_entrances SAMPLE_GRAPH "room-cellar" SAMPLE_RNG
                  g' r' Hrun)).
Defined.

(** X30. [replaceNodeWithDungeon] hands the entrance over to the bridge
    room: when the six identifiers drawn are distinct, the entrances of
    the graph that it returns for a room of the graph are the old entrances
    without the replaced identifier, in their order, followed by the bridge
    room if the replaced room was an entrance. *)
Theorem replaceNodeWithDungeon_entrances g nodeId node r g' b r' :
  findNode g nodeId = Some node → NoDup (drawnIds None r) →
  replaceNodeWithDungeon g nodeId r = Ok ((g', b), r') →
  entranceIdsOf g'
  = filter (λ i, i ≠ nodeId) (entranceIdsOf g)
    ++ (if decide (entrance node = Some true) then [b] else []).
Proof.
  intros Hnode Hnd Hrun.
  apply replace_inv in Hrun
    as [(Habs & _)|(node' & sub & first & rest & Hnode' & Hsub
                    & Hfirst & Hb & ->)].
  { apply findNode_Some in Hnode as [Hin Hid]. destruct Habs.
    unfold node_ids. apply list_elem_of_fmap. by exists node. }
  rewrite Hnode in Hnode'. injection Hnode' as <-.
  pose proof (generate_drawn _ _ _ _ Hsub) as Hids.
  rewrite <- Hids in Hnd. unfold node_ids in Hnd. rewrite Hfirst in Hnd.
  cbn in Hnd. apply NoDup_cons in Hnd as [Hnotin _].
  rewrite entranceIdsOf_app. f_equal.
  - unfold entranceIdsOf. cbn [nodes]. clear.
    induction (nodes g) as [|n ns IH]; [done|].
    destruct (decide (id n = nodeId)) as [Hid|Hid],
             (decide (entrance n = Some true)) as [He|He].
    + rewrite (filter_cons_False (λ n, id n ≠ nodeId)) by tauto.
      rewrite (filter_cons_True (λ n, entrance n = Some true)) by done.
      rewrite fmap_cons, filter_cons_False by tauto. exact IH.
    + rewrite (filter_cons_False (λ n, id n ≠ nodeId)) by tauto.
      rewrite (filter_cons_False (λ n, entrance n = Some true)) by done.
      exact IH.
    + rewrite (filter_cons_True (λ n, id n ≠ nodeId)) by done.
      rewrite !(filter_cons_True (λ n, entrance n = Some true)) by done.
      rewrite !fmap_cons, filter_cons_True by done. by rewrite IH.
    + rewrite (filter_cons_True (λ n, id n ≠ nodeId)) by done.
      rewrite !(filter_cons_False (λ n, entrance n = Some true)) by done.
      exact IH.
  - rewrite Hfirst, fmap_cons.
    assert (entranceIdsOf
              (mkGraph (splice node nodeId b <$> rest) []) = []) as Hnone.
    { apply entranceIdsOf_none, Forall_fmap, Forall_forall.
      intros n Hn. cbn. rewrite bool_decide_eq_false_2; [done|].
      intros Heq. apply Hnotin. rewrite Hb in Heq. rewrite <- Heq.
      apply list_elem_of_fmap. by exists n. }
    unfold entranceIdsOf in *. cbn [nodes] in *.
    assert (entrance (splice node nodeId b first) = entrance node) as He.
    { cbn. by rewrite bool_decide_eq_true_2. }
    destruct (decide (entrance node = Some true)) as [Ht|Ht].
    + rewrite filter_cons_True by (by rewrite He).
      rewrite fmap_cons, Hnone. cbn. by rewrite Hb.
    + rewrite filter_cons_False by (by rewrite He). exact Hnone.
Qed.

Lemma replaceNodeWithDungeon_entrances_witness :
  ∃ g' b r',
    replaceNodeWithDungeon SAMPLE_GRAPH "room-hall" SAMPLE_RNG
    = Ok ((g', b), r') ∧
    entranceIdsOf g' = [b].
Proof.
  destruct (replaceNodeWithDungeon SAMPLE_GRAPH "room-hall" SAMPLE_RNG)
    as [[[g' b] r']|] eqn:Hrun; [|by vm_compute in Hrun].
  exists g', b, r'. split; [reflexivity|].
  apply (replaceNodeWithDungeon_entrances SAMPLE_GRAPH "room-hall" SAMPLE_ROOM
           SAMPLE_RNG g' b r'); [reflexivity| |exact Hrun].
  by_computation.
Defined.
